(** * bfc: a compiler and an interpreter for an eight-symbol tape language

    Shallow embedding of [bfi.py] (the interpreter) and [bfc.py] (the
    compiler to assembly text), and the properties of the normalizer, the
    bracket resolution, the run-length folding, the code generator and the
    execution loop.

    Python text is a sequence of characters: [list ascii].  Python integers
    are [Z] where the code subtracts from them, [nat] where they only index
    forward.  A dict is a [gmap].  A raised exception is the left injection
    of a sum, with the exception's class and message. *)

From Stdlib Require Import ZArith Ascii String Lia Sorted.
From stdpp Require Import gmap strings list pretty.

Open Scope char_scope.

(** ** Shared data *)

Abbreviation text := (list ascii).

(** The exceptions the two programs raise.  [InterpreterError] and
    [ValueError] carry their message; [IndexError], [KeyError] and
    [TypeError] are what the Python runtime raises on a bad subscript, a
    missing key, and a non-integer stored into a [bytearray]. *)
Inductive exn : Type :=
  | InterpreterError (message : string)
  | ValueError (message : string)
  | IndexError
  | KeyError
  | TypeError.

Definition exn_message (e : exn) : string :=
  match e with
  | InterpreterError m | ValueError m => m
  | IndexError => "index out of range"
  | KeyError => "key"
  | TypeError => "an integer is required"
  end.

(** Sequencing of calls that may raise: the first exception is the result. *)
Global Instance exn_bind : MBind (sum exn) := λ A B k m,
  match m with
  | inl e => inl e
  | inr a => k a
  end.

Global Instance exn_fmap : FMap (sum exn) := λ A B f m,
  match m with
  | inl e => inl e
  | inr a => inr (f a)
  end.

(** [%d] of Python's string formatting: decimal, with a sign when negative. *)
Definition format_d (n : Z) : string := pretty n.

(** [s[i]] on a Python sequence: a negative index counts from the end, and
    an index outside [-len .. len-1] raises [IndexError] ([None] here). *)
Definition py_index {A} (l : list A) (i : Z) : option nat :=
  let len := Z.of_nat (length l) in
  if (0 <=? i)%Z then
    if (i <? len)%Z then Some (Z.to_nat i) else None
  else
    if (- len <=? i)%Z then Some (Z.to_nat (len + i)) else None.

Definition getitem {A} (l : list A) (i : Z) : option A :=
  n ← py_index l i; l !! n.

Definition setitem {A} (l : list A) (i : Z) (x : A) : option (list A) :=
  n ← py_index l i; Some (<[n := x]> l).


(** ** Well-formed programs *)

(** The nesting depth after [program], started at depth [depth]: a
    loop-start adds one, a loop-end takes one away, and there is no depth
    ([None]) once a loop-end comes at depth 0. *)
Fixpoint depth_after (depth : nat) (program : text) : option nat :=
  match program with
  | [] => Some depth
  | char :: program =>
      if decide (char = "[") then depth_after (S depth) program
      else if decide (char = "]") then
        match depth with
        | O => None
        | S depth => depth_after depth program
        end
      else depth_after depth program
  end.

(** The Bracket Map invariant: the depth never goes below 0 and is back at
    0 at the end, so that every bracket has its match. *)
Definition well_formed (program : text) : Prop :=
  depth_after 0 program = Some 0.

Global Instance well_formed_dec program : Decision (well_formed program) :=
  decide (depth_after 0 program = Some 0).

(** The tokens strictly between positions [i] and [j]. *)
Definition between (program : text) (i j : nat) : text :=
  take (j - S i) (drop (S i) program).

(** Position [j] holds the loop-end that matches the loop-start at
    position [i]: scanning forward from [i], the depth is back at the depth
    of [i] at [j] and not before. *)
Definition matched (program : text) (i j : nat) : Prop :=
  program !! i = Some "[" ∧ program !! j = Some "]" ∧ i < j ∧
  depth_after 0 (between program i j) = Some 0.

(** What a bracket map holds once the positions below [k] were visited: it
    pairs matched positions only, and it pairs, in both directions, every
    loop-start below [k] with its match. *)
Definition tags_upto (program : text) (k : nat) (tags : gmap nat nat) : Prop :=
  (∀ i j, tags !! i = Some j →
     (i < k ∧ matched program i j) ∨ (j < k ∧ matched program j i)) ∧
  (∀ i j, i < k → matched program i j →
     tags !! i = Some j ∧ tags !! j = Some i).

(** The bracket at position [index] has no match. *)
Definition unmatched (program : text) (index : nat) : Prop :=
  (program !! index = Some "[" ∧ ∀ j, ¬ matched program index j) ∨
  (program !! index = Some "]" ∧ ∀ i, ¬ matched program i index).

(** ** Error messages *)

(** [needle] occurs in [text]. *)
Fixpoint mentions (needle text : string) : bool :=
  String.prefix needle text ||
  match text with
  | EmptyString => false
  | String _ text => mentions needle text
  end.

(** The exception names, in its message, a position of a program of [n]
    tokens. *)
Definition references_valid_index (e : exn) (n : nat) : Prop :=
  ∃ index, index < n ∧
    mentions (format_d (Z.of_nat index)) (exn_message e) = true.


(** ** The interpreter, [bfi.py] *)

Module Bfi.

Definition VALID_TOKENS : text := ["<"; ">"; "["; "]"; "."; ","; "+"; "-"].
Definition MINIMUM_TARGET_SIZE : Z := 30000.

(** *** The input channel *)

(** What [io_getchar] hands to the caller: a one-character [str] when it
    comes out of [_iobuf] (which [io_rebuffer] fills with [list(unused)]),
    an [int] when it comes from [ord(raw)]. *)
Inductive pyval : Type :=
  | PyStr (c : ascii)
  | PyInt (n : Z).

(** The process-wide channel state: the global [_iobuf], what is left on
    standard input, and what was written to standard output. *)
Record io : Type := Io {
  iobuf : text;
  stdin : text;
  stdout : text
}.

Definition set_iobuf (b : text) (w : io) : io :=
  {| iobuf := b; stdin := stdin w; stdout := stdout w |}.
Definition set_stdin (s : text) (w : io) : io :=
  {| iobuf := iobuf w; stdin := s; stdout := stdout w |}.
Definition write_stdout (s : text) (w : io) : io :=
  {| iobuf := iobuf w; stdin := stdin w; stdout := stdout w ++ s |}.

(** [sys.stdin.read(n)]: up to [n] characters, fewer at end of input. *)
Definition stdin_read (n : nat) (w : io) : text * io :=
  (take n (stdin w), set_stdin (drop n (stdin w)) w).

(** [str.encode()] (UTF-8) on the code points 0..255, which are the
    characters that standard input holds here: one byte below 128, two
    bytes from 128 on.  Characters beyond 255, and the lone surrogates on
    which [encode] raises [UnicodeEncodeError], are not in this range. *)
Definition encode_char (c : ascii) : list Z :=
  let n := Z.of_N (N_of_ascii c) in
  if (n <? 128)%Z then [n] else [192 + n / 64; 128 + n mod 64]%Z.

Definition encode (s : text) : list Z := s ≫= encode_char.

Definition io_rebuffer (unused : text) (w : io) : io :=
  set_iobuf (iobuf w ++ unused) w.

Definition io_getchar (w : io) : (exn + pyval) * io :=
  match iobuf w with
  | char :: rest => (inr (PyStr char), set_iobuf rest w)
  | [] =>
      let '(chunk, w) := stdin_read 1 w in
      let raw := encode chunk in
      if decide (1 < length raw) then
        (inl (InterpreterError "interpreter does not accept multibyte characters"), w)
      else
        match raw with
        | [] => (inl (InterpreterError "reached eof when scanning for input"), w)
        | byte :: _ => (inr (PyInt byte), w)
        end
  end.

(** *** Bracket resolution *)

(** The [while cursor < len(source)] loop of [tag_lookahead], on what is
    left of the source from [cursor] on.  [None] is the fall out of the loop
    (the [raise] after it). *)
Fixpoint tag_lookahead_loop (rest : text) (cursor : nat) (nest_level : Z)
    : option nat :=
  match rest with
  | [] => None
  | char :: rest =>
      let nest_level :=
        if decide (char = "[") then (nest_level + 1)%Z else nest_level in
      if decide (char = "]") then
        let nest_level := (nest_level - 1)%Z in
        if decide (nest_level = 0%Z) then Some cursor
        else tag_lookahead_loop rest (S cursor) nest_level
      else tag_lookahead_loop rest (S cursor) nest_level
  end.

Definition mismatched (index : nat) : exn :=
  InterpreterError ("mismatched bracket at index " +:+ format_d (Z.of_nat index)).

Definition tag_lookahead (source : text) (index : nat) : exn + nat :=
  match tag_lookahead_loop (drop (S index) source) (S index) 1 with
  | Some cursor => inr cursor
  | None => inl (mismatched index)
  end.

(** The [for index in range(len(source))] loop of [construct_tags]. *)
Fixpoint construct_tags_loop (source : text) (range : list nat)
    (tags : gmap nat nat) : exn + gmap nat nat :=
  match range with
  | [] => inr tags
  | index :: range =>
      match source !! index with
      | None => inl IndexError
      | Some char =>
          if decide (char = "[") then
            match tag_lookahead source index with
            | inl e => inl e
            | inr next_index =>
                construct_tags_loop source range
                  (<[next_index := index]> (<[index := next_index]> tags))
            end
          else if decide (char = "]") then
            if decide (is_Some (tags !! index)) then
              construct_tags_loop source range tags
            else inl (mismatched index)
          else construct_tags_loop source range tags
      end
  end.

Definition construct_tags (source : text) : exn + gmap nat nat :=
  construct_tags_loop source (seq 0 (length source)) ∅.

(** *** The normalizer *)

Definition clean_source (source : text) : text :=
  filter (λ c, c ∈ VALID_TOKENS) source.

(** *** The execution loop *)

Record state : Type := State {
  machine : list Z;
  pointer : Z;
  cursor : nat;
  world : io
}.

Definition set_machine (m : list Z) (st : state) : state :=
  {| machine := m; pointer := pointer st; cursor := cursor st; world := world st |}.
Definition set_pointer (p : Z) (st : state) : state :=
  {| machine := machine st; pointer := p; cursor := cursor st; world := world st |}.
Definition set_cursor (c : nat) (st : state) : state :=
  {| machine := machine st; pointer := pointer st; cursor := c; world := world st |}.
Definition set_world (w : io) (st : state) : state :=
  {| machine := machine st; pointer := pointer st; cursor := cursor st; world := w |}.

(** [chr] of a cell value. *)
Definition chr (n : Z) : ascii := ascii_of_N (Z.to_N n).

(** [machine[pointer] = value] on the [bytearray]: the value must be an
    [int] in [range(0, 256)] and the index must be in range. *)
Definition store (value : pyval) (st : state) : exn + state :=
  match value with
  | PyStr _ => inl TypeError
  | PyInt n =>
      if decide (0 ≤ n < 256)%Z then
        match setitem (machine st) (pointer st) n with
        | Some m => inr (set_machine m st)
        | None => inl IndexError
        end
      else inl (ValueError "byte must be in range(0, 256)")
  end.

(** The body of one [case] of the [match char] statement: the state after
    it, or the exception and the state it was raised in. *)
Definition exec (loop_tags : gmap nat nat) (cells : Z) (char : ascii)
    (st : state) : (exn * state) + state :=
  if decide (char = ">") then
    let st := set_pointer (pointer st + 1) st in
    if decide (pointer st = cells) then
      inl (InterpreterError
             ("pointer out of range (" +:+ format_d cells +:+ ")"), st)
    else inr st
  else if decide (char = "<") then
    let st := set_pointer (pointer st - 1) st in
    if decide (pointer st < 0)%Z then
      inl (InterpreterError "pointer out of range (-1)", st)
    else inr st
  else if decide (char = "+") then
    match getitem (machine st) (pointer st) with
    | None => inl (IndexError, st)
    | Some v =>
        match store (PyInt (Z.land (v + 1) 255)) st with
        | inl e => inl (e, st)
        | inr st => inr st
        end
    end
  else if decide (char = "-") then
    match getitem (machine st) (pointer st) with
    | None => inl (IndexError, st)
    | Some v =>
        match store (PyInt (Z.land (v - 1) 255)) st with
        | inl e => inl (e, st)
        | inr st => inr st
        end
    end
  else if decide (char = "[") then
    match getitem (machine st) (pointer st) with
    | None => inl (IndexError, st)
    | Some v =>
        if decide (v = 0%Z) then
          match loop_tags !! cursor st with
          | None => inl (KeyError, st)
          | Some target => inr (set_cursor target st)
          end
        else inr st
    end
  else if decide (char = "]") then
    match getitem (machine st) (pointer st) with
    | None => inl (IndexError, st)
    | Some v =>
        if decide (v ≠ 0%Z) then
          match loop_tags !! cursor st with
          | None => inl (KeyError, st)
          | Some target => inr (set_cursor target st)
          end
        else inr st
    end
  else if decide (char = ".") then
    match getitem (machine st) (pointer st) with
    | None => inl (IndexError, st)
    | Some v => inr (set_world (write_stdout [chr v] (world st)) st)
    end
  else if decide (char = ",") then
    match io_getchar (world st) with
    | (inl e, w) => inl (e, set_world w st)
    | (inr value, w) =>
        let st := set_world w st in
        match store value st with
        | inl e => inl (e, st)
        | inr st => inr st
        end
    end
  else inr st.

(** Where one turn of the [while cursor < len(source)] loop leaves the
    execution. *)
Inductive outcome : Type :=
  | Running (st : state)
  | Halted (st : state)
  | Raised (e : exn) (st : state).

(** One turn of the loop: the test, the [match], and [cursor += 1]. *)
Definition step (source : text) (loop_tags : gmap nat nat) (cells : Z)
    (st : state) : outcome :=
  match source !! cursor st with
  | None => Halted st
  | Some char =>
      match exec loop_tags cells char st with
      | inl (e, st) => Raised e st
      | inr st => Running (set_cursor (cursor st + 1) st)
      end
  end.

(** At most [fuel] turns of the loop; [Running] when they did not end it. *)
Fixpoint run (fuel : nat) (source : text) (loop_tags : gmap nat nat)
    (cells : Z) (st : state) : outcome :=
  match fuel with
  | O => Running st
  | S fuel =>
      match step source loop_tags cells st with
      | Running st => run fuel source loop_tags cells st
      | o => o
      end
  end.

(** [bytearray(cells)], [pointer = 0], [cursor = 0]. *)
Definition initial (cells : Z) (w : io) : state :=
  {| machine := replicate (Z.to_nat cells) 0%Z; pointer := 0; cursor := 0;
     world := w |}.

Definition interpret (fuel : nat) (source : text) (cells : Z) (w : io)
    : exn + outcome :=
  let source := clean_source source in
  match construct_tags source with
  | inl e => inl e
  | inr loop_tags =>
      if decide (cells < 0)%Z then inl (ValueError "negative count")
      else inr (run fuel source loop_tags cells (initial cells w))
  end.

(** *** The entry point *)

Definition chunk_size : nat := 1024.

(** The [while char not in result] loop of [read_until_char]; it has no
    other exit, so [None] is the loop still turning after [fuel] turns. *)
Fixpoint read_until_loop (fuel : nat) (char : ascii) (result chunk : text)
    (w : io) : option (text * text * io) :=
  if decide (char ∈ result) then Some (result, chunk, w)
  else
    match fuel with
    | O => None
    | S fuel =>
        let result := result ++ chunk in
        let '(chunk, w) := stdin_read chunk_size w in
        read_until_loop fuel char result chunk w
    end.

(** [str.index]: the position of the first occurrence. *)
Fixpoint str_index (char : ascii) (s : text) : option nat :=
  match s with
  | [] => None
  | c :: s => if decide (c = char) then Some 0 else S <$> str_index char s
  end.

Definition read_until_char (fuel : nat) (char : ascii) (w : io)
    : option ((exn + text) * io) :=
  let result := [] in
  let '(chunk, w) := stdin_read chunk_size w in
  '(result, chunk, w) ← read_until_loop fuel char result chunk w;
  let result := result ++ chunk in
  match str_index char result with
  | None => Some (inl (ValueError "substring not found"), w)
  | Some first_occurrence =>
      let w := io_rebuffer (drop first_occurrence result) w in
      let result := take first_occurrence result in
      Some (inr result, w)
  end.

(** [main] when no source file is given: the source is read up to ['!'],
    then interpreted with the default number of cells. *)
Definition main_stdin (fuel : nat) (w : io) : option (exn + outcome) :=
  '(r, w) ← read_until_char fuel "!" w;
  match r with
  | inl e => Some (inl e)
  | inr source => Some (interpret fuel source MINIMUM_TARGET_SIZE w)
  end.

(** *** Properties of states *)

(** The two cases in which a turn sets the cursor from [loop_tags]. *)
Definition jumps (source : text) (st : state) : Prop :=
  (source !! cursor st = Some "[" ∧
   getitem (machine st) (pointer st) = Some 0%Z) ∨
  (source !! cursor st = Some "]" ∧
   ∃ v, getitem (machine st) (pointer st) = Some v ∧ v ≠ 0%Z).

(** The pointer is an index of the tape, and the tape has [cells] cells. *)
Definition in_bounds (cells : Z) (st : state) : Prop :=
  (0 ≤ pointer st < cells)%Z ∧ length (machine st) = Z.to_nat cells.

(** What leaving the range looks like: a move, refused by its own test,
    with the tape and the cursor as they were. *)
Definition refused_move (char : ascii) (st : state) (e : exn) (st' : state)
    : Prop :=
  (char = ">" ∨ char = "<") ∧ (∃ m, e = InterpreterError m) ∧
  machine st' = machine st ∧ cursor st' = cursor st.

(** A reading of "the cursor jumps to the matched index": after a
    loop-start turn on a zero cell, the cursor is the matched index. *)
Definition jump_lands_on_match (source : text) (loop_tags : gmap nat nat)
    (cells : Z) (st : state) : Prop :=
  ∀ target st',
    source !! cursor st = Some "[" →
    getitem (machine st) (pointer st) = Some 0%Z →
    loop_tags !! cursor st = Some target →
    step source loop_tags cells st = Running st' →
    cursor st' = target.

(** A channel with nothing buffered, nothing to read, nothing written. *)
Definition no_io : io := {| iobuf := []; stdin := []; stdout := [] |}.

End Bfi.

(** ** The compiler, [bfc.py] *)

Module Bfc.

Definition VALID_TOKENS : text := ["<"; ">"; "["; "]"; "."; ","; "+"; "-"].
Definition MINIMUM_TARGET_SIZE : Z := 30000.

(** *** The assembly text *)

Definition newline : string := String "010" EmptyString.
Definition dquote : string := String "034" EmptyString.

(** A block of text given line by line, every line ended by a newline. *)
Fixpoint unlines (ls : list string) : string :=
  match ls with
  | [] => EmptyString
  | l :: ls => l +:+ newline +:+ unlines ls
  end.

(** The lines of [PROGRAM_HEADER.format(a0, a1)]: [{0}] is the size of
    [region], [{1}] the chunk that [clearbuf] reads. *)
Definition HEADER_LINES (a0 a1 : string) : list string := [
  ".section .data";
  "has_read:";
  "    .byte 0";
  "region:";
  "    .zero " +:+ a0;
  "pointer:";
  "    .long 0";
  "abort_message:";
  "    .string " +:+ dquote +:+ "abort: pointer out of range" +:+ dquote;
  "    abort_message_len = (. - abort_message)";
  "";
  ".section .text";
  ".global _start";
  "";
  "dotproc:";
  "    movq $1, %rdi";
  "    lea [region], %rsi";
  "    add [pointer], %esi";
  "    movq $1, %rdx";
  "    movq $1, %rax";
  "    syscall";
  "    ret";
  "commaproc:";
  "    movq $1, [has_read]";
  "    movq $0, %rdi";
  "    lea [region], %rsi";
  "    add [pointer], %esi";
  "    movq $1, %rdx";
  "    movq $0, %rax";
  "    syscall";
  "    ret";
  "";
  "cleanup:";
  "    cmpb $1, [has_read]";
  "    jne exit";
  "clearbuf:";
  "    movq $0, %rdi";
  "    lea [region], %rsi";
  "    movq $" +:+ a1 +:+ ", %rdx";
  "    movq $0, %rax";
  "    syscall";
  "";
  "    cmp $" +:+ a1 +:+ ", %rax";
  "    je clearbuf";
  "exit:";
  "    movq $0, %rdi";
  "    movq $60, %rax";
  "    syscall";
  "";
  "abort:";
  "    movq $1, %rdi";
  "    lea [abort_message], %rsi";
  "    movq $abort_message_len, %rdx";
  "    movq $1, %rax";
  "    syscall";
  "    jmp exit";
  "";
  "_start:"
]%string.

Definition PROGRAM_HEADER (a0 a1 : string) : string :=
  unlines (HEADER_LINES a0 a1).

(** The four instruction templates, applied to the integer that [%d]
    formats. *)
Definition SHIFT_RIGHT_INSTRUCTION (d : Z) : string := unlines [
  "addl $" +:+ format_d d +:+ ", [pointer]";
  "cmpl $-1, [pointer]";
  "je abort"
]%string.

Definition SHIFT_LEFT_INSTRUCTION (d : Z) : string := unlines [
  "subl $" +:+ format_d d +:+ ", [pointer]";
  "cmpl $-1, [pointer]";
  "je abort"
]%string.

Definition ADD_INSTRUCTION (d : Z) : string := unlines [
  "lea [region], %eax";
  "add [pointer], %eax";
  "addb $" +:+ format_d d +:+ ", (%eax)"
]%string.

Definition SUB_INSTRUCTION (d : Z) : string := unlines [
  "lea [region], %eax";
  "add [pointer], %eax";
  "subb $" +:+ format_d d +:+ ", (%eax)"
]%string.

(** *** The compiler object *)

(** The attributes of [BFCompiler] that the methods read or write
    ([labels] and [label_counter] are never used). *)
Record BFCompiler : Type := Compiler {
  source : text;
  cursor : nat;
  num_cells : Z;
  consumed : Z;
  quantity : Z
}.

Definition set_cursor (c : nat) (self : BFCompiler) : BFCompiler :=
  {| source := source self; cursor := c; num_cells := num_cells self;
     consumed := consumed self; quantity := quantity self |}.

(** [self.consumed = 0; self.quantity = 0]. *)
Definition reset (self : BFCompiler) : BFCompiler :=
  {| source := source self; cursor := cursor self; num_cells := num_cells self;
     consumed := 0; quantity := 0 |}.

(** [self.consumed += 1; self.quantity += q; self.cursor += 1]. *)
Definition consume (q : Z) (self : BFCompiler) : BFCompiler :=
  {| source := source self; cursor := cursor self + 1;
     num_cells := num_cells self;
     consumed := consumed self + 1; quantity := quantity self + q |}.

Definition normalize (source_code : text) : text :=
  filter (λ c, c ∈ VALID_TOKENS) source_code.

(** [BFCompiler(source, size)]. *)
Definition init (source : text) (size : Z) : BFCompiler :=
  {| source := normalize source; cursor := 0; num_cells := size;
     consumed := 0; quantity := 0 |}.

Definition produce_header (self : BFCompiler) : string :=
  let buf_size := Z.min (num_cells self) 1024 in
  PROGRAM_HEADER (format_d (num_cells self)) (format_d buf_size).

(** *** Run-length folding *)

(** The [while char in ["<", ">"]] loop, on what is left of the source from
    [self.cursor] on: it ends at the first other character, or by [break]
    when the cursor reaches the end. *)
Fixpoint shift_loop (rest : text) (self : BFCompiler) : BFCompiler :=
  match rest with
  | [] => self
  | char :: rest =>
      if decide (char ∈ ["<"; ">"]) then
        shift_loop rest
          (consume (if decide (char = ">") then 1 else -1) self)
      else self
  end.

Definition produce_shift_instruction (self : BFCompiler)
    : exn + (option string * BFCompiler) :=
  match source self !! cursor self with
  | None => inl IndexError
  | Some _ =>
      let self := shift_loop (drop (cursor self) (source self)) self in
      if decide (consumed self > 0)%Z then
        if decide (quantity self > 0)%Z then
          inr (Some (SHIFT_RIGHT_INSTRUCTION (quantity self)), self)
        else if decide (quantity self < 0)%Z then
          inr (Some (SHIFT_LEFT_INSTRUCTION (- quantity self)), self)
        else inr (Some EmptyString, self)
      else inr (None, self)
  end.

Fixpoint mutate_loop (rest : text) (self : BFCompiler) : BFCompiler :=
  match rest with
  | [] => self
  | char :: rest =>
      if decide (char ∈ ["+"; "-"]) then
        mutate_loop rest
          (consume (if decide (char = "+") then 1 else -1) self)
      else self
  end.

Definition produce_mutate_instruction (self : BFCompiler)
    : exn + (option string * BFCompiler) :=
  match source self !! cursor self with
  | None => inl IndexError
  | Some _ =>
      let self := mutate_loop (drop (cursor self) (source self)) self in
      if decide (consumed self > 0)%Z then
        if decide (quantity self > 0)%Z then
          inr (Some (ADD_INSTRUCTION (quantity self)), self)
        else if decide (quantity self < 0)%Z then
          inr (Some (SUB_INSTRUCTION (- quantity self)), self)
        else inr (Some EmptyString, self)
      else inr (None, self)
  end.

(** *** The bracket scans *)

Definition get_label (index : Z) : string := "tag_" +:+ format_d index.

Definition missing : exn := ValueError "missing matching bracket".

(** The loop of [__lookahead], on what is left of the source from
    [local_cursor] on. *)
Fixpoint lookahead_loop (rest : text) (local_cursor : nat) (nest_level : Z)
    : nat * Z :=
  match rest with
  | [] => (local_cursor, nest_level)
  | char :: rest =>
      if decide (nest_level >= 0)%Z then
        let nest_level :=
          if decide (char = "[") then (nest_level + 1)%Z
          else if decide (char = "]") then (nest_level - 1)%Z
          else nest_level in
        lookahead_loop rest (S local_cursor) nest_level
      else (local_cursor, nest_level)
  end.

(** The position that [__lookahead] finds, before it is made a label. *)
Definition lookahead_index (self : BFCompiler) : exn + Z :=
  let local_cursor := cursor self + 1 in
  let '(local_cursor, nest_level) :=
    lookahead_loop (drop local_cursor (source self)) local_cursor 0 in
  if decide (nest_level < 0)%Z then inr (Z.of_nat local_cursor - 1)%Z
  else inl missing.

Definition lookahead (self : BFCompiler) : exn + string :=
  get_label <$> lookahead_index self.

(** The loop of [__lookbehind]: [local_cursor] walks down and the loop is
    left when it is no longer above 0; more than [local_cursor] turns are
    never needed, so [fuel] is the length of the source. *)
Fixpoint lookbehind_loop (fuel : nat) (source : text)
    (local_cursor nest_level : Z) : exn + (Z * Z) :=
  if decide (nest_level >= 0 ∧ local_cursor > 0)%Z then
    match fuel with
    | O => inr (local_cursor, nest_level)
    | S fuel =>
        match getitem source local_cursor with
        | None => inl IndexError
        | Some char =>
            let nest_level :=
              if decide (char = "]") then (nest_level + 1)%Z
              else if decide (char = "[") then (nest_level - 1)%Z
              else nest_level in
            lookbehind_loop fuel source (local_cursor - 1) nest_level
        end
    end
  else inr (local_cursor, nest_level).

Definition lookbehind_index (self : BFCompiler) : exn + Z :=
  let local_cursor := (Z.of_nat (cursor self) - 1)%Z in
  match lookbehind_loop (length (source self)) (source self) local_cursor 0 with
  | inl e => inl e
  | inr (local_cursor, nest_level) =>
      if decide (nest_level < 0)%Z then inr (local_cursor + 1)%Z
      else inl missing
  end.

Definition lookbehind (self : BFCompiler) : exn + string :=
  get_label <$> lookbehind_index self.

(** *** Emission *)

Definition produce_loop_start (self : BFCompiler) : exn + string :=
  target ← lookahead self;
  inr (unlines [
    get_label (Z.of_nat (cursor self)) +:+ ":";
    "lea [region], %eax";
    "add [pointer], %eax";
    "cmpb $0, (%eax)";
    "je " +:+ target ]%string).

Definition produce_loop_end (self : BFCompiler) : exn + string :=
  target ← lookbehind self;
  inr (unlines [
    get_label (Z.of_nat (cursor self)) +:+ ":";
    "lea [region], %eax";
    "add [pointer], %eax";
    "cmpb $0, (%eax)";
    "jne " +:+ target ]%string).

(** [__produce_instruction]: [inr None] is [StopIteration]. *)
Definition produce_instruction (self : BFCompiler)
    : exn + option (string * BFCompiler) :=
  if decide (cursor self = length (source self)) then inr None
  else
    let self := reset self in
    '(instruction, self) ← produce_shift_instruction self;
    match instruction with
    | Some instruction => inr (Some (instruction, self))
    | None =>
        '(instruction, self) ← produce_mutate_instruction self;
        match instruction with
        | Some instruction => inr (Some (instruction, self))
        | None =>
            match source self !! cursor self with
            | None => inl IndexError
            | Some char =>
                instruction ←
                  (if decide (char = "[") then produce_loop_start self
                   else if decide (char = "]") then produce_loop_end self
                   else if decide (char = ".") then
                     inr ("call dotproc" +:+ newline)
                   else if decide (char = ",") then
                     inr ("call commaproc" +:+ newline)
                   else inr EmptyString);
                inr (Some (instruction, set_cursor (cursor self + 1) self))
            end
        end
    end.

(** The [while True] loop of [compile].  Every call that does not stop
    moves the cursor forward, so one more turn than the source has
    characters is always enough; [None] is the loop still turning after
    [fuel] turns. *)
Fixpoint compile_loop (fuel : nat) (self : BFCompiler) (output : string)
    : option (exn + string) :=
  match fuel with
  | O => None
  | S fuel =>
      match produce_instruction self with
      | inl e => Some (inl e)
      | inr None => Some (inr (output +:+ "call cleanup"))
      | inr (Some (instruction, self)) =>
          compile_loop fuel self (output +:+ instruction)
      end
  end.

Definition compile (self : BFCompiler) : option (exn + string) :=
  compile_loop (S (length (source self))) self (produce_header self).

(** *** Runs of tokens and their net effect *)

(** The longest prefix of [rest] made of characters in [class]. *)
Fixpoint leading_run (class : text) (rest : text) : text :=
  match rest with
  | [] => []
  | char :: rest =>
      if decide (char ∈ class) then char :: leading_run class rest else []
  end.

(** The signed unit effect of a token: +1 for the character [up], -1 for
    the other character of its class. *)
Definition unit_effect (up : ascii) (char : ascii) : Z :=
  if decide (char = up) then 1 else -1.

(** The algebraic sum of the unit effects of a run. *)
Definition net (up : ascii) (run : text) : Z :=
  foldr (λ char total, unit_effect up char + total)%Z 0%Z run.

(** The tokens that [__produce_shift_instruction] and
    [__produce_mutate_instruction] consume at the cursor. *)
Definition shift_run (self : BFCompiler) : text :=
  leading_run ["<"; ">"] (drop (cursor self) (source self)).

Definition mutate_run (self : BFCompiler) : text :=
  leading_run ["+"; "-"] (drop (cursor self) (source self)).

(** The folded operations, as the emitted groups apply them: the net
    displacement added to the pointer, the net delta added to a cell
    modulo 256. *)
Definition folded_move (q : Z) (pointer : Z) : Z := (pointer + q)%Z.
Definition folded_mutation (q : Z) (cell : Z) : Z := ((cell + q) mod 256)%Z.

(** A reading of "folding a run of moves gives the same final pointer as
    the run taken token by token": the interpreter, started in [st] on the
    run alone, reaches its end with the pointer where the folded move puts
    it. *)
Definition fold_matches_tokens (self : BFCompiler) (cells : Z)
    (st : Bfi.state) : Prop :=
  ∀ instruction self',
    produce_instruction self = inr (Some (instruction, self')) →
    ∃ st',
      Bfi.run (S (length (shift_run self))) (shift_run self) ∅ cells st
        = Bfi.Halted st' ∧
      Bfi.pointer st' = folded_move (quantity self') (Bfi.pointer st).

(** What the two folding passes return for a run of net quantity [q]:
    one instruction group, or the empty text when the run cancels out. *)
Definition shift_text (q : Z) : string :=
  if decide (q > 0)%Z then SHIFT_RIGHT_INSTRUCTION q
  else if decide (q < 0)%Z then SHIFT_LEFT_INSTRUCTION (- q)
  else EmptyString.

Definition mutate_text (q : Z) : string :=
  if decide (q > 0)%Z then ADD_INSTRUCTION q
  else if decide (q < 0)%Z then SUB_INSTRUCTION (- q)
  else EmptyString.

(** The compiler object after a run of [n] tokens of net quantity [q] was
    consumed at the cursor. *)
Definition after_run (n : nat) (q : Z) (self : BFCompiler) : BFCompiler :=
  {| source := source self; cursor := cursor self + n;
     num_cells := num_cells self; consumed := Z.of_nat n; quantity := q |}.

(** *** Lines of the generated text *)

(** A line without its leading blanks. *)
Fixpoint lstrip (line : string) : string :=
  match line with
  | String " " line => lstrip line
  | _ => line
  end.

(** The line is a compare instruction ([cmp], [cmpb], [cmpl]). *)
Definition is_compare (line : string) : bool :=
  String.prefix "cmp" (lstrip line).

(** The compare instructions that a program generated for [size] cells may
    contain: the sentinel test of the pointer, the zero test of the current
    cell, and the two tests of the [cleanup] routine. *)
Definition COMPARE_LINES (size : Z) : list string := [
  "cmpl $-1, [pointer]";
  "cmpb $0, (%eax)";
  "    cmpb $1, [has_read]";
  "    cmp $" +:+ format_d (Z.min size 1024) +:+ ", %rax"
]%string.

(** The text holds a newline character. *)
Fixpoint has_newline (s : string) : bool :=
  match s with
  | EmptyString => false
  | String c s => bool_decide (c = "010") || has_newline s
  end.

(** The lines of a text: what is between its newline characters, as
    [str.split] with a newline gives them. *)
Fixpoint lines (s : string) : list string :=
  match s with
  | EmptyString => [EmptyString]
  | String c s =>
      if decide (c = "010") then EmptyString :: lines s
      else
        match lines s with
        | [] => [String c EmptyString]
        | l :: ls => String c l :: ls
        end
  end.

(** A line is allowed in a program for [size] cells when it is one line,
    without a newline inside, and, if it is a compare, it is one of
    [COMPARE_LINES]. *)
Definition allowed_line (size : Z) (line : string) : Prop :=
  has_newline line = false ∧
  (is_compare line = true → line ∈ COMPARE_LINES size).

(** Texts put one after the other, as [output += ...] does in a loop. *)
Definition concat_text (parts : list string) : string :=
  foldr String.append EmptyString parts.


(** The compiler object with its cursor on position [k] of [source]. *)
Definition at_cursor (source : text) (k : nat) : BFCompiler :=
  {| source := source; cursor := k; num_cells := 0; consumed := 0;
     quantity := 0 |}.

(** The bracket at position [k], if there is one, has a match for the scan
    that the compiler runs on it. *)
Definition scan_ok (source : text) (k : nat) : Prop :=
  (source !! k = Some "[" → ∃ j, lookahead_index (at_cursor source k) = inr j) ∧
  (source !! k = Some "]" → ∃ i, lookbehind_index (at_cursor source k) = inr i).

End Bfc.

(** ** The entry points *)

(** *** [bfi.py]: [main] *)

Module BfiCli.
Import Bfi.

(** What [options.source] leads to: no file was named; or a file was
    named and [open] or [fp.read] raised; or the content of the file. *)
Inductive source_argument : Type :=
  | NoFile
  | Unreadable
  | Content (content : text).

(** How the process ends: [main] returns (status 0); [sys.exit(1)] after a
    line on standard error; an exception of the interpreter that nothing
    catches; or the exception of [open] or [fp.read], raised before the
    [try] and caught by nothing either. *)
Inductive ending : Type :=
  | Exit0 (w : io)
  | Exit1 (stderr : string) (w : io)
  | Traceback (e : exn) (w : io)
  | ReadFailure (w : io).

(** The [except InterpreterError as err] clause of [main]. *)
Definition handle (e : exn) (w : io) : ending :=
  match e with
  | InterpreterError message =>
      Exit1 ("fatal: " +:+ message +:+ String "010" EmptyString) w
  | _ => Traceback e w
  end.

(** [main], from the parsed options on.  [None] as a result is a process
    that has not ended after [fuel] turns of its loops. *)
Definition main (fuel : nat) (arg : source_argument) (w : io)
    : option ending :=
  match arg with
  | Unreadable => Some (ReadFailure w)
  | NoFile | Content _ =>
      '(r, w) ← match arg with
                | Content content => Some (inr content, w)
                | _ => read_until_char fuel "!" w
                end;
      match r with
      | inl e => Some (Traceback e w)
      | inr source =>
          match interpret fuel source MINIMUM_TARGET_SIZE w with
          | inl e => Some (handle e w)
          | inr (Running _) => None
          | inr (Halted st) => Some (Exit0 (world st))
          | inr (Raised e st) => Some (handle e (world st))
          end
      end
  end.

(** [n] calls of [io_getchar] in a row: what each returned, and the
    channel after the last. *)
Fixpoint getchars (n : nat) (w : io) : list (exn + pyval) * io :=
  match n with
  | O => ([], w)
  | S n =>
      let '(r, w) := io_getchar w in
      let '(rs, w) := getchars n w in
      (r :: rs, w)
  end.

(** The state in which an execution is, ended or not. *)
Definition outcome_state (o : outcome) : state :=
  match o with
  | Running st | Halted st | Raised _ st => st
  end.

(** The messages of the failures that the execution loop raises itself. *)
Definition RUNTIME_MESSAGES (cells : Z) : list string := [
  "pointer out of range (" +:+ format_d cells +:+ ")";
  "pointer out of range (-1)";
  "interpreter does not accept multibyte characters";
  "reached eof when scanning for input"
]%string.

(** The tape holds [n] cells, and every cell holds a byte. *)
Definition tape_ok (n : nat) (st : state) : Prop :=
  Forall (λ v, 0 ≤ v < 256)%Z (machine st) ∧ length (machine st) = n.

(** The map has an entry for every bracket of the program. *)
Definition covers_brackets (source : text) (tags : gmap nat nat) : Prop :=
  ∀ i, source !! i = Some "[" ∨ source !! i = Some "]" → is_Some (tags !! i).

(** The channel [w'] comes after the channel [w]: output was only added
    at the end, input and buffer were only taken from the front. *)
Definition io_after (w w' : io) : Prop :=
  stdout w `prefix_of` stdout w' ∧
  stdin w' `suffix_of` stdin w ∧
  iobuf w' `suffix_of` iobuf w.

End BfiCli.

(** *** [bfc.py]: [assemble_and_link] and [main] *)

Module BfcCli.
Import Bfc.

(** What the process does to the outside, in order. *)
Inductive event : Type :=
  | Print (line : string)
  | StdoutWrite (s : string)
  | StderrWrite (s : string)
  | FileWrite (path content : string)
  | Assemble (assembler code : string)
  | Link (linker path : string).

Inductive ending : Type :=
  | Return
  | Exit (status : Z)
  | Uncaught (e : exn).

(** The outside: where [shutil.which] finds the tools, what exit status and
    error text each tool run gives, and whether a path can be opened for
    writing. *)
Record environment : Type := Environment {
  which_as : option string;
  which_ld : option string;
  run_as : string → string → Z * string;
  run_ld : string → string → Z * string;
  can_write : string → bool
}.

Record options : Type := Options {
  opt_source : text;
  opt_output : option string;
  opt_target_size : Z;
  opt_assemble_only : bool
}.

Definition assemble_and_link (env : environment) (compiled_code : string)
    (output_path : string) : list event * ending :=
  match which_as env with
  | None =>
      ([StderrWrite ("fatal: could not find assembler 'as'" +:+ newline)],
       Exit 1)
  | Some assembler =>
      match which_ld env with
      | None =>
          ([StderrWrite ("fatal: could not find linker 'ld'" +:+ newline
                         +:+ "'")],
           Exit 1)
      | Some linker =>
          let '(returncode, stderr) := run_as env assembler compiled_code in
          if decide (returncode ≠ 0%Z) then
            ([Assemble assembler compiled_code;
              StderrWrite ("fatal: assembler failed" +:+ newline);
              StderrWrite stderr],
             Exit 1)
          else
            let '(returncode, stderr) := run_ld env linker output_path in
            if decide (returncode ≠ 0%Z) then
              ([Assemble assembler compiled_code; Link linker output_path;
                StderrWrite ("fatal: linker failed" +:+ newline);
                StderrWrite stderr],
               Exit 1)
            else
              ([Assemble assembler compiled_code; Link linker output_path],
               Return)
      end
  end.

Definition SIZE_MESSAGE : string :=
  "A target machine size of less than 30,000 is not supported by the BF language.".

(** [main], from the parsed options and the text read from the source
    file on; a tool that is found is taken to start and to end with an
    exit status and a text on its standard error. *)
Definition main (env : environment) (opts : options)
    : option (list event * ending) :=
  if decide (opt_target_size opts < MINIMUM_TARGET_SIZE)%Z then
    Some ([Print SIZE_MESSAGE], Exit 1)
  else
    let source_code := opt_source opts in
    let compiler := init source_code (opt_target_size opts) in
    r ← compile compiler;
    match r with
    | inl e => Some ([], Uncaught e)
    | inr assembly =>
        if opt_assemble_only opts then
          match opt_output opts with
          | None => Some ([StdoutWrite assembly], Return)
          | Some output =>
              if can_write env output then
                Some ([FileWrite output assembly], Return)
              else
                Some ([StderrWrite ("fatal: could not write assembly output"
                                    +:+ newline)],
                      Exit 1)
          end
        else
          match opt_output opts with
          | None =>
              Some ([StderrWrite
                       ("fatal: must provide output file (unless -S is used)"
                        +:+ newline)],
                    Exit 1)
          | Some output => Some (assemble_and_link env assembly output)
          end
    end.

(** The compiler object with another number of cells. *)
Definition set_num_cells (size : Z) (self : BFCompiler) : BFCompiler :=
  {| source := source self; cursor := cursor self; num_cells := size;
     consumed := consumed self; quantity := quantity self |}.

(** The group that [__produce_loop_start] and [__produce_loop_end] return
    for the bracket at position [index], with the jump [jump] to the label
    of position [target]. *)
Definition loop_group (jump : string) (index target : nat) : string :=
  unlines [
    get_label (Z.of_nat index) +:+ ":";
    "lea [region], %eax";
    "add [pointer], %eax";
    "cmpb $0, (%eax)";
    jump +:+ " " +:+ get_label (Z.of_nat target)
  ]%string.

(** The event tells the user something: a line printed, or written to
    standard error. *)
Definition is_message (ev : event) : Prop :=
  match ev with
  | Print _ | StderrWrite _ => True
  | _ => False
  end.

(** The text that [compile] returns for a source, empty when it raises. *)
Definition compiled (source_code : text) (size : Z) : string :=
  match compile (init source_code size) with
  | Some (inr out) => out
  | _ => EmptyString
  end.

(** An outside where both tools are found and succeed, and where every
    path can be written. *)
Definition working_environment : environment :=
  {| which_as := Some "/usr/bin/as"%string;
     which_ld := Some "/usr/bin/ld"%string;
     run_as := λ _ _, (0%Z, EmptyString);
     run_ld := λ _ _, (0%Z, EmptyString);
     can_write := λ _, true |}.

(** [bfc.py -o a.out] and [bfc.py -S] on the program "+". *)
Definition link_options : options :=
  {| opt_source := ["+"]; opt_output := Some "a.out"%string;
     opt_target_size := 30000; opt_assemble_only := false |}.

Definition assembly_options : options :=
  {| opt_source := ["+"]; opt_output := None;
     opt_target_size := 30000; opt_assemble_only := true |}.

End BfcCli.


Module Normalizer.

Lemma valid_tokens_same : Bfc.VALID_TOKENS = Bfi.VALID_TOKENS.
Proof. reflexivity. Qed.

Lemma clean_source_valid (s : text) :
  Forall (λ c, c ∈ Bfi.VALID_TOKENS) (Bfi.clean_source s).
Proof.
  unfold Bfi.clean_source. induction s as [|c s IH]; [constructor|].
  rewrite filter_cons. destruct (decide (c ∈ Bfi.VALID_TOKENS)); auto.
Qed.

Lemma clean_source_fixed (s : text) :
  Forall (λ c, c ∈ Bfi.VALID_TOKENS) s → Bfi.clean_source s = s.
Proof.
  unfold Bfi.clean_source. induction 1 as [|c s Hc _ IH]; [done|].
  rewrite filter_cons. destruct (decide (c ∈ Bfi.VALID_TOKENS)); congruence.
Qed.

Lemma clean_source_maximal (s t : text) :
  t `sublist_of` s → Forall (λ c, c ∈ Bfi.VALID_TOKENS) t →
  t `sublist_of` Bfi.clean_source s.
Proof.
  unfold Bfi.clean_source. induction 1 as [|c t s _ IH|c t s _ IH]; intros Ht.
  - constructor.
  - inversion Ht; subst. rewrite filter_cons.
    destruct (decide (c ∈ Bfi.VALID_TOKENS)); [|done].
    constructor. auto.
  - rewrite filter_cons.
    destruct (decide (c ∈ Bfi.VALID_TOKENS)); [constructor|]; auto.
Qed.

(** C9.  The normalizer is a total function on all source text.  There are
    eight recognized symbols; the output is a subsequence of the input, made
    of recognized symbols only, and maximal: every such subsequence of the
    input is a subsequence of the output.  It is idempotent, it returns an
    already normalized text unchanged, and the compiler's normalizer is the
    same function as the interpreter's. *)
Theorem normalizer_spec (s : text) :
  length Bfi.VALID_TOKENS = 8 ∧ NoDup Bfi.VALID_TOKENS ∧
  Bfi.clean_source s `sublist_of` s ∧
  Forall (λ c, c ∈ Bfi.VALID_TOKENS) (Bfi.clean_source s) ∧
  (∀ t : text, t `sublist_of` s → Forall (λ c, c ∈ Bfi.VALID_TOKENS) t →
     t `sublist_of` Bfi.clean_source s) ∧
  Bfi.clean_source (Bfi.clean_source s) = Bfi.clean_source s ∧
  (Forall (λ c, c ∈ Bfi.VALID_TOKENS) s → Bfi.clean_source s = s) ∧
  Bfc.normalize s = Bfi.clean_source s.
Proof.
  split; [reflexivity|]. split; [by apply (bool_decide_unpack _)|].
  split; [apply sublist_filter|].
  split; [apply clean_source_valid|].
  split; [intros t; apply clean_source_maximal|].
  split; [apply clean_source_fixed, clean_source_valid|].
  split; [apply clean_source_fixed|reflexivity].
Qed.

End Normalizer.

Module Execution.
Import Bfi.

Ltac case_store H :=
  match goal with
  | |- context [store ?value ?st] =>
      let e := fresh "e" in
      let s := fresh "s" in
      destruct (store value st) as [e|s] eqn:H
  end.

Section Loop.
Variables (source : text) (loop_tags : gmap nat nat) (cells : Z).

Local Abbreviation step := (step source loop_tags cells).
Local Abbreviation run := (λ fuel, run fuel source loop_tags cells).
Local Abbreviation jumps := (jumps source).
Local Abbreviation in_bounds := (in_bounds cells).

Lemma step_halted st st' :
  step st = Halted st' ↔ length source ≤ cursor st ∧ st' = st.
Proof.
  unfold Bfi.step. destruct (source !! cursor st) as [char|] eqn:E.
  - apply lookup_lt_Some in E.
    destruct (exec _ _ _ _) as [[e s]|s]; (split; [discriminate|lia]).
  - apply lookup_ge_None in E. split; [intros [= <-]; by split |by intros [_ ->]].
Qed.

Lemma run_raised fuel st e st' :
  step st = Raised e st' → run (S fuel) st = Raised e st'.
Proof. simpl. by intros ->. Qed.

Lemma run_halted fuel st st' :
  step st = Halted st' → run (S fuel) st = Halted st'.
Proof. simpl. by intros ->. Qed.

Lemma step_move_right st :
  source !! cursor st = Some ">" →
  step st =
    if decide (pointer st + 1 = cells)%Z then
      Raised (InterpreterError
                ("pointer out of range (" +:+ format_d cells +:+ ")"))
             (set_pointer (pointer st + 1) st)
    else Running (set_cursor (cursor st + 1) (set_pointer (pointer st + 1) st)).
Proof.
  intros E. unfold Bfi.step, exec. rewrite E. simpl.
  destruct (decide (pointer st + 1 = cells)%Z); reflexivity.
Qed.

Lemma step_move_left st :
  source !! cursor st = Some "<" →
  step st =
    if decide (pointer st - 1 < 0)%Z then
      Raised (InterpreterError "pointer out of range (-1)")
             (set_pointer (pointer st - 1) st)
    else Running (set_cursor (cursor st + 1) (set_pointer (pointer st - 1) st)).
Proof.
  intros E. unfold Bfi.step, exec. rewrite E. simpl.
  destruct (decide (pointer st - 1 < 0)%Z); reflexivity.
Qed.

(** A loop token that jumps: the cursor is set to the matched index and the
    turn still ends with [cursor += 1]. *)
Lemma step_loop_start st v :
  source !! cursor st = Some "[" →
  getitem (machine st) (pointer st) = Some v →
  step st =
    if decide (v = 0)%Z then
      match loop_tags !! cursor st with
      | Some target => Running (set_cursor (target + 1) st)
      | None => Raised KeyError st
      end
    else Running (set_cursor (cursor st + 1) st).
Proof.
  intros E Hv. unfold Bfi.step, exec. rewrite E, Hv. simpl.
  destruct (decide (v = 0)%Z); [|reflexivity].
  destruct (loop_tags !! cursor st); reflexivity.
Qed.

Lemma step_loop_end st v :
  source !! cursor st = Some "]" →
  getitem (machine st) (pointer st) = Some v →
  step st =
    if decide (v ≠ 0)%Z then
      match loop_tags !! cursor st with
      | Some target => Running (set_cursor (target + 1) st)
      | None => Raised KeyError st
      end
    else Running (set_cursor (cursor st + 1) st).
Proof.
  intros E Hv. unfold Bfi.step, exec. rewrite E, Hv. simpl.
  destruct (decide (v ≠ 0)%Z); [|reflexivity].
  destruct (loop_tags !! cursor st); reflexivity.
Qed.

Lemma store_cursor value st st' :
  store value st = inr st' → cursor st' = cursor st.
Proof.
  unfold store. destruct value as [c|n]; [discriminate|].
  destruct (decide _); [|discriminate].
  destruct (setitem _ _ _); [|discriminate]. by intros [= <-].
Qed.

Lemma step_cursor st st' :
  step st = Running st' →
  (¬ jumps st ∧ cursor st' = cursor st + 1) ∨
  (jumps st ∧ ∃ target,
     loop_tags !! cursor st = Some target ∧ cursor st' = target + 1).
Proof.
  unfold Bfi.step, Bfi.jumps.
  destruct (source !! cursor st) as [char|] eqn:E; [|discriminate].
  unfold exec.
  repeat (destruct (decide (char = _)) as [->|?]); cbn -[store getitem].
  - destruct (decide _); intros [= <-]. left. split; [|done].
    intros [[[=] _]|[[=] _]].
  - destruct (decide _); intros [= <-]. left. split; [|done].
    intros [[[=] _]|[[=] _]].
  - destruct (getitem _ _) as [v|]; [|discriminate].
    case_store Hs; intros [= <-].
    apply store_cursor in Hs. left. split; [|simpl; congruence].
    intros [[[=] _]|[[=] _]].
  - destruct (getitem _ _) as [v|]; [|discriminate].
    case_store Hs; intros [= <-].
    apply store_cursor in Hs. left. split; [|simpl; congruence].
    intros [[[=] _]|[[=] _]].
  - destruct (getitem _ _) as [v|]; [|discriminate].
    destruct (decide (v = 0)%Z) as [->|Hv].
    + destruct (loop_tags !! cursor st) as [target|]; intros [= <-].
      right. split; [by left|]. by exists target.
    + intros [= <-]. left. split; [|done].
      intros [[_ [=]]|[[=] _]]. done.
  - destruct (getitem _ _) as [v|]; [|discriminate].
    destruct (decide (v ≠ 0)%Z) as [Hv|Hv].
    + destruct (loop_tags !! cursor st) as [target|]; intros [= <-].
      right. split; [right; split; [done|by exists v]|]. by exists target.
    + intros [= <-]. left. split; [|done].
      intros [[[=] _]|[_ [v' [[= <-] ?]]]]. done.
  - destruct (getitem _ _) as [v|]; intros [= <-]. left. split; [|done].
    intros [[[=] _]|[[=] _]].
  - destruct (io_getchar _) as [[e|value] w]; [discriminate|].
    case_store Hs; intros [= <-].
    apply store_cursor in Hs. left. split; [|simpl in *; congruence].
    intros [[[=] _]|[[=] _]].
  - intros [= <-]. left. split; [|done].
    intros [[? _]|[? _]]; congruence.
Qed.

(** *** The pointer stays inside the tape *)

Lemma getitem_in_bounds st :
  in_bounds st → is_Some (getitem (machine st) (pointer st)).
Proof.
  intros [Hp Hl]. unfold getitem, py_index.
  destruct (Z.leb_spec 0 (pointer st)); [|lia].
  destruct (Z.ltb_spec (pointer st) (Z.of_nat (length (machine st)))); [|lia].
  simpl. apply lookup_lt_is_Some. lia.
Qed.

Lemma store_in_bounds st n :
  in_bounds st → (0 ≤ n < 256)%Z →
  ∃ st', store (PyInt n) st = inr st' ∧ in_bounds st' ∧
         pointer st' = pointer st.
Proof.
  intros [Hp Hl] Hn. unfold store, setitem, py_index.
  destruct (decide _); [|lia].
  destruct (Z.leb_spec 0 (pointer st)); [|lia].
  destruct (Z.ltb_spec (pointer st) (Z.of_nat (length (machine st)))); [|lia].
  simpl. eexists. split; [done|]. split; [|done].
  split; simpl; [done|]. by rewrite length_insert.
Qed.

Lemma land_255_byte v : (0 ≤ Z.land v 255 < 256)%Z.
Proof.
  change 255%Z with (Z.ones 8). rewrite Z.land_ones by lia.
  apply Z.mod_pos_bound. lia.
Qed.

Lemma store_in_bounds_any st value :
  in_bounds st →
  match store value st with
  | inr st' => in_bounds st' ∧ pointer st' = pointer st
  | inl e => e ≠ IndexError
  end.
Proof.
  intros Hb. destruct value as [c|n]; [done|].
  destruct (decide (0 ≤ n < 256)%Z) as [Hn|Hn].
  - destruct (store_in_bounds st n Hb Hn) as (st' & -> & ? & ?). done.
  - unfold store. destruct (decide _); done.
Qed.

Lemma in_bounds_set_world st w : in_bounds st → in_bounds (set_world w st).
Proof. by intros [??]. Qed.

Lemma in_bounds_set_cursor st c : in_bounds st → in_bounds (set_cursor c st).
Proof. by intros [??]. Qed.

Lemma io_getchar_error w e w' : io_getchar w = (inl e, w') → e ≠ IndexError.
Proof.
  unfold io_getchar. destruct (iobuf w); [|discriminate]. simpl.
  destruct (decide _); [by intros [= <- _]|].
  destruct (encode _); [by intros [= <- _]|discriminate].
Qed.

Lemma exec_in_bounds char st :
  in_bounds st →
  match exec loop_tags cells char st with
  | inr st' => in_bounds st'
  | inl (e, st') =>
      e ≠ IndexError ∧ (in_bounds st' ∨ refused_move char st e st')
  end.
Proof.
  intros Hb. pose proof (getitem_in_bounds st Hb) as [v Hv].
  unfold exec.
  repeat (destruct (decide (char = _)) as [->|?]); rewrite ?Hv;
    cbn -[store getitem].
  - destruct (decide _).
    + split; [done|]. right. split; [by left|]. split; [by eexists|done].
    + destruct Hb as [??]. split; simpl in *; [lia|done].
  - destruct (decide _).
    + split; [done|]. right. split; [by right|]. split; [by eexists|done].
    + destruct Hb as [??]. split; simpl in *; [lia|done].
  - destruct (store_in_bounds st _ Hb (land_255_byte (v + 1)))
      as (st' & -> & ? & ?). done.
  - destruct (store_in_bounds st _ Hb (land_255_byte (v - 1)))
      as (st' & -> & ? & ?). done.
  - destruct (decide _); [|done].
    destruct (loop_tags !! cursor st); [by apply in_bounds_set_cursor|].
    split; [done|by left].
  - destruct (decide _); [|done].
    destruct (loop_tags !! cursor st); [by apply in_bounds_set_cursor|].
    split; [done|by left].
  - by apply in_bounds_set_world.
  - destruct (io_getchar (world st)) as [[e|value] w] eqn:Hio.
    + split; [by eapply io_getchar_error|]. left.
      by apply in_bounds_set_world.
    + pose proof (store_in_bounds_any (set_world w st) value
                    (in_bounds_set_world st w Hb)) as Hs.
      destruct (store value (set_world w st)); [|tauto].
      split; [done|]. left. by apply in_bounds_set_world.
  - done.
Qed.

Lemma step_in_bounds st :
  in_bounds st →
  match step st with
  | Running st' => in_bounds st'
  | Halted st' => st' = st
  | Raised e st' =>
      e ≠ IndexError ∧
      (in_bounds st' ∨
       ∃ char, source !! cursor st = Some char ∧ refused_move char st e st')
  end.
Proof.
  intros Hb. unfold Bfi.step.
  destruct (source !! cursor st) as [char|]; [|done].
  pose proof (exec_in_bounds char st Hb) as He.
  destruct (exec loop_tags cells char st) as [[e st']|st'].
  - destruct He as [? [?|?]]; eauto.
  - by apply in_bounds_set_cursor.
Qed.

Lemma run_in_bounds fuel st st' :
  in_bounds st →
  run fuel st = Running st' ∨ run fuel st = Halted st' → in_bounds st'.
Proof.
  revert st. induction fuel as [|fuel IH]; intros st Hb; simpl.
  - intros [[= <-]|[=]]. done.
  - pose proof (step_in_bounds st Hb) as Hs.
    destruct (step st) as [s|s|e s]; [by apply IH| |].
    + intros [[=]|[= <-]]. by subst.
    + intros [[=]|[=]].
Qed.

Lemma getitem_initial w :
  (0 < cells)%Z →
  getitem (machine (initial cells w)) (pointer (initial cells w)) = Some 0%Z.
Proof.
  intros Hc. unfold getitem, py_index, initial. cbn [machine pointer].
  rewrite length_replicate.
  destruct (Z.leb_spec 0 0); [|lia].
  destruct (Z.ltb_spec 0 (Z.of_nat (Z.to_nat cells))); [|lia].
  simpl. apply lookup_replicate_2. lia.
Qed.

Lemma initial_in_bounds w : (0 < cells)%Z → in_bounds (initial cells w).
Proof.
  intros Hc. split; simpl; [lia|]. by rewrite length_replicate.
Qed.

End Loop.

(** C5.  In the interpreter, for every state: a move-right increments the
    pointer and raises "pointer out of range (cells)" exactly when the new
    pointer equals the number of cells; a move-left decrements it and raises
    "pointer out of range (-1)" exactly when the new pointer is below 0.
    The raise leaves the tape and the cursor as they were, and it ends the
    execution: no later turn of the loop runs. *)
Theorem move_tokens_check_bounds (source : text) (loop_tags : gmap nat nat)
    (cells : Z) (st : state) :
  (source !! cursor st = Some ">" →
   let moved := set_pointer (pointer st + 1) st in
   (pointer moved = cells →
    step source loop_tags cells st =
      Raised (InterpreterError
                ("pointer out of range (" +:+ format_d cells +:+ ")")) moved) ∧
   (pointer moved ≠ cells →
    step source loop_tags cells st =
      Running (set_cursor (cursor st + 1) moved)) ∧
   machine moved = machine st ∧ cursor moved = cursor st) ∧
  (source !! cursor st = Some "<" →
   let moved := set_pointer (pointer st - 1) st in
   ((pointer moved < 0)%Z →
    step source loop_tags cells st =
      Raised (InterpreterError "pointer out of range (-1)") moved) ∧
   (¬ (pointer moved < 0)%Z →
    step source loop_tags cells st =
      Running (set_cursor (cursor st + 1) moved)) ∧
   machine moved = machine st ∧ cursor moved = cursor st) ∧
  (∀ e st' fuel,
     step source loop_tags cells st = Raised e st' →
     run (S fuel) source loop_tags cells st = Raised e st').
Proof.
  split; [|split].
  - intros E moved. rewrite (step_move_right _ _ _ _ E). subst moved. simpl.
    destruct (decide _); repeat split; intros; congruence.
  - intros E moved. rewrite (step_move_left _ _ _ _ E). subst moved. simpl.
    destruct (decide _); repeat split; intros; done.
  - intros e st' fuel. apply run_raised.
Qed.

Lemma move_tokens_check_bounds_witness :
  step ["<"] ∅ 30000 (initial 30000 no_io) =
    Raised (InterpreterError "pointer out of range (-1)")
           (set_pointer (-1) (initial 30000 no_io)) ∧
  step [">"] ∅ 1 (initial 1 no_io) =
    Raised (InterpreterError "pointer out of range (1)")
           (set_pointer 1 (initial 1 no_io)) ∧
  run 5 [">"] ∅ 1 (initial 1 no_io) =
    Raised (InterpreterError "pointer out of range (1)")
           (set_pointer 1 (initial 1 no_io)).
Proof.
  split; [|split].
  - apply (move_tokens_check_bounds ["<"] ∅ 30000 (initial 30000 no_io)).
    + reflexivity.
    + simpl. lia.
  - apply (move_tokens_check_bounds [">"] ∅ 1 (initial 1 no_io)).
    + reflexivity.
    + reflexivity.
  - apply (move_tokens_check_bounds [">"] ∅ 1 (initial 1 no_io)).
    reflexivity.
Defined.

(** C8, as stated, fails on the program "[]" in its initial state: the
    bracket map sends 0 to 1, and the turn leaves the cursor at 2. *)
Lemma jump_lands_on_match_fails :
  construct_tags ["["; "]"] = inr {[0 := 1; 1 := 0]} ∧
  ¬ jump_lands_on_match ["["; "]"] {[0 := 1; 1 := 0]} 30000
      (initial 30000 no_io).
Proof.
  split; [vm_compute; reflexivity|].
  intros H.
  assert (cursor (set_cursor 2 (initial 30000 no_io)) = 1) as E.
  { apply H.
    - reflexivity.
    - by apply getitem_initial.
    - reflexivity.
    - erewrite step_loop_start;
        [|reflexivity|by apply (getitem_initial 30000)].
      reflexivity. }
  discriminate E.
Qed.

(** C8, amended.  In the execution loop, for every state: on a loop-start
    whose cell is 0, and on a loop-end whose cell is not 0, the cursor is set
    to the matched index and then advanced by 1 like on every turn, so the
    turn ends one past the matched bracket; on every other turn that
    continues, the cursor advances by exactly 1; the loop ends normally
    exactly when the cursor is no longer below the length of the program. *)
Theorem loop_turns (source : text) (loop_tags : gmap nat nat) (cells : Z)
    (st : state) :
  (∀ target,
     source !! cursor st = Some "[" →
     getitem (machine st) (pointer st) = Some 0%Z →
     loop_tags !! cursor st = Some target →
     step source loop_tags cells st = Running (set_cursor (target + 1) st)) ∧
  (∀ v target,
     source !! cursor st = Some "]" →
     getitem (machine st) (pointer st) = Some v → v ≠ 0%Z →
     loop_tags !! cursor st = Some target →
     step source loop_tags cells st = Running (set_cursor (target + 1) st)) ∧
  (∀ st',
     step source loop_tags cells st = Running st' →
     (¬ jumps source st ∧ cursor st' = cursor st + 1) ∨
     (jumps source st ∧ ∃ target,
        loop_tags !! cursor st = Some target ∧ cursor st' = target + 1)) ∧
  (∀ st',
     step source loop_tags cells st = Halted st' ↔
     length source ≤ cursor st ∧ st' = st) ∧
  (∀ st' fuel,
     step source loop_tags cells st = Halted st' →
     run (S fuel) source loop_tags cells st = Halted st').
Proof.
  split; [|split; [|split; [|split]]].
  - intros target E Hv Ht.
    rewrite (step_loop_start _ _ _ _ _ E Hv), Ht. by destruct (decide _).
  - intros v target E Hv Hnz Ht.
    rewrite (step_loop_end _ _ _ _ _ E Hv), Ht. by destruct (decide _).
  - apply step_cursor.
  - intros st'. apply step_halted.
  - intros st' fuel. apply run_halted.
Qed.

Lemma loop_turns_witness :
  step ["["; "]"] {[0 := 1; 1 := 0]} 3 (initial 3 no_io) =
    Running (set_cursor 2 (initial 3 no_io)).
Proof.
  apply (proj1 (loop_turns ["["; "]"] {[0 := 1; 1 := 0]} 3
                  (initial 3 no_io)) 1).
  - reflexivity.
  - reflexivity.
  - reflexivity.
Defined.

(** C10.  With at least one cell, every state of an execution that has
    not failed has [0 <= pointer < cells] on a tape of [cells] cells, so the
    cell at the pointer exists whenever a token reads or writes it and no
    turn raises [IndexError]; a turn that fails either leaves the pointer in
    range or is a move refused by its own test, raised with the tape and the
    cursor untouched. *)
Theorem pointer_stays_in_bounds (source : text) (loop_tags : gmap nat nat)
    (cells : Z) (w : io) (fuel : nat) (st : state) :
  (0 < cells)%Z →
  run fuel source loop_tags cells (initial cells w) = Running st ∨
  run fuel source loop_tags cells (initial cells w) = Halted st →
  in_bounds cells st ∧
  is_Some (machine st !! Z.to_nat (pointer st)) ∧
  getitem (machine st) (pointer st) = machine st !! Z.to_nat (pointer st) ∧
  (∀ e st',
     step source loop_tags cells st = Raised e st' →
     e ≠ IndexError ∧
     (in_bounds cells st' ∨
      ∃ char, source !! cursor st = Some char ∧ refused_move char st e st')) ∧
  (∀ st',
     step source loop_tags cells st = Running st' → in_bounds cells st').
Proof.
  intros Hc Hrun.
  assert (in_bounds cells st) as Hb.
  { eapply run_in_bounds; [|exact Hrun]. by apply initial_in_bounds. }
  split; [done|].
  assert (getitem (machine st) (pointer st)
          = machine st !! Z.to_nat (pointer st)) as Hg.
  { destruct Hb as [Hp Hl]. unfold getitem, py_index.
    destruct (Z.leb_spec 0 (pointer st)); [|lia].
    destruct (Z.ltb_spec (pointer st) (Z.of_nat (length (machine st))));
      [done|lia]. }
  split; [rewrite <- Hg; by eapply getitem_in_bounds|].
  split; [done|].
  pose proof (step_in_bounds source loop_tags cells st Hb) as Hs.
  split.
  - intros e st' E. by rewrite E in Hs.
  - intros st' E. by rewrite E in Hs.
Qed.

Lemma pointer_stays_in_bounds_witness :
  in_bounds 3
    {| machine := [1; 0; 0]%Z; pointer := 1; cursor := 2; world := no_io |}.
Proof.
  apply (pointer_stays_in_bounds ["+"; ">"] ∅ 3 no_io 2).
  - lia.
  - left. reflexivity.
Defined.

End Execution.

Module Tokens.
Import Bfi.

Local Arguments Bfc.net : simpl never.

Lemma net_cons_eq up char run :
  Bfc.net up (char :: run) = (Bfc.unit_effect up char + Bfc.net up run)%Z.
Proof. reflexivity. Qed.

Section Tokens.
Variables (source : text) (loop_tags : gmap nat nat) (cells : Z).

Lemma py_index_in_bounds st :
  in_bounds cells st →
  py_index (machine st) (pointer st) = Some (Z.to_nat (pointer st)).
Proof.
  intros [Hp Hl]. unfold py_index.
  destruct (Z.leb_spec 0 (pointer st)); [|lia].
  destruct (Z.ltb_spec (pointer st) (Z.of_nat (length (machine st))));
    [done|lia].
Qed.

Lemma land_255 v : Z.land v 255 = (v mod 256)%Z.
Proof. change 255%Z with (Z.ones 8). by rewrite Z.land_ones by lia. Qed.

Lemma step_mutation st char v :
  source !! cursor st = Some char → char ∈ ["+"; "-"] →
  in_bounds cells st →
  machine st !! Z.to_nat (pointer st) = Some v →
  step source loop_tags cells st =
    Running (set_cursor (cursor st + 1)
      (set_machine
         (<[Z.to_nat (pointer st) :=
              ((v + Bfc.unit_effect "+" char) mod 256)%Z]> (machine st)) st)).
Proof.
  intros E Hc Hb Hv. unfold step, exec, getitem, store, setitem. rewrite E.
  rewrite (py_index_in_bounds _ Hb). simpl. rewrite Hv.
  pose proof (Z.mod_pos_bound (v + 1) 256 eq_refl).
  pose proof (Z.mod_pos_bound (v - 1) 256 eq_refl).
  apply elem_of_cons in Hc as [->|Hc]; simpl.
  - rewrite land_255. destruct (decide _); [|lia]. reflexivity.
  - apply list_elem_of_singleton in Hc as ->. simpl.
    rewrite land_255. destruct (decide _); [|lia]. reflexivity.
Qed.

End Tokens.

(** The interpreter on a text made of moves only: when it reaches the end,
    the pointer has moved by the net displacement and the tape is as it
    was. *)
Lemma run_moves (tokens : text) (loop_tags : gmap nat nat) (cells : Z) :
  Forall (λ c, c ∈ ["<"; ">"]) tokens →
  ∀ n st st',
    cursor st + n = length tokens →
    run (S n) tokens loop_tags cells st = Halted st' →
    pointer st' = (pointer st + Bfc.net ">" (drop (cursor st) tokens))%Z ∧
    machine st' = machine st.
Proof.
  intros Hall. induction n as [|n IH]; intros st st' Hlen Hrun.
  - simpl in Hrun.
    destruct (step tokens loop_tags cells st) eqn:Hs; try discriminate.
    injection Hrun as <-. apply Execution.step_halted in Hs as [_ ->].
    rewrite drop_ge by lia. unfold Bfc.net. simpl. split; [lia|done].
  - destruct (lookup_lt_is_Some_2 tokens (cursor st)) as [char E]; [lia|].
    pose proof (proj1 (Forall_lookup _ _) Hall _ _ E) as Hc.
    rewrite (drop_S _ _ _ E).
    change (run (S (S n)) tokens loop_tags cells st)
      with (match step tokens loop_tags cells st with
            | Running s => run (S n) tokens loop_tags cells s
            | o => o
            end) in Hrun.
    apply elem_of_cons in Hc as [->|Hc].
    + rewrite (Execution.step_move_left _ _ _ _ E) in Hrun.
      destruct (decide _); [discriminate|].
      apply IH in Hrun as [-> ->]; [|simpl; lia]. simpl.
      replace (cursor st + 1) with (S (cursor st)) by lia.
      unfold Bfc.net, Bfc.unit_effect. simpl. split; [lia|done].
    + apply list_elem_of_singleton in Hc as ->.
      rewrite (Execution.step_move_right _ _ _ _ E) in Hrun.
      destruct (decide _); [discriminate|].
      apply IH in Hrun as [-> ->]; [|simpl; lia]. simpl.
      replace (cursor st + 1) with (S (cursor st)) by lia.
      unfold Bfc.net, Bfc.unit_effect. simpl. split; [lia|done].
Qed.

(** The interpreter on a text made of mutations only, from a state whose
    pointer is in range: it reaches the end, and the cell at the pointer has
    received the net delta modulo 256. *)
Lemma run_mutations (tokens : text) (loop_tags : gmap nat nat) (cells : Z) :
  Forall (λ c, c ∈ ["+"; "-"]) tokens →
  ∀ n st v,
    cursor st + n = length tokens →
    in_bounds cells st →
    machine st !! Z.to_nat (pointer st) = Some v → (0 ≤ v < 256)%Z →
    run (S n) tokens loop_tags cells st =
      Halted (set_cursor (length tokens)
        (set_machine
           (<[Z.to_nat (pointer st) :=
                ((v + Bfc.net "+" (drop (cursor st) tokens)) mod 256)%Z]>
              (machine st)) st)).
Proof.
  intros Hall. induction n as [|n IH]; intros st v Hlen Hb Hv Hbyte.
  - simpl.
    destruct (step tokens loop_tags cells st) eqn:Hs.
    + pose proof (proj2 (Execution.step_halted tokens loop_tags cells st st))
        as H. rewrite Hs in H. discriminate H. split; [lia|done].
    + apply Execution.step_halted in Hs as [_ ->].
      rewrite drop_ge by lia. unfold Bfc.net. simpl.
      rewrite Z.add_0_r, Z.mod_small by done.
      rewrite list_insert_id by done.
      destruct st; simpl in *. f_equal. unfold set_cursor, set_machine.
      simpl. f_equal. lia.
    + pose proof (proj2 (Execution.step_halted tokens loop_tags cells st st))
        as H. rewrite Hs in H. discriminate H. split; [lia|done].
  - destruct (lookup_lt_is_Some_2 tokens (cursor st)) as [char E]; [lia|].
    pose proof (proj1 (Forall_lookup _ _) Hall _ _ E) as Hc.
    rewrite (drop_S _ _ _ E).
    change (run (S (S n)) tokens loop_tags cells st)
      with (match step tokens loop_tags cells st with
            | Running s => run (S n) tokens loop_tags cells s
            | o => o
            end).
    rewrite (step_mutation _ _ _ _ _ _ E Hc Hb Hv).
    pose proof (Z.mod_pos_bound (v + Bfc.unit_effect "+" char) 256 eq_refl).
    assert (Z.to_nat (pointer st) < length (machine st)) as Hlt
      by by eapply lookup_lt_Some.
    rewrite (IH _ ((v + Bfc.unit_effect "+" char) mod 256)%Z);
      [|simpl; lia| |simpl; by rewrite list_lookup_insert_eq|done].
    + simpl. replace (cursor st + 1) with (S (cursor st)) by lia.
      rewrite list_insert_insert_eq. unfold set_cursor, set_machine. simpl.
      do 3 f_equal. rewrite net_cons_eq.
      rewrite Zplus_mod_idemp_l. f_equal. lia.
    + destruct Hb as [??]. split; simpl; [done|]. by rewrite length_insert.
Qed.

End Tokens.

Module Folding.
Import Bfc.

Local Arguments net : simpl never.

(** *** Runs *)

Lemma leading_run_split class rest :
  ∃ rest', rest = leading_run class rest ++ rest' ∧
    Forall (λ c, c ∈ class) (leading_run class rest) ∧
    (∀ c, head rest' = Some c → c ∉ class).
Proof.
  induction rest as [|char rest IH]; simpl.
  - exists []. split; [done|]. split; [constructor|]. intros c [=].
  - destruct (decide (char ∈ class)) as [Hc|Hc].
    + destruct IH as (rest' & E & Hall & Hhead). exists rest'.
      split; [simpl; congruence|]. split; [by constructor|done].
    + exists (char :: rest). split; [done|]. split; [constructor|].
      by intros c [= <-].
Qed.

Lemma net_cons up char run :
  net up (char :: run) = (unit_effect up char + net up run)%Z.
Proof. reflexivity. Qed.

(** *** The two loops *)

Lemma shift_loop_spec rest self :
  let run := leading_run ["<"; ">"] rest in
  shift_loop rest self =
    {| source := source self; cursor := cursor self + length run;
       num_cells := num_cells self;
       consumed := consumed self + Z.of_nat (length run);
       quantity := quantity self + net ">" run |}.
Proof.
  revert self. induction rest as [|char rest IH]; intros self; simpl.
  - destruct self; unfold net; simpl. f_equal; lia.
  - destruct (decide (char ∈ ["<"; ">"])) as [Hc|Hc]; simpl.
    + rewrite IH. unfold consume; simpl. rewrite net_cons.
      unfold unit_effect. f_equal; lia.
    + destruct self; unfold net; simpl. f_equal; lia.
Qed.

Lemma mutate_loop_spec rest self :
  let run := leading_run ["+"; "-"] rest in
  mutate_loop rest self =
    {| source := source self; cursor := cursor self + length run;
       num_cells := num_cells self;
       consumed := consumed self + Z.of_nat (length run);
       quantity := quantity self + net "+" run |}.
Proof.
  revert self. induction rest as [|char rest IH]; intros self; simpl.
  - destruct self; unfold net; simpl. f_equal; lia.
  - destruct (decide (char ∈ ["+"; "-"])) as [Hc|Hc]; simpl.
    + rewrite IH. unfold consume; simpl. rewrite net_cons.
      unfold unit_effect. destruct (decide _); f_equal; lia.
    + destruct self; unfold net; simpl. f_equal; lia.
Qed.

Lemma leading_run_head class char rest :
  char ∈ class → 0 < length (leading_run class (char :: rest)).
Proof. intros Hc. simpl. destruct (decide _); [simpl; lia|done]. Qed.

Lemma leading_run_head_not class char rest :
  char ∉ class → leading_run class (char :: rest) = [].
Proof. intros Hc. simpl. by destruct (decide _). Qed.

Lemma drop_lookup_cons (source : text) i char :
  source !! i = Some char → drop i source = char :: drop (S i) source.
Proof. intros E. by apply drop_S. Qed.

Lemma classes_disjoint char : char ∈ ["+"; "-"] → char ∉ ["<"; ">"].
Proof.
  rewrite !elem_of_cons, !elem_of_nil.
  intros [->|[->|[]]] [?|[?|[]]]; discriminate.
Qed.

(** *** What [__produce_instruction] does on a run *)

Lemma produce_instruction_shift self char :
  source self !! cursor self = Some char → char ∈ ["<"; ">"] →
  produce_instruction self =
    inr (Some (shift_text (net ">" (shift_run self)),
               after_run (length (shift_run self)) (net ">" (shift_run self))
                 self)).
Proof.
  intros E Hc. unfold produce_instruction.
  pose proof (lookup_lt_Some _ _ _ E) as Hlt.
  destruct (decide (cursor self = length (source self))); [lia|].
  unfold produce_shift_instruction. cbn [source cursor reset].
  rewrite E, shift_loop_spec. cbn [source cursor reset consumed quantity].
  fold (shift_run self).
  assert (0 < length (shift_run self)) as Hpos.
  { unfold shift_run. rewrite (drop_lookup_cons _ _ _ E).
    by apply leading_run_head. }
  rewrite !Z.add_0_l.
  destruct (decide (Z.of_nat (length (shift_run self)) > 0)%Z); [|lia].
  unfold shift_text, after_run.
  destruct (decide (net ">" (shift_run self) > 0)%Z); [done|].
  destruct (decide (net ">" (shift_run self) < 0)%Z); done.
Qed.

Lemma shift_run_nil self char :
  source self !! cursor self = Some char → char ∉ ["<"; ">"] →
  shift_run self = [].
Proof.
  intros E Hc. unfold shift_run. rewrite (drop_lookup_cons _ _ _ E).
  by apply leading_run_head_not.
Qed.

Lemma mutate_run_nil self char :
  source self !! cursor self = Some char → char ∉ ["+"; "-"] →
  mutate_run self = [].
Proof.
  intros E Hc. unfold mutate_run. rewrite (drop_lookup_cons _ _ _ E).
  by apply leading_run_head_not.
Qed.

Lemma produce_shift_none self char :
  source self !! cursor self = Some char → char ∉ ["<"; ">"] →
  produce_shift_instruction (reset self) = inr (None, reset self).
Proof.
  intros E Hc. unfold produce_shift_instruction.
  cbn [source cursor reset]. rewrite E, shift_loop_spec.
  cbn [source cursor reset consumed quantity num_cells].
  fold (shift_run self). rewrite (shift_run_nil _ _ E Hc).
  unfold net. simpl. unfold reset. rewrite Nat.add_0_r. reflexivity.
Qed.

Lemma produce_mutate_none self char :
  source self !! cursor self = Some char → char ∉ ["+"; "-"] →
  produce_mutate_instruction (reset self) = inr (None, reset self).
Proof.
  intros E Hc. unfold produce_mutate_instruction.
  cbn [source cursor reset]. rewrite E, mutate_loop_spec.
  cbn [source cursor reset consumed quantity num_cells].
  fold (mutate_run self). rewrite (mutate_run_nil _ _ E Hc).
  unfold net. simpl. unfold reset. rewrite Nat.add_0_r. reflexivity.
Qed.

Lemma produce_instruction_mutate self char :
  source self !! cursor self = Some char → char ∈ ["+"; "-"] →
  produce_instruction self =
    inr (Some (mutate_text (net "+" (mutate_run self)),
               after_run (length (mutate_run self))
                 (net "+" (mutate_run self)) self)).
Proof.
  intros E Hc. unfold produce_instruction.
  pose proof (lookup_lt_Some _ _ _ E) as Hlt.
  destruct (decide (cursor self = length (source self))); [lia|].
  pose proof (classes_disjoint _ Hc) as Hn.
  rewrite (produce_shift_none _ _ E Hn). cbn [mbind exn_bind].
  unfold produce_mutate_instruction. cbn [source cursor reset].
  rewrite E, mutate_loop_spec. cbn [source cursor reset consumed quantity].
  fold (mutate_run self).
  assert (0 < length (mutate_run self)) as Hpos.
  { unfold mutate_run. rewrite (drop_lookup_cons _ _ _ E).
    by apply leading_run_head. }
  rewrite !Z.add_0_l.
  destruct (decide (Z.of_nat (length (mutate_run self)) > 0)%Z); [|lia].
  unfold mutate_text, after_run.
  destruct (decide (net "+" (mutate_run self) > 0)%Z); [done|].
  destruct (decide (net "+" (mutate_run self) < 0)%Z); done.
Qed.

(** On any other character: one structural token, one position. *)
Lemma produce_instruction_other self char :
  source self !! cursor self = Some char →
  char ∉ ["<"; ">"] → char ∉ ["+"; "-"] →
  produce_instruction self =
    instruction ←
      (if decide (char = "[") then produce_loop_start (reset self)
       else if decide (char = "]") then produce_loop_end (reset self)
       else if decide (char = ".") then inr ("call dotproc" +:+ newline)
       else if decide (char = ",") then inr ("call commaproc" +:+ newline)
       else inr EmptyString);
    inr (Some (instruction, set_cursor (cursor self + 1) (reset self))).
Proof.
  intros E Hs Hm. unfold produce_instruction.
  pose proof (lookup_lt_Some _ _ _ E) as Hlt.
  destruct (decide (cursor self = length (source self))); [lia|].
  rewrite (produce_shift_none _ _ E Hs). cbn [mbind exn_bind].
  rewrite (produce_mutate_none _ _ E Hm). cbn [mbind exn_bind].
  cbn [source cursor reset]. by rewrite E.
Qed.

End Folding.

Module Emission.
Import Bfc.

(** *** Text *)

Lemma append_assoc (a b c : string) : (a +:+ b) +:+ c = a +:+ (b +:+ c).
Proof.
  induction a as [|x a IH]; [reflexivity|].
  change (String x ((a +:+ b) +:+ c) = String x (a +:+ b +:+ c)).
  by rewrite IH.
Qed.

Lemma append_nil_r (a : string) : a +:+ EmptyString = a.
Proof.
  induction a as [|x a IH]; [reflexivity|].
  change (String x (a +:+ EmptyString) = String x a). by rewrite IH.
Qed.

Lemma unlines_app (l1 l2 : list string) :
  unlines (l1 ++ l2) = unlines l1 +:+ unlines l2.
Proof.
  induction l1 as [|l l1 IH]; [reflexivity|].
  change (l +:+ newline +:+ unlines (l1 ++ l2)
          = (l +:+ newline +:+ unlines l1) +:+ unlines l2).
  by rewrite IH, !append_assoc.
Qed.

(** *** Lines *)

Lemma has_newline_app (a b : string) :
  has_newline (a +:+ b) = has_newline a || has_newline b.
Proof.
  induction a as [|c a IH]; [reflexivity|].
  change (bool_decide (c = "010"%char) || has_newline (a +:+ b) =
          bool_decide (c = "010"%char) || has_newline a || has_newline b).
  by rewrite IH, orb_assoc.
Qed.

Lemma pretty_N_char_one_line (x : N) :
  bool_decide (pretty_N_char x = "010"%char) = false.
Proof.
  unfold pretty_N_char.
  by repeat (match goal with |- context [match ?y with _ => _ end] =>
               destruct y end).
Qed.

Lemma pretty_N_go_one_line (x : N) :
  ∀ s, has_newline s = false → has_newline (pretty_N_go x s) = false.
Proof.
  induction (N.lt_wf_0 x) as [x _ IH]. intros s Hs.
  destruct (decide (x = 0)%N) as [->|Hx]; [by rewrite pretty_N_go_0|].
  rewrite pretty_N_go_step by lia.
  apply IH; [apply N.div_lt; lia|].
  simpl. by rewrite pretty_N_char_one_line.
Qed.

Lemma pretty_N_one_line (x : N) : has_newline (pretty x) = false.
Proof.
  unfold pretty, pretty_N. destruct (decide _); [reflexivity|].
  by apply pretty_N_go_one_line.
Qed.

(** [%d] never prints a newline. *)
Lemma format_d_one_line (n : Z) : has_newline (format_d n) = false.
Proof.
  unfold format_d, pretty, pretty_Z. destruct n as [|p|p].
  - reflexivity.
  - apply pretty_N_one_line.
  - rewrite has_newline_app. apply pretty_N_one_line.
Qed.

Lemma get_label_one_line (index : Z) : has_newline (get_label index) = false.
Proof.
  unfold get_label. rewrite has_newline_app. apply format_d_one_line.
Qed.

Ltac one_line :=
  rewrite ?has_newline_app, ?format_d_one_line, ?get_label_one_line;
  reflexivity.

Ltac allowed_lines :=
  unfold allowed_line, COMPARE_LINES;
  repeat (apply Forall_cons; split;
          [split;
           [one_line
           |first [ by (let H := fresh in
                        intros H; cbv -[format_d Z.min] in H)
                  | intros _; rewrite !elem_of_cons; tauto ]]|]);
  try apply Forall_nil_2.

Lemma header_lines_allowed size :
  Forall (allowed_line size)
    (HEADER_LINES (format_d size) (format_d (Z.min size 1024))).
Proof. unfold HEADER_LINES. allowed_lines. Qed.

(** *** The groups, line by line *)

Lemma shift_text_lines size q :
  ∃ ls, shift_text q = unlines ls ∧ Forall (allowed_line size) ls.
Proof.
  unfold shift_text. repeat case_decide.
  - eexists. split; [reflexivity|]. allowed_lines.
  - eexists. split; [reflexivity|]. allowed_lines.
  - exists []. split; [reflexivity|]. constructor.
Qed.

Lemma mutate_text_lines size q :
  ∃ ls, mutate_text q = unlines ls ∧ Forall (allowed_line size) ls.
Proof.
  unfold mutate_text. repeat case_decide.
  - eexists. split; [reflexivity|]. allowed_lines.
  - eexists. split; [reflexivity|]. allowed_lines.
  - exists []. split; [reflexivity|]. constructor.
Qed.

Lemma loop_start_lines size self target :
  ∃ ls,
    unlines [get_label (Z.of_nat (cursor self)) +:+ ":";
             "lea [region], %eax"; "add [pointer], %eax";
             "cmpb $0, (%eax)"; "je " +:+ get_label target]%string
      = unlines ls ∧
    Forall (allowed_line size) ls.
Proof. eexists. split; [reflexivity|]. allowed_lines. Qed.

Lemma loop_end_lines size self target :
  ∃ ls,
    unlines [get_label (Z.of_nat (cursor self)) +:+ ":";
             "lea [region], %eax"; "add [pointer], %eax";
             "cmpb $0, (%eax)"; "jne " +:+ get_label target]%string
      = unlines ls ∧
    Forall (allowed_line size) ls.
Proof. eexists. split; [reflexivity|]. allowed_lines. Qed.

(** *** One call of [__produce_instruction] *)

Lemma leading_run_lookup class (source : text) c k :
  c ≤ k < c + length (leading_run class (drop c source)) →
  ∃ char, source !! k = Some char ∧ char ∈ class.
Proof.
  intros Hk.
  destruct (Folding.leading_run_split class (drop c source))
    as (rest' & E & Hall & _).
  destruct (lookup_lt_is_Some_2 (leading_run class (drop c source)) (k - c))
    as [char Hchar]; [lia|].
  exists char. split; [|by eapply (proj1 (Forall_lookup _ _) Hall)].
  replace k with (c + (k - c)) by lia.
  rewrite <- lookup_drop, E. by apply lookup_app_l_Some.
Qed.

Lemma leading_run_length class (source : text) c :
  c ≤ length source →
  c + length (leading_run class (drop c source)) ≤ length source.
Proof.
  intros Hc.
  destruct (Folding.leading_run_split class (drop c source))
    as (rest' & E & _ & _).
  apply (f_equal length) in E. rewrite length_drop, length_app in E. lia.
Qed.

Lemma scan_ok_other (source : text) k char :
  source !! k = Some char → char ≠ "[" → char ≠ "]" → scan_ok source k.
Proof. intros E ??. split; intros E'; congruence. Qed.

Lemma scan_ok_class (class : text) (source : text) k char :
  source !! k = Some char → char ∈ class →
  "[" ∉ class → "]" ∉ class → scan_ok source k.
Proof. intros E ???. eapply scan_ok_other; [done|congruence..]. Qed.

Lemma lookbehind_loop_total fuel (source : text) local_cursor nest_level :
  (local_cursor < Z.of_nat (length source))%Z →
  ∃ r, lookbehind_loop fuel source local_cursor nest_level = inr r.
Proof.
  revert local_cursor nest_level.
  induction fuel as [|fuel IH]; intros local_cursor nest_level Hlt; simpl.
  - case_decide; eauto.
  - case_decide as Hcond; [|eauto].
    unfold getitem, py_index.
    destruct (Z.leb_spec 0 local_cursor); [|lia].
    destruct (Z.ltb_spec local_cursor (Z.of_nat (length source))); [|lia].
    simpl.
    destruct (lookup_lt_is_Some_2 source (Z.to_nat local_cursor))
      as [char ->]; [lia|].
    apply IH. lia.
Qed.

(** The fuel is enough: with at least [local_cursor] turns allowed, the
    loop is left by its own test. *)
Lemma lookbehind_loop_exits fuel (source : text) local_cursor nest_level r :
  (local_cursor ≤ Z.of_nat fuel)%Z →
  lookbehind_loop fuel source local_cursor nest_level = inr r →
  ¬ (r.2 >= 0 ∧ r.1 > 0)%Z.
Proof.
  revert local_cursor nest_level.
  induction fuel as [|fuel IH]; intros local_cursor nest_level Hfuel; simpl.
  - case_decide as Hcond; intros [= <-]; simpl; lia.
  - case_decide as Hcond; [|by intros [= <-]].
    destruct (getitem source local_cursor); [|done].
    apply IH. lia.
Qed.

Lemma lookbehind_index_error self e :
  cursor self ≤ length (source self) →
  lookbehind_index self = inl e → e = missing.
Proof.
  intros Hc. unfold lookbehind_index.
  destruct (lookbehind_loop_total (length (source self)) (source self)
              (Z.of_nat (cursor self) - 1) 0) as [[lc nest] ->]; [lia|].
  case_decide; [discriminate|]. by intros [= <-].
Qed.

Lemma lookahead_index_error self e :
  lookahead_index self = inl e → e = missing.
Proof.
  unfold lookahead_index. destruct (lookahead_loop _ _ _) as [lc nest].
  case_decide; [discriminate|]. by intros [= <-].
Qed.

(** Every call below the end either raises [missing] on a bracket whose
    scan fails, or returns a group of allowed lines and moves the cursor
    forward over positions whose scans succeed. *)
Lemma produce_instruction_cases size self :
  cursor self < length (source self) →
  (produce_instruction self = inl missing ∧
   ¬ scan_ok (source self) (cursor self)) ∨
  (∃ ls self',
     produce_instruction self = inr (Some (unlines ls, self')) ∧
     Forall (allowed_line size) ls ∧
     source self' = source self ∧
     cursor self < cursor self' ≤ length (source self) ∧
     ∀ k, cursor self ≤ k < cursor self' → scan_ok (source self) k).
Proof.
  intros Hlt.
  destruct (lookup_lt_is_Some_2 (source self) (cursor self) Hlt) as [char E].
  destruct (decide (char ∈ ["<"; ">"])) as [Hs|Hs].
  { right. rewrite (Folding.produce_instruction_shift _ _ E Hs).
    destruct (shift_text_lines size (net ">" (shift_run self)))
      as (ls & -> & Hls).
    eexists ls, _. split; [reflexivity|]. split; [done|]. split; [done|].
    unfold after_run, shift_run. cbn [cursor].
    pose proof (leading_run_length ["<"; ">"] (source self) (cursor self)).
    assert (0 < length (leading_run ["<"; ">"]
                          (drop (cursor self) (source self)))).
    { rewrite (Folding.drop_lookup_cons _ _ _ E).
      by apply Folding.leading_run_head. }
    split; [lia|]. intros k Hk.
    destruct (leading_run_lookup _ _ _ _ Hk) as (c & Ek & Hc).
    eapply scan_ok_class; [done..| |];
      rewrite !elem_of_cons, elem_of_nil; intros [|[|[]]]; discriminate. }
  destruct (decide (char ∈ ["+"; "-"])) as [Hm|Hm].
  { right. rewrite (Folding.produce_instruction_mutate _ _ E Hm).
    destruct (mutate_text_lines size (net "+" (mutate_run self)))
      as (ls & -> & Hls).
    eexists ls, _. split; [reflexivity|]. split; [done|]. split; [done|].
    unfold after_run, mutate_run. cbn [cursor].
    pose proof (leading_run_length ["+"; "-"] (source self) (cursor self)).
    assert (0 < length (leading_run ["+"; "-"]
                          (drop (cursor self) (source self)))).
    { rewrite (Folding.drop_lookup_cons _ _ _ E).
      by apply Folding.leading_run_head. }
    split; [lia|]. intros k Hk.
    destruct (leading_run_lookup _ _ _ _ Hk) as (c & Ek & Hc).
    eapply scan_ok_class; [done..| |];
      rewrite !elem_of_cons, elem_of_nil; intros [|[|[]]]; discriminate. }
  rewrite (Folding.produce_instruction_other _ _ E Hs Hm).
  assert (∀ k, cursor self ≤ k < cursor self + 1 → k = cursor self) as Hone
    by (intros; lia).
  destruct (decide (char = "[")) as [->|Hopen].
  { unfold produce_loop_start, lookahead.
    change (lookahead_index (reset self))
      with (lookahead_index (at_cursor (source self) (cursor self))).
    destruct (lookahead_index (at_cursor (source self) (cursor self)))
      as [e|j] eqn:Hj.
    - left. pose proof (lookahead_index_error _ _ Hj) as ->.
      split; [reflexivity|].
      intros [Hok _]. destruct (Hok E) as [j Hj']. congruence.
    - right. cbn [fmap exn_fmap mbind exn_bind].
      destruct (loop_start_lines size (reset self) j)
        as (ls & -> & Hls).
      eexists ls, _. split; [reflexivity|]. split; [done|]. split; [done|].
      cbn [cursor set_cursor]. split; [lia|].
      intros k ->%Hone. split; [eauto|]. intros E'. congruence. }
  destruct (decide (char = "]")) as [->|Hclose].
  { unfold produce_loop_end, lookbehind.
    change (lookbehind_index (reset self))
      with (lookbehind_index (at_cursor (source self) (cursor self))).
    destruct (lookbehind_index (at_cursor (source self) (cursor self)))
      as [e|i] eqn:Hi.
    - left.
      assert (e = missing) as ->.
      { eapply lookbehind_index_error; [|exact Hi]. simpl. lia. }
      split; [reflexivity|].
      intros [_ Hok]. destruct (Hok E) as [i Hi']. congruence.
    - right. cbn [fmap exn_fmap mbind exn_bind].
      destruct (loop_end_lines size (reset self) i)
        as (ls & -> & Hls).
      eexists ls, _. split; [reflexivity|]. split; [done|]. split; [done|].
      cbn [cursor set_cursor]. split; [lia|].
      intros k ->%Hone. split; [|eauto]. intros E'. congruence. }
  right. cbn [mbind exn_bind].
  assert (∃ ls, (if decide (char = ".") then inr ("call dotproc" +:+ newline)
                 else if decide (char = ",")
                      then inr ("call commaproc" +:+ newline)
                      else inr EmptyString) = (inr (unlines ls) : exn + string)
                ∧ Forall (allowed_line size) ls) as (ls & -> & Hls).
  { repeat case_decide.
    - exists ["call dotproc"%string]. split; [reflexivity|]. allowed_lines.
    - exists ["call commaproc"%string]. split; [reflexivity|]. allowed_lines.
    - exists []. split; [reflexivity|]. constructor. }
  eexists ls, _. split; [reflexivity|]. split; [done|]. split; [done|].
  cbn [cursor set_cursor]. split; [lia|].
  intros k ->%Hone. by eapply scan_ok_other.
Qed.

(** *** The whole walk *)

Lemma scan_ok_past_end (source : text) k :
  length source ≤ k → scan_ok source k.
Proof.
  intros Hk. apply lookup_ge_None in Hk. split; intros E; congruence.
Qed.

Lemma compile_loop_spec size fuel self output :
  cursor self ≤ length (source self) →
  length (source self) - cursor self < fuel →
  (compile_loop fuel self output = Some (inl missing) ∧
   ∃ k, ¬ scan_ok (source self) k) ∨
  (∃ ls,
     compile_loop fuel self output =
       Some (inr (output +:+ unlines ls +:+ "call cleanup")) ∧
     Forall (allowed_line size) ls ∧
     ∀ k, cursor self ≤ k → scan_ok (source self) k).
Proof.
  revert self output.
  induction fuel as [|fuel IH]; intros self output Hle Hfuel; [lia|].
  simpl.
  destruct (decide (cursor self = length (source self))) as [Hend|Hend].
  - right. exists []. unfold produce_instruction.
    destruct (decide _); [|done].
    split; [reflexivity|]. split; [constructor|].
    intros k Hk. apply scan_ok_past_end. lia.
  - assert (cursor self < length (source self)) as Hlt by lia.
    destruct (produce_instruction_cases size self Hlt) as
      [[-> Hbad]|(ls & self' & -> & Hls & Hsrc & Hcur & Hok)].
    + left. eauto.
    + assert (cursor self' ≤ length (source self')) as Hle' by (rewrite Hsrc; lia).
      assert (length (source self') - cursor self' < fuel) as Hfuel'
        by (rewrite Hsrc; lia).
      destruct (IH self' (output +:+ unlines ls) Hle' Hfuel') as
        [[-> [k Hbad]]|(ls' & -> & Hls' & Hok')].
      * left. split; [done|]. exists k. by rewrite <- Hsrc.
      * right. exists (ls ++ ls').
        rewrite unlines_app, !append_assoc. split; [done|].
        split; [by apply Forall_app|].
        intros k Hk. destruct (decide (k < cursor self')).
        -- apply Hok. lia.
        -- rewrite <- Hsrc. apply Hok'. lia.
Qed.

(** [compile] always returns: either [missing], on a source with a bracket
    whose scan fails, or the header, groups of allowed lines, and the call
    of [cleanup], on a source whose brackets all pass their scans. *)
Lemma compile_spec (source : text) (size : Z) :
  (compile (init source size) = Some (inl missing) ∧
   ∃ k, ¬ scan_ok (normalize source) k) ∨
  (∃ ls,
     compile (init source size) =
       Some (inr (unlines
                    (HEADER_LINES (format_d size)
                       (format_d (Z.min size 1024)) ++ ls)
                  +:+ "call cleanup")) ∧
     Forall (allowed_line size)
       (HEADER_LINES (format_d size) (format_d (Z.min size 1024)) ++ ls) ∧
     ∀ k, scan_ok (normalize source) k).
Proof.
  unfold compile.
  destruct (compile_loop_spec size (S (length (Bfc.source (init source size))))
              (init source size) (produce_header (init source size)))
    as [[-> Hbad]|(ls & -> & Hls & Hok)]; [simpl; lia..| |].
  all: cbn [Bfc.source init] in *.
  - left. done.
  - right. exists ls. split; [|split].
    + unfold produce_header, PROGRAM_HEADER. cbn [num_cells init].
      by rewrite unlines_app, !append_assoc.
    + apply Forall_app. split; [apply header_lines_allowed|done].
    + intros k. apply Hok. simpl. lia.
Qed.

End Emission.

(** ** The generated text, group by group and line by line *)

Module Groups.
Import Bfc.

(** *** Lines of a text *)

Lemma lines_one_line (l : string) : has_newline l = false → lines l = [l].
Proof.
  induction l as [|c l IH]; [done|]. simpl.
  destruct (decide (c = "010")) as [->|Hc]; [done|].
  rewrite bool_decide_eq_false_2 by done. simpl. intros H.
  by rewrite (IH H).
Qed.

Lemma lines_ne (s : string) : lines s ≠ [].
Proof.
  induction s as [|c s IH]; [done|]. simpl.
  destruct (decide _); [done|]. by destruct (lines s).
Qed.



(** *** One turn of the loop of [compile] *)

Lemma concat_text_app (a b : list string) :
  concat_text (a ++ b) = concat_text a +:+ concat_text b.
Proof.
  induction a as [|x a IH]; [reflexivity|].
  change (x +:+ concat_text (a ++ b) = (x +:+ concat_text a) +:+ concat_text b).
  by rewrite IH, Emission.append_assoc.
Qed.



(** *** The whole loop *)


End Groups.

Module Brackets.

(** *** Nesting depth *)

Lemma depth_after_app d u v :
  depth_after d (u ++ v) = depth_after d u ≫= λ e, depth_after e v.
Proof.
  revert d. induction u as [|c u IH]; intros d; simpl; [done|].
  repeat case_decide; [apply IH| |apply IH].
  destruct d; [done|apply IH].
Qed.

Lemma depth_after_app_Some d u v e :
  depth_after d (u ++ v) = Some e ↔
  ∃ m, depth_after d u = Some m ∧ depth_after m v = Some e.
Proof.
  rewrite depth_after_app. destruct (depth_after d u) as [m|]; simpl.
  - split; [eauto|]. by intros (m' & [= <-] & ?).
  - split; [done|]. by intros (m' & [=] & ?).
Qed.

Lemma depth_after_shift k d u e :
  depth_after d u = Some e → depth_after (d + k) u = Some (e + k).
Proof.
  revert d. induction u as [|c u IH]; intros d; simpl.
  - by intros [= ->].
  - repeat case_decide.
    + apply (IH (S d)).
    + destruct d; [done|apply IH].
    + apply IH.
Qed.

(** A closed segment leaves any depth as it found it. *)
Lemma depth_after_closed d u :
  depth_after 0 u = Some 0 → depth_after d u = Some d.
Proof. intros H. apply (depth_after_shift d) in H. done. Qed.

Lemma depth_after_open d (u : text) :
  depth_after d ("[" :: u) = depth_after (S d) u.
Proof. reflexivity. Qed.

Lemma depth_after_close d (u : text) :
  depth_after (S d) ("]" :: u) = depth_after d u.
Proof. reflexivity. Qed.

(** Where the depth is lost: at a loop-end that comes at depth 0. *)
Lemma depth_after_None d u :
  depth_after d u = None →
  ∃ p post, u = p ++ "]" :: post ∧ depth_after d p = Some 0.
Proof.
  revert d. induction u as [|c u IH]; intros d; simpl; [done|].
  repeat case_decide; subst.
  - intros (p & post & -> & Hp)%IH. by exists ("[" :: p), post.
  - destruct d as [|d]; [by exists [], u|].
    intros (p & post & -> & Hp)%IH. by exists ("]" :: p), post.
  - intros (p & post & -> & Hp)%IH. exists (c :: p), post.
    split; [done|]. simpl. by repeat case_decide.
Qed.

(** The last loop-start that is still open: what follows it is closed. *)
Lemma last_open (p : text) :
  ∀ d e, depth_after d p = Some e → d < e →
  ∃ pre b, p = pre ++ "[" :: b ∧ depth_after 0 b = Some 0.
Proof.
  induction p as [p IH] using (induction_ltof1 _ length).
  unfold ltof in IH. intros d e Hp Hlt.
  destruct (decide (p = [])) as [->|Hne].
  { simpl in Hp. injection Hp as ->. lia. }
  destruct (exists_last Hne) as (p' & c & ->).
  apply depth_after_app_Some in Hp as (m & Hp' & Hc).
  simpl in Hc. repeat case_decide; subst.
  - exists p', []. done.
  - destruct m as [|m]; [done|]. injection Hc as ->.
    destruct (IH p') with (d := d) (e := S e)
      as (pre' & b' & -> & Hb'); [rewrite length_app; simpl; lia|done|lia|].
    apply depth_after_app_Some in Hp' as (m' & Hpre' & Hrest).
    rewrite depth_after_open, (depth_after_closed _ _ Hb') in Hrest.
    injection Hrest as ->.
    destruct (IH pre') with (d := d) (e := e)
      as (pre & b & -> & Hb);
      [rewrite !length_app; simpl; lia|done|lia|].
    exists pre, (b ++ "[" :: b' ++ ["]"]).
    split; [by rewrite <- !app_assoc|].
    apply depth_after_app_Some. exists 0. split; [done|].
    rewrite depth_after_open. apply depth_after_app_Some. exists 1.
    split; [by apply depth_after_closed|done].
  - injection Hc as ->.
    destruct (IH p') with (d := d) (e := e)
      as (pre & b & -> & Hb); [rewrite length_app; simpl; lia|done|lia|].
    exists pre, (b ++ [c]). split; [by rewrite <- app_assoc|].
    apply depth_after_app_Some. exists 0. split; [done|].
    simpl. by repeat case_decide.
Qed.

(** *** The forward scan of the interpreter *)

(** [tag_lookahead_loop], entered with a positive [nest_level], returns the
    position of the first loop-end before which the depth is back where it
    was [nest_level - 1] levels below the entry. *)
Lemma tag_lookahead_loop_Some rest cursor d j :
  Bfi.tag_lookahead_loop rest cursor (Z.of_nat (S d)) = Some j ↔
  ∃ b post, rest = b ++ "]" :: post ∧ depth_after d b = Some 0 ∧
            j = cursor + length b.
Proof.
  split.
  - revert cursor d. induction rest as [|c rest IH]; intros cursor d; simpl;
      [done|].
    destruct (decide (c = "[")) as [->|Hopen].
    { destruct (decide _) as [[=]|_].
      replace (Z.of_nat (S d) + 1)%Z with (Z.of_nat (S (S d))) by lia.
      intros (b & post & -> & Hb & ->)%IH.
      exists ("[" :: b), post. split; [done|]. split; [done|]. simpl. lia. }
    destruct (decide (c = "]")) as [->|Hclose].
    { destruct (decide (Z.of_nat (S d) - 1 = 0)%Z) as [Hd|Hd].
      - intros [= <-]. exists [], rest. assert (d = 0) as -> by lia.
        split; [done|]. split; [done|]. simpl. lia.
      - destruct d as [|d]; [lia|].
        replace (Z.of_nat (S (S d)) - 1)%Z with (Z.of_nat (S d)) by lia.
        intros (b & post & -> & Hb & ->)%IH.
        exists ("]" :: b), post. split; [done|]. split; [done|]. simpl. lia. }
    intros (b & post & -> & Hb & ->)%IH.
    exists (c :: b), post. split; [done|].
    split; [simpl; by repeat case_decide|]. simpl. lia.
  - intros (b & post & -> & Hb & ->). revert cursor d Hb.
    induction b as [|c b IH]; intros cursor d Hb; simpl.
    + injection Hb as ->. repeat case_decide; try done; try lia.
      f_equal. lia.
    + simpl in Hb.
      destruct (decide (c = "[")) as [->|Hopen].
      { destruct (decide _) as [[=]|_].
        replace (Z.of_nat (S d) + 1)%Z with (Z.of_nat (S (S d))) by lia.
        rewrite (IH (S cursor) (S d) Hb). f_equal. lia. }
      destruct (decide (c = "]")) as [->|Hclose].
      { destruct d as [|d]; [done|].
        destruct (decide _) as [?|_]; [lia|].
        replace (Z.of_nat (S (S d)) - 1)%Z with (Z.of_nat (S d)) by lia.
        rewrite (IH (S cursor) d Hb). f_equal. lia. }
      rewrite (IH (S cursor) d Hb). f_equal. lia.
Qed.

(** The segment between two positions, as a piece of what follows the
    first. *)
Lemma drop_between (program : text) i j char :
  S i ≤ j → program !! j = Some char →
  drop (S i) program = between program i j ++ char :: drop (S j) program.
Proof.
  intros Hij Hj. unfold between.
  rewrite <- (take_drop (j - S i) (drop (S i) program)) at 1. f_equal.
  rewrite drop_drop. replace (S i + (j - S i)) with j by lia.
  by apply drop_S.
Qed.

Lemma length_between (program : text) i j :
  j ≤ length program → length (between program i j) = j - S i.
Proof.
  intros Hj. unfold between. rewrite length_take, length_drop. lia.
Qed.

(** [tag_lookahead] returns [j] exactly when the loop-end at [j] closes the
    segment that starts after [index]. *)
Lemma tag_lookahead_inr (source : text) index j :
  Bfi.tag_lookahead source index = inr j ↔
  source !! j = Some "]" ∧ index < j ∧
  depth_after 0 (between source index j) = Some 0.
Proof.
  unfold Bfi.tag_lookahead.
  destruct (Bfi.tag_lookahead_loop _ _ _) as [j'|] eqn:E.
  - change 1%Z with (Z.of_nat 1) in E.
    pose proof (proj1 (tag_lookahead_loop_Some _ _ _ _) E)
      as (b & post & Hdrop & Hb & Ej).
    assert (source !! j' = Some "]") as Hj.
    { rewrite Ej, <- lookup_drop, Hdrop. by apply list_lookup_middle. }
    assert (between source index j' = b) as Hbetween.
    { unfold between. rewrite Hdrop.
      replace (j' - S index) with (length b + 0) by lia.
      by rewrite take_app_add, app_nil_r. }
    split.
    + intros [= <-]. split; [done|]. split; [lia|]. by rewrite Hbetween.
    + intros (Hj' & Hlt & Hclosed). f_equal.
      assert (Bfi.tag_lookahead_loop (drop (S index) source) (S index)
                (Z.of_nat 1) = Some j) as E'.
      { apply tag_lookahead_loop_Some.
        exists (between source index j), (drop (S j) source).
        split; [by apply drop_between|]. split; [done|].
        rewrite length_between; [lia|].
        apply lookup_lt_Some in Hj'. lia. }
      congruence.
  - split; [done|]. intros (Hj' & Hlt & Hclosed). exfalso.
    assert (Bfi.tag_lookahead_loop (drop (S index) source) (S index)
              (Z.of_nat 1) = Some j) as E'.
    { apply tag_lookahead_loop_Some.
      exists (between source index j), (drop (S j) source).
      split; [by apply drop_between|]. split; [done|].
      rewrite length_between; [lia|].
      apply lookup_lt_Some in Hj'. lia. }
    change (Z.of_nat 1) with 1%Z in E'. congruence.
Qed.

Lemma tag_lookahead_matched (source : text) index j :
  source !! index = Some "[" →
  Bfi.tag_lookahead source index = inr j ↔ matched source index j.
Proof.
  intros Hopen. rewrite tag_lookahead_inr. unfold matched. tauto.
Qed.

Lemma tag_lookahead_error (source : text) index e :
  Bfi.tag_lookahead source index = inl e → e = Bfi.mismatched index.
Proof.
  unfold Bfi.tag_lookahead. destruct (Bfi.tag_lookahead_loop _ _ _); [done|].
  by intros [= <-].
Qed.

(** *** Matches in a well-formed program *)

Lemma take_between (program : text) i j char :
  i < j → program !! i = Some char →
  take j program = take i program ++ char :: between program i j.
Proof.
  intros Hij Hi. unfold between.
  rewrite <- (take_drop_middle _ _ _ Hi) at 1.
  replace j with (length (take i program) + S (j - S i)).
  2:{ rewrite length_take. apply lookup_lt_Some in Hi. lia. }
  rewrite take_app_add. simpl. do 2 f_equal.
  rewrite length_take. apply lookup_lt_Some in Hi.
  f_equal. lia.
Qed.

Lemma between_split (program : text) i1 i2 j char :
  i1 < i2 → i2 < j → program !! i2 = Some char →
  between program i1 j =
    between program i1 i2 ++ char :: between program i2 j.
Proof.
  intros H12 H2j Hi2. unfold between at 1.
  rewrite (drop_between _ i1 i2 char) by (done || lia).
  replace (j - S i1) with (length (between program i1 i2) + S (j - S i2)).
  2:{ rewrite length_between; [lia|]. apply lookup_lt_Some in Hi2. lia. }
  by rewrite take_app_add.
Qed.

Lemma tag_lookahead_loop_finds rest cursor d e n :
  depth_after d rest = Some e → e + n ≤ d → 1 ≤ n →
  ∃ j, Bfi.tag_lookahead_loop rest cursor (Z.of_nat n) = Some j.
Proof.
  revert cursor d n. induction rest as [|c rest IH]; intros cursor d n; simpl.
  - intros [= ->]. lia.
  - destruct (decide (c = "[")) as [->|Hopen].
    { destruct (decide _) as [[=]|_]. intros Hd ??.
      replace (Z.of_nat n + 1)%Z with (Z.of_nat (S n)) by lia.
      eapply IH; [done|lia..]. }
    destruct (decide (c = "]")) as [->|Hclose].
    { destruct d as [|d]; [done|]. intros Hd ??.
      destruct (decide _); [eauto|].
      replace (Z.of_nat n - 1)%Z with (Z.of_nat (n - 1)) by lia.
      eapply IH; [done|lia..]. }
    intros Hd ??. eapply IH; [done|lia..].
Qed.

(** In a well-formed program every loop-start has its match. *)
Lemma well_formed_open (program : text) i :
  well_formed program → program !! i = Some "[" →
  ∃ j, matched program i j.
Proof.
  intros Hwf Hi. unfold well_formed in Hwf.
  rewrite <- (take_drop_middle _ _ _ Hi) in Hwf.
  apply depth_after_app_Some in Hwf as (m & _ & Hrest).
  rewrite depth_after_open in Hrest.
  destruct (tag_lookahead_loop_finds _ (S i) _ _ 1 Hrest) as [j Hj];
    [lia..|].
  exists j. apply (tag_lookahead_matched _ _ _ Hi).
  unfold Bfi.tag_lookahead. change 1%Z with (Z.of_nat 1). by rewrite Hj.
Qed.

(** In a well-formed program every loop-end is the match of a loop-start. *)
Lemma well_formed_close (program : text) j :
  well_formed program → program !! j = Some "]" →
  ∃ i, matched program i j.
Proof.
  intros Hwf Hj. unfold well_formed in Hwf.
  pose proof (lookup_lt_Some _ _ _ Hj) as Hlen.
  rewrite <- (take_drop_middle _ _ _ Hj) in Hwf.
  apply depth_after_app_Some in Hwf as (m & Htake & Hrest).
  destruct m as [|m]; [done|].
  destruct (last_open _ _ _ Htake) as (pre & b & Epre & Hb); [lia|].
  assert (length pre + S (length b) = j) as Hlens.
  { apply (f_equal length) in Epre.
    rewrite length_take, length_app in Epre. simpl in Epre. lia. }
  assert (program = pre ++ "[" :: b ++ "]" :: drop (S j) program) as Eprog.
  { rewrite <- (take_drop_middle _ _ _ Hj) at 1. rewrite Epre.
    by rewrite <- app_assoc. }
  exists (length pre). split; [|split; [done|split; [lia|]]].
  - rewrite Eprog. by apply list_lookup_middle.
  - unfold between. rewrite Eprog at 1.
    change (pre ++ "[" :: b ++ "]" :: drop (S j) program)
      with (pre ++ ["["] ++ b ++ "]" :: drop (S j) program).
    rewrite app_assoc, drop_app_length' by (rewrite length_app; simpl; lia).
    replace (j - S (length pre)) with (length b + 0) by lia.
    by rewrite take_app_add, app_nil_r.
Qed.

(** A program whose brackets all have a match is well-formed. *)
Lemma all_matched_well_formed (program : text) :
  (∀ i, program !! i = Some "[" → ∃ j, matched program i j) →
  (∀ j, program !! j = Some "]" → ∃ i, matched program i j) →
  well_formed program.
Proof.
  intros Hopen Hclose. unfold well_formed.
  destruct (depth_after 0 program) as [[|e]|] eqn:Hdepth; [done| |].
  - exfalso.
    destruct (last_open _ _ _ Hdepth) as (pre & b & Eprog & Hb); [lia|].
    assert (program !! length pre = Some "[") as Hi.
    { rewrite Eprog. by apply list_lookup_middle. }
    destruct (Hopen _ Hi) as (j & _ & Hj & Hij & Hclosed).
    assert (drop (S (length pre)) program = b) as Hdrop.
    { rewrite Eprog at 1.
      change (pre ++ "[" :: b) with (pre ++ ["["] ++ b).
      rewrite app_assoc. apply drop_app_length'.
      rewrite length_app. simpl. lia. }
    rewrite (drop_between _ _ j "]") in Hdrop by (done || lia).
    rewrite <- Hdrop in Hb.
    apply depth_after_app_Some in Hb as (m & Hm & Hrest).
    rewrite Hclosed in Hm. injection Hm as <-. done.
  - exfalso.
    destruct (depth_after_None _ _ Hdepth) as (p & post & Eprog & Hp).
    assert (program !! length p = Some "]") as Hj.
    { rewrite Eprog. by apply list_lookup_middle. }
    destruct (Hclose _ Hj) as (i & Hi & _ & Hij & Hclosed).
    assert (take (length p) program = p) as Htake.
    { rewrite Eprog. by rewrite take_app_length. }
    rewrite (take_between _ _ _ _ Hij Hi) in Htake.
    rewrite <- Htake in Hp.
    apply depth_after_app_Some in Hp as (m & _ & Hrest).
    rewrite depth_after_open, (depth_after_closed _ _ Hclosed) in Hrest.
    done.
Qed.

(** A loop-end is the match of one loop-start only. *)
Lemma matched_inj (program : text) i1 i2 j :
  matched program i1 j → matched program i2 j → i1 = i2.
Proof.
  assert (∀ a b, a < b → matched program a j → matched program b j → False)
    as Hlt.
  { intros a b Hab (_ & _ & _ & Ha) (Hb & _ & Hbj & Hclosed).
    rewrite (between_split _ a b j "[") in Ha by done.
    apply depth_after_app_Some in Ha as (m & _ & Hrest).
    rewrite depth_after_open, (depth_after_closed _ _ Hclosed) in Hrest.
    done. }
  intros H1 H2. destruct (Nat.lt_trichotomy i1 i2) as [?|[?|?]];
    [exfalso; eauto|done|exfalso; eauto].
Qed.

Lemma matched_fun (program : text) i j1 j2 :
  matched program i j1 → matched program i j2 → j1 = j2.
Proof.
  intros H1 H2.
  apply (tag_lookahead_matched _ _ _ (proj1 H1)) in H1.
  apply (tag_lookahead_matched _ _ _ (proj1 H2)) in H2. congruence.
Qed.

(** *** The scans of the compiler *)

(** The forward scan of the compiler and the one of the interpreter find
    the same position, or both find none. *)
Lemma lookahead_loop_agrees rest cursor n :
  (0 ≤ n)%Z →
  match Bfi.tag_lookahead_loop rest cursor (n + 1) with
  | Some j => Bfc.lookahead_loop rest cursor n = (S j, (-1)%Z)
  | None => (snd (Bfc.lookahead_loop rest cursor n) >= 0)%Z
  end.
Proof.
  revert cursor n. induction rest as [|c rest IH]; intros cursor n Hn; simpl.
  - lia.
  - destruct (decide (n >= 0)%Z); [|lia].
    destruct (decide (c = "[")) as [->|Hopen].
    { destruct (decide _) as [[=]|_]. apply IH. lia. }
    destruct (decide (c = "]")) as [->|Hclose].
    { destruct (decide (n + 1 - 1 = 0)%Z) as [Hz|Hz].
      - replace (n - 1)%Z with (-1)%Z by lia.
        clear IH. destruct rest; reflexivity.
      - replace (n + 1 - 1)%Z with (n - 1 + 1)%Z by lia. apply IH. lia. }
    apply IH. lia.
Qed.

Lemma lookahead_index_agrees (self : Bfc.BFCompiler) :
  Bfc.lookahead_index self =
    match Bfi.tag_lookahead (Bfc.source self) (Bfc.cursor self) with
    | inr j => inr (Z.of_nat j)
    | inl _ => inl Bfc.missing
    end.
Proof.
  unfold Bfc.lookahead_index, Bfi.tag_lookahead.
  replace (Bfc.cursor self + 1) with (S (Bfc.cursor self)) by lia.
  pose proof (lookahead_loop_agrees
                (drop (S (Bfc.cursor self)) (Bfc.source self))
                (S (Bfc.cursor self)) 0 ltac:(lia)) as H.
  change (0 + 1)%Z with 1%Z in H.
  destruct (Bfi.tag_lookahead_loop _ _ _) as [j|].
  - rewrite H. destruct (decide _); [|lia]. f_equal. lia.
  - destruct (Bfc.lookahead_loop _ _ _) as [lc nest]. simpl in H.
    destruct (decide _); [lia|done].
Qed.

Lemma between_cons (program : text) i j char :
  S i < j → j ≤ length program → program !! S i = Some char →
  between program i j = char :: between program (S i) j.
Proof.
  intros Hij Hj Hi. unfold between.
  rewrite (drop_S _ _ _ Hi).
  replace (j - S i) with (S (j - S (S i))) by lia. done.
Qed.

Lemma between_nil (program : text) i j : j ≤ S i → between program i j = [].
Proof.
  intros Hij. unfold between. replace (j - S i) with 0 by lia.
  apply take_0.
Qed.

(** The backward scan: while it turns, what lies between [local_cursor]
    and the loop-end it started from takes the depth from [nest_level] back
    to 0; so the loop-start on which it stops is matched by that loop-end. *)
Lemma lookbehind_loop_sound (source : text) k fuel :
  k ≤ length source →
  ∀ lc nest lc' nest',
    (0 ≤ nest)%Z → lc < k →
    depth_after (Z.to_nat nest) (between source lc k) = Some 0 →
    Bfc.lookbehind_loop fuel source (Z.of_nat lc) nest = inr (lc', nest') →
    (nest' < 0)%Z →
    ∃ i, (lc' + 1)%Z = Z.of_nat i ∧ 1 ≤ i ∧ source !! i = Some "[" ∧
         i < k ∧ depth_after 0 (between source i k) = Some 0.
Proof.
  intros Hk. induction fuel as [|fuel IH];
    intros lc nest lc' nest' Hnest Hlc Hdepth; simpl.
  - case_decide; intros [= <- <-]; lia.
  - case_decide as Hcond; [|intros [= <- <-]; lia].
    destruct (lookup_lt_is_Some_2 source lc) as [char Hchar]; [lia|].
    assert (getitem source (Z.of_nat lc) = Some char) as ->.
    { unfold getitem, py_index.
      destruct (Z.leb_spec 0 (Z.of_nat lc)); [|lia].
      destruct (Z.ltb_spec (Z.of_nat lc) (Z.of_nat (length source)));
        [|lia].
      simpl. by rewrite Nat2Z.id. }
    destruct lc as [|lc]; [lia|].
    replace (Z.of_nat (S lc) - 1)%Z with (Z.of_nat lc) by lia.
    assert (between source lc k = char :: between source (S lc) k) as Hcons.
    { apply between_cons; [lia|done|done]. }
    destruct (decide (char = "]")) as [->|Hclose].
    { apply IH; [lia|lia|]. rewrite Hcons.
      replace (Z.to_nat (nest + 1)) with (S (Z.to_nat nest)) by lia.
      by rewrite depth_after_close. }
    destruct (decide (char = "[")) as [->|Hopen].
    { destruct (decide (nest = 0)%Z) as [->|Hnz].
      - intros Hloop _. exists (S lc).
        assert (lc' = Z.of_nat lc ∧ nest' = (-1)%Z) as [-> ->].
        { assert (Bfc.lookbehind_loop fuel source (Z.of_nat lc) (0 - 1)
                  = inr (Z.of_nat lc, (-1)%Z)) as E
            by (destruct fuel; reflexivity).
          rewrite E in Hloop. by injection Hloop as <- <-. }
        repeat split; [lia|lia|done|lia|done].
      - apply IH; [lia|lia|]. rewrite Hcons, depth_after_open.
        replace (S (Z.to_nat (nest - 1))) with (Z.to_nat nest) by lia.
        done. }
    apply IH; [lia|lia|]. rewrite Hcons. simpl. by repeat case_decide.
Qed.

Lemma lookbehind_index_sound (source : text) k i :
  k < length source →
  Bfc.lookbehind_index (Bfc.at_cursor source k) = inr i →
  ∃ i', i = Z.of_nat i' ∧ 1 ≤ i' ∧ source !! i' = Some "[" ∧ i' < k ∧
        depth_after 0 (between source i' k) = Some 0.
Proof.
  intros Hk. unfold Bfc.lookbehind_index. cbn [Bfc.source Bfc.cursor Bfc.at_cursor].
  destruct (Bfc.lookbehind_loop _ _ _ _) as [e|[lc' nest']] eqn:Hloop;
    [done|].
  case_decide as Hneg; [|done]. intros [= <-].
  destruct k as [|k].
  { assert (Bfc.lookbehind_loop (length source) source (Z.of_nat 0 - 1) 0
            = inr ((-1)%Z, 0%Z)) as E
      by (destruct (length source); reflexivity).
    rewrite E in Hloop. injection Hloop as <- <-. lia. }
  replace (Z.of_nat (S k) - 1)%Z with (Z.of_nat k) in Hloop by lia.
  assert (S k ≤ length source) as Hk' by lia.
  destruct (lookbehind_loop_sound source (S k) (length source) Hk'
              k 0%Z lc' nest')
    as (i' & Hi' & ? & ? & ? & ?); [lia|lia| |done|done|].
  - by rewrite between_nil.
  - exists i'. split; [lia|done].
Qed.

End Brackets.

Module Resolver.
Import Brackets.

Section Construct.
Variable source : text.

Lemma tags_upto_empty : tags_upto source 0 ∅.
Proof.
  split.
  - intros i j. by rewrite lookup_empty.
  - intros i j Hi. lia.
Qed.

Lemma tags_upto_skip k tags char :
  source !! k = Some char → char ≠ "[" →
  tags_upto source k tags → tags_upto source (S k) tags.
Proof.
  intros Hk Hchar [H1 H2]. split.
  - intros i j Hij. destruct (H1 i j Hij) as [[??]|[??]]; [left|right];
      (split; [lia|done]).
  - intros i j Hi Hm. apply H2; [|done].
    destruct (decide (i = k)) as [->|]; [|lia].
    destruct Hm as [Hopen _]. congruence.
Qed.

Lemma tags_upto_insert k j tags :
  matched source k j → tags_upto source k tags →
  tags_upto source (S k) (<[j := k]> (<[k := j]> tags)).
Proof.
  intros Hm [H1 H2].
  assert (k ≠ j) as Hkj by (destruct Hm as (_ & _ & ? & _); lia).
  split.
  - intros a b. rewrite !lookup_insert.
    destruct (decide (j = a)) as [<-|Hja].
    { intros [= <-]. right. split; [lia|done]. }
    destruct (decide (k = a)) as [<-|Hka].
    { intros [= <-]. left. split; [lia|done]. }
    intros Hab. destruct (H1 a b Hab) as [[??]|[??]]; [left|right];
      (split; [lia|done]).
  - intros a b Ha Hab. rewrite !lookup_insert.
    destruct (decide (a = k)) as [->|Hak].
    + pose proof (matched_fun _ _ _ _ Hab Hm) as ->.
      destruct (decide (j = k)); [congruence|].
      destruct (decide (k = k)); [|done].
      destruct (decide (j = j)); done.
    + destruct (H2 a b) as [Ea Eb]; [lia|done|].
      assert (j ≠ a).
      { intros <-. destruct Hab as [Hopen _], Hm as (_ & Hclose & _).
        congruence. }
      assert (k ≠ b).
      { intros <-. destruct Hab as (_ & Hclose & _), Hm as [Hopen _].
        congruence. }
      assert (j ≠ b).
      { intros <-. apply Hak. by eapply matched_inj. }
      repeat (destruct (decide _); [congruence|]). done.
Qed.

Lemma construct_tags_loop_spec n :
  ∀ k tags,
    k + n = length source → tags_upto source k tags →
    match Bfi.construct_tags_loop source (seq k n) tags with
    | inr tags' =>
        tags_upto source (length source) tags' ∧
        (∀ i, k ≤ i → source !! i = Some "[" → ∃ j, matched source i j) ∧
        (∀ j, k ≤ j → source !! j = Some "]" → ∃ i, matched source i j)
    | inl e =>
        ∃ index, k ≤ index < length source ∧ e = Bfi.mismatched index ∧
                 unmatched source index
    end.
Proof.
  induction n as [|n IH]; intros k tags Hlen Hinv; simpl.
  - replace (length source) with k by lia. split; [done|].
    split; intros i Hi Hlook; apply lookup_lt_Some in Hlook; lia.
  - destruct (lookup_lt_is_Some_2 source k) as [char Hchar]; [lia|].
    rewrite Hchar.
    destruct (decide (char = "[")) as [->|Hopen].
    { destruct (Bfi.tag_lookahead source k) as [e|j] eqn:Hj.
      - exists k. split; [lia|]. split; [by eapply tag_lookahead_error|].
        left. split; [done|]. intros j Hm.
        apply (tag_lookahead_matched _ _ _ Hchar) in Hm. congruence.
      - apply (tag_lookahead_matched _ _ _ Hchar) in Hj.
        specialize (IH (S k) _ ltac:(lia) (tags_upto_insert _ _ _ Hj Hinv)).
        destruct (Bfi.construct_tags_loop _ _ _) as [e|tags'].
        + destruct IH as (index & ? & ? & ?). exists index.
          split; [lia|done].
        + destruct IH as (Hfinal & Hopens & Hcloses).
          split; [done|]. split.
          * intros i Hi Hlook. destruct (decide (i = k)) as [->|]; [eauto|].
            apply Hopens; [lia|done].
          * intros i Hi Hlook. destruct (decide (i = k)) as [->|];
              [congruence|]. apply Hcloses; [lia|done]. }
    assert (tags_upto source (S k) tags) as Hinv'
      by by eapply tags_upto_skip.
    destruct (decide (char = "]")) as [->|Hclose].
    { destruct (decide (is_Some (tags !! k))) as [[i Hi]|Hnone].
      - specialize (IH (S k) _ ltac:(lia) Hinv').
        destruct (Bfi.construct_tags_loop _ _ _) as [e|tags'].
        + destruct IH as (index & ? & ? & ?). exists index.
          split; [lia|done].
        + destruct IH as (Hfinal & Hopens & Hcloses).
          split; [done|]. split.
          * intros a Ha Hlook. destruct (decide (a = k)) as [->|];
              [congruence|]. apply Hopens; [lia|done].
          * intros a Ha Hlook. destruct (decide (a = k)) as [->|];
              [|apply Hcloses; [lia|done]].
            destruct Hinv as [H1 _].
            destruct (H1 _ _ Hi) as [[? Hm]|[? Hm]]; [|eauto].
            destruct Hm as [? _]. congruence.
      - exists k. split; [lia|]. split; [done|]. right. split; [done|].
        intros i Hm. apply Hnone. destruct Hinv as [_ H2].
        destruct (H2 i k) as [_ Hk]; [|done|eauto].
        destruct Hm as (_ & _ & ? & _). lia. }
    specialize (IH (S k) _ ltac:(lia) Hinv').
    destruct (Bfi.construct_tags_loop _ _ _) as [e|tags'].
    + destruct IH as (index & ? & ? & ?). exists index. split; [lia|done].
    + destruct IH as (Hfinal & Hopens & Hcloses).
      split; [done|]. split.
      * intros a Ha Hlook. destruct (decide (a = k)) as [->|];
          [congruence|]. apply Hopens; [lia|done].
      * intros a Ha Hlook. destruct (decide (a = k)) as [->|];
          [congruence|]. apply Hcloses; [lia|done].
Qed.

Lemma unmatched_not_well_formed index :
  unmatched source index → ¬ well_formed source.
Proof.
  intros [[Hopen Hno]|[Hclose Hno]] Hwf.
  - destruct (well_formed_open _ _ Hwf Hopen) as [j Hj]. by eapply Hno.
  - destruct (well_formed_close _ _ Hwf Hclose) as [i Hi]. by eapply Hno.
Qed.

(** [construct_tags] returns the map of a well-formed program, and raises
    on any other, naming a bracket that has no match. *)
Lemma construct_tags_spec :
  match Bfi.construct_tags source with
  | inr tags => well_formed source ∧ tags_upto source (length source) tags
  | inl e =>
      ¬ well_formed source ∧
      ∃ index, index < length source ∧ e = Bfi.mismatched index ∧
               unmatched source index
  end.
Proof.
  unfold Bfi.construct_tags.
  pose proof (construct_tags_loop_spec (length source) 0 ∅ eq_refl
                tags_upto_empty) as H.
  destruct (Bfi.construct_tags_loop _ _ _) as [e|tags].
  - destruct H as (index & ? & ? & ?).
    split; [by eapply unmatched_not_well_formed|].
    exists index. split; [lia|done].
  - destruct H as (Hfinal & Hopens & Hcloses). split; [|done].
    apply all_matched_well_formed.
    + intros i. apply Hopens. lia.
    + intros j. apply Hcloses. lia.
Qed.

End Construct.
End Resolver.

Module Scans.
Import Brackets.

(** Being well-formed is having a match for every bracket. *)
Lemma well_formed_iff_all_matched (program : text) :
  well_formed program ↔
  (∀ i, program !! i = Some "[" → ∃ j, matched program i j) ∧
  (∀ j, program !! j = Some "]" → ∃ i, matched program i j).
Proof.
  split.
  - intros Hwf. split; intros k Hk;
      [by apply well_formed_open|by apply well_formed_close].
  - intros [Hopen Hclose]. by apply all_matched_well_formed.
Qed.

(** The backward scan finds the match of a loop-end whenever that match is
    not at position 0. *)
Lemma lookbehind_loop_complete (source : text) i k :
  matched source i k → 1 ≤ i →
  ∀ fuel lc nest,
    i ≤ lc → lc < k → lc ≤ fuel → (0 ≤ nest)%Z →
    depth_after (Z.to_nat nest) (between source lc k) = Some 0 →
    Bfc.lookbehind_loop fuel source (Z.of_nat lc) nest =
      inr ((Z.of_nat i - 1)%Z, (-1)%Z).
Proof.
  intros Hm Hi.
  pose proof Hm as (Hopen & Hclose & Hik & Hclosed).
  pose proof (lookup_lt_Some _ _ _ Hclose) as Hklen.
  induction fuel as [|fuel IH]; intros lc nest Hlo Hhi Hfuel Hnest Hdepth;
    [lia|].
  simpl. case_decide as Hcond; [|lia].
  destruct (lookup_lt_is_Some_2 source lc) as [char Hchar]; [lia|].
  assert (getitem source (Z.of_nat lc) = Some char) as ->.
  { unfold getitem, py_index.
    destruct (Z.leb_spec 0 (Z.of_nat lc)); [|lia].
    destruct (Z.ltb_spec (Z.of_nat lc) (Z.of_nat (length source))); [|lia].
    simpl. by rewrite Nat2Z.id. }
  destruct lc as [|lc]; [lia|].
  replace (Z.of_nat (S lc) - 1)%Z with (Z.of_nat lc) by lia.
  assert (between source lc k = char :: between source (S lc) k) as Hcons.
  { apply between_cons; [lia|lia|done]. }
  assert (∀ n, Bfc.lookbehind_loop fuel source n (-1) = inr (n, (-1)%Z))
    as Hstop by (intros n; destruct fuel; reflexivity).
  destruct (decide (S lc = i)) as [<-|Hne].
  - assert (char = "[") as -> by congruence.
    rewrite (depth_after_closed _ _ Hclosed) in Hdepth.
    assert (nest = 0%Z) as -> by (injection Hdepth; lia).
    simpl. rewrite Hstop. do 2 f_equal. lia.
  - destruct (decide (char = "]")) as [->|Hnc].
    { apply IH; [lia..|]. rewrite Hcons.
      replace (Z.to_nat (nest + 1)) with (S (Z.to_nat nest)) by lia.
      by rewrite depth_after_close. }
    destruct (decide (char = "[")) as [->|Hno].
    { destruct (decide (nest = 0)%Z) as [->|Hnz].
      - exfalso. apply Hne. symmetry.
        eapply (matched_inj source); [exact Hm|].
        split; [done|]. split; [done|]. split; [lia|done].
      - apply IH; [lia..|]. rewrite Hcons, depth_after_open.
        replace (S (Z.to_nat (nest - 1))) with (Z.to_nat nest) by lia.
        done. }
    apply IH; [lia..|]. rewrite Hcons. simpl. by repeat case_decide.
Qed.

Lemma lookbehind_index_complete (source : text) i k :
  matched source i k → 1 ≤ i →
  Bfc.lookbehind_index (Bfc.at_cursor source k) = inr (Z.of_nat i).
Proof.
  intros Hm Hi. pose proof Hm as (Hopen & Hclose & Hik & Hclosed).
  pose proof (lookup_lt_Some _ _ _ Hclose) as Hklen.
  unfold Bfc.lookbehind_index. cbn [Bfc.source Bfc.cursor Bfc.at_cursor].
  destruct k as [|k]; [lia|].
  replace (Z.of_nat (S k) - 1)%Z with (Z.of_nat k) by lia.
  rewrite (lookbehind_loop_complete source i (S k) Hm Hi (length source) k 0);
    [|lia..|by rewrite between_nil].
  destruct (decide _); [|lia]. f_equal. lia.
Qed.

(** When every scan of the compiler succeeds, the program is well-formed. *)
Lemma scans_well_formed (program : text) :
  (∀ k, Bfc.scan_ok program k) → well_formed program.
Proof.
  intros Hok. apply all_matched_well_formed.
  - intros i Hi. destruct (Hok i) as [Hahead _].
    destruct (Hahead Hi) as [j Hj].
    rewrite lookahead_index_agrees in Hj. cbn [Bfc.source Bfc.cursor Bfc.at_cursor] in Hj.
    destruct (Bfi.tag_lookahead program i) as [e|j'] eqn:Hj'; [done|].
    exists j'. by apply tag_lookahead_matched.
  - intros j Hj. destruct (Hok j) as [_ Hbehind].
    destruct (Hbehind Hj) as [i Hi].
    apply lookbehind_index_sound in Hi
      as (i' & _ & _ & Hopen & Hlt & Hclosed);
      [|by eapply lookup_lt_Some].
    exists i'. done.
Qed.

(** The programs that the compiler accepts: the well-formed ones that do
    not begin with a loop-start. *)
Lemma compile_accepts_iff (source : text) (size : Z) :
  (∃ out, Bfc.compile (Bfc.init source size) = Some (inr out)) ↔
  well_formed (Bfc.normalize source) ∧
  Bfc.normalize source !! 0 ≠ Some "[".
Proof.
  split.
  - intros [out Hout].
    destruct (Emission.compile_spec source size)
      as [[Hbad _]|(ls & _ & _ & Hok)]; [congruence|].
    assert (well_formed (Bfc.normalize source)) as Hwf
      by by apply scans_well_formed.
    split; [done|]. intros H0.
    destruct (well_formed_open _ _ Hwf H0) as [j Hm].
    destruct (Hok j) as [_ Hbehind].
    destruct (Hbehind (proj1 (proj2 Hm))) as [i Hi].
    apply lookbehind_index_sound in Hi
      as (i' & _ & Hpos & Hopen & Hlt & Hclosed);
      [|eapply lookup_lt_Some; apply Hm].
    assert (0 = i'); [|lia].
    eapply (matched_inj _ _ _ j); [done|].
    split; [done|]. split; [apply Hm|]. by split.
  - intros [Hwf H0].
    destruct (Emission.compile_spec source size)
      as [[_ [k Hbad]]|(ls & Hcompile & _)]; [|eauto].
    exfalso. apply Hbad. split.
    + intros Hk. destruct (well_formed_open _ _ Hwf Hk) as [j Hm].
      exists (Z.of_nat j). rewrite lookahead_index_agrees.
      cbn [Bfc.source Bfc.cursor Bfc.at_cursor].
      by rewrite (proj2 (tag_lookahead_matched _ _ _ Hk) Hm).
    + intros Hk. destruct (well_formed_close _ _ Hwf Hk) as [i Hm].
      exists (Z.of_nat i). apply lookbehind_index_complete; [done|].
      destruct i; [|lia]. destruct Hm as [? _]. congruence.
Qed.

End Scans.

Module Resolution.
Import Brackets Resolver.

(** C4.  For every well-formed program, [construct_tags] returns a map
    that is symmetric, whose keys are exactly the positions of the
    loop-starts and loop-ends, that sends every loop-start to its matching
    loop-end, strictly after it, and every loop-end to its matching
    loop-start, strictly before it. *)
Theorem bracket_map_symmetric (program : text) :
  well_formed program →
  ∃ tags,
    Bfi.construct_tags program = inr tags ∧
    (∀ i j, tags !! i = Some j → tags !! j = Some i) ∧
    (∀ i, is_Some (tags !! i) ↔
          program !! i = Some "[" ∨ program !! i = Some "]") ∧
    (∀ i j, program !! i = Some "[" → tags !! i = Some j →
            i < j ∧ matched program i j) ∧
    (∀ i j, program !! i = Some "]" → tags !! i = Some j →
            j < i ∧ matched program j i).
Proof.
  intros Hwf. pose proof (construct_tags_spec program) as H.
  destruct (Bfi.construct_tags program) as [e|tags]; [by destruct H|].
  destruct H as (_ & H1 & H2).
  assert (∀ i j, matched program i j → i < length program) as Hlen.
  { intros i j [Hi _]. by eapply lookup_lt_Some. }
  exists tags. split; [done|]. split; [|split; [|split]].
  - intros i j Hij. destruct (H1 _ _ Hij) as [[_ Hm]|[_ Hm]];
      by destruct (H2 _ _ (Hlen _ _ Hm) Hm).
  - intros i. split.
    + intros [j Hij]. destruct (H1 _ _ Hij) as [[_ Hm]|[_ Hm]].
      * left. by destruct Hm.
      * right. by destruct Hm as (_ & ? & _).
    + intros [Hi|Hi].
      * destruct (well_formed_open _ _ Hwf Hi) as [j Hm].
        destruct (H2 _ _ (Hlen _ _ Hm) Hm). eauto.
      * destruct (well_formed_close _ _ Hwf Hi) as [j Hm].
        destruct (H2 _ _ (Hlen _ _ Hm) Hm). eauto.
  - intros i j Hi Hij. destruct (H1 _ _ Hij) as [[_ Hm]|[_ Hm]].
    + split; [by destruct Hm as (_ & _ & ? & _)|done].
    + destruct Hm as (_ & ? & _). congruence.
  - intros i j Hi Hij. destruct (H1 _ _ Hij) as [[_ Hm]|[_ Hm]].
    + destruct Hm as (? & _). congruence.
    + split; [by destruct Hm as (_ & _ & ? & _)|done].
Qed.

Lemma bracket_map_symmetric_witness :
  ∃ tags,
    Bfi.construct_tags ["+"; "["; "["; "-"; "]"; ">"; "]"] = inr tags ∧
    (∀ i j, tags !! i = Some j → tags !! j = Some i).
Proof.
  destruct (bracket_map_symmetric ["+"; "["; "["; "-"; "]"; ">"; "]"])
    as (tags & Htags & Hsym & _).
  - reflexivity.
  - exists tags. by split.
Defined.

(** *** Malformed programs *)

Lemma prefix_refl (s : string) : String.prefix s s = true.
Proof.
  induction s as [|a s IH]; [reflexivity|]. simpl.
  destruct (ascii_dec a a); [exact IH|congruence].
Qed.

Lemma mentions_suffix (p s : string) : mentions s (p +:+ s) = true.
Proof.
  induction p as [|a p IH].
  - change (EmptyString +:+ s) with s.
    destruct s; [reflexivity|]. cbn [mentions]. by rewrite prefix_refl.
  - change (String a p +:+ s) with (String a (p +:+ s)).
    cbn [mentions]. rewrite IH. apply orb_true_r.
Qed.

(** C3, as stated, fails on the program "[": the compiler rejects it with
    "missing matching bracket", a message that names no position. *)
Lemma compiler_error_names_no_index :
  ¬ well_formed ["["] ∧
  ∃ e, Bfc.compile (Bfc.init ["["] 30000) = Some (inl e) ∧
       ¬ references_valid_index e (length (Bfc.normalize ["["])).
Proof.
  split; [by vm_compute|].
  exists Bfc.missing. split; [by vm_compute|].
  intros (index & Hlt & Hmentions).
  assert (index = 0) as -> by (simpl in Hlt; lia).
  by vm_compute in Hmentions.
Qed.

(** C3, amended.  For every source whose program is malformed: the
    interpreter's bracket resolution raises "mismatched bracket at index i"
    where i is a position of the program that holds a bracket without
    match, and [interpret] raises it before it has a tape or touches the
    channel; the compiler raises "missing matching bracket", which names no
    position, and returns no text. *)
Theorem malformed_rejected (source : text) :
  ¬ well_formed (Bfi.clean_source source) →
  (∃ index,
     index < length (Bfi.clean_source source) ∧
     unmatched (Bfi.clean_source source) index ∧
     Bfi.construct_tags (Bfi.clean_source source) =
       inl (InterpreterError
              ("mismatched bracket at index " +:+ format_d (Z.of_nat index))) ∧
     references_valid_index
       (InterpreterError
          ("mismatched bracket at index " +:+ format_d (Z.of_nat index)))
       (length (Bfi.clean_source source)) ∧
     ∀ fuel cells w,
       Bfi.interpret fuel source cells w =
         inl (InterpreterError
                ("mismatched bracket at index " +:+ format_d (Z.of_nat index)))) ∧
  (∀ size,
     Bfc.compile (Bfc.init source size) =
       Some (inl (ValueError "missing matching bracket"))).
Proof.
  intros Hbad. split.
  - pose proof (construct_tags_spec (Bfi.clean_source source)) as H.
    destruct (Bfi.construct_tags (Bfi.clean_source source)) as [e|tags] eqn:E;
      [|by destruct H].
    destruct H as (_ & index & Hlt & -> & Hun).
    exists index. split; [done|]. split; [done|]. split; [done|]. split.
    + exists index. split; [done|]. apply mentions_suffix.
    + intros fuel cells w. unfold Bfi.interpret. by rewrite E.
  - intros size.
    destruct (Emission.compile_spec source size)
      as [[-> _]|(ls & _ & _ & Hok)]; [done|].
    exfalso. apply Hbad. by apply Scans.scans_well_formed.
Qed.

Lemma malformed_rejected_witness :
  (∃ index,
     index < length (Bfi.clean_source ["]"; "["]) ∧
     Bfi.construct_tags (Bfi.clean_source ["]"; "["]) =
       inl (InterpreterError
              ("mismatched bracket at index " +:+ format_d (Z.of_nat index)))) ∧
  Bfc.compile (Bfc.init ["]"; "["] 30000) =
    Some (inl (ValueError "missing matching bracket")).
Proof.
  destruct (malformed_rejected ["]"; "["]) as [(index & Hlt & _ & H & _) H'].
  - by vm_compute.
  - split; [|apply H']. exists index. by split.
Defined.

(** *** The compiler on a well-formed program *)

(** C1.  The program "[]" is well-formed and the interpreter's resolver
    maps 0 to 1 and 1 to 0.  The compiler's lookahead from the loop-start
    finds position 1, but its lookbehind from the loop-end never looks at
    position 0 and raises, so the compiler rejects a program that the
    interpreter accepts. *)
Theorem lookbehind_skips_first_position :
  well_formed ["["; "]"] ∧
  Bfi.construct_tags ["["; "]"] = inr {[0 := 1; 1 := 0]} ∧
  Bfc.lookahead_index (Bfc.at_cursor ["["; "]"] 0) = inr 1%Z ∧
  Bfc.lookbehind_index (Bfc.at_cursor ["["; "]"] 1) =
    inl (ValueError "missing matching bracket") ∧
  ∀ size,
    Bfc.compile (Bfc.init ["["; "]"] size) =
      Some (inl (ValueError "missing matching bracket")).
Proof.
  split; [reflexivity|]. split; [by vm_compute|].
  split; [reflexivity|]. split; [reflexivity|].
  intros size.
  destruct (Emission.compile_spec ["["; "]"] size)
    as [[-> _]|(ls & _ & _ & Hok)]; [done|].
  destruct (Hok 1) as [_ Hbehind].
  destruct (Hbehind eq_refl) as [i Hi]. discriminate Hi.
Qed.

End Resolution.

Module Generation.
Import Bfc.

Lemma leading_run_maximal (class : text) (source : text) c :
  let run := leading_run class (drop c source) in
  (∀ k, c ≤ k < c + length run →
        ∃ char, source !! k = Some char ∧ char ∈ class) ∧
  (∀ char, source !! (c + length run) = Some char → char ∉ class).
Proof.
  intros run. split; [intros k; apply Emission.leading_run_lookup|].
  intros char Hchar.
  destruct (Folding.leading_run_split class (drop c source))
    as (rest' & E & _ & Hhead).
  apply Hhead. rewrite head_lookup.
  rewrite <- lookup_drop, E in Hchar. fold run in Hchar.
  by rewrite lookup_app_r, Nat.sub_diag in Hchar by lia.
Qed.

Lemma shift_text_0 : shift_text 0 = EmptyString.
Proof. reflexivity. Qed.

Lemma mutate_text_0 : mutate_text 0 = EmptyString.
Proof. reflexivity. Qed.

(** C2, as stated, fails on the run "<>" taken from the initial state: it
    folds to a net displacement of 0 and to no instruction, while the
    interpreter, taking the two tokens one by one, stops at the first with
    "pointer out of range (-1)" and has no final pointer. *)
Lemma fold_skips_bounds_failure :
  produce_instruction (init ["<"; ">"] 30000) =
    inr (Some (EmptyString, after_run 2 0 (init ["<"; ">"] 30000))) ∧
  Bfi.run 3 ["<"; ">"] ∅ 30000 (Bfi.initial 30000 Bfi.no_io) =
    Bfi.Raised (InterpreterError "pointer out of range (-1)")
      (Bfi.set_pointer (-1) (Bfi.initial 30000 Bfi.no_io)) ∧
  ¬ fold_matches_tokens (init ["<"; ">"] 30000) 30000
      (Bfi.initial 30000 Bfi.no_io).
Proof.
  assert (Bfi.run 3 ["<"; ">"] ∅ 30000 (Bfi.initial 30000 Bfi.no_io) =
          Bfi.Raised (InterpreterError "pointer out of range (-1)")
            (Bfi.set_pointer (-1) (Bfi.initial 30000 Bfi.no_io))) as Hrun.
  { apply Execution.run_raised.
    by rewrite (Execution.step_move_left ["<"; ">"] ∅ 30000
                  (Bfi.initial 30000 Bfi.no_io) eq_refl). }
  split; [reflexivity|]. split; [done|].
  intros H. destruct (H _ _ eq_refl) as (st' & Hst' & _).
  change (shift_run (init ["<"; ">"] 30000)) with ["<"; ">"] in Hst'.
  simpl length in Hst'. rewrite Hrun in Hst'. discriminate Hst'.
Qed.

(** C2, amended.  With the cursor on a move token (or on a mutation token),
    the folding pass consumes the maximal contiguous run of such tokens and
    leaves the cursor on the first position past it; its quantity is the
    algebraic sum of the unit effects of the run; when that sum is 0 it
    returns the empty text, no instruction.  For every starting state:
    whenever the interpreter, taking the run of moves token by token,
    reaches its end (no bounds test inside the run fails), the pointer is
    where the folded move puts it and the tape is as it was; and on a run of
    mutations, from a pointer in range, the interpreter reaches the end
    with the cell at the pointer holding what the folded mutation gives,
    modulo 256, and nothing else changed. *)
Theorem folding_preserves_state (self : BFCompiler) (char : ascii)
    (loop_tags : gmap nat nat) (cells : Z) (st : Bfi.state) :
  source self !! cursor self = Some char →
  Bfi.cursor st = 0 →
  (char ∈ ["<"; ">"] →
   let run := shift_run self in
   let q := net ">" run in
   produce_instruction self =
     inr (Some (shift_text q, after_run (length run) q self)) ∧
   0 < length run ∧
   (∀ k, cursor self ≤ k < cursor self + length run →
         ∃ c, source self !! k = Some c ∧ c ∈ ["<"; ">"]) ∧
   (∀ c, source self !! (cursor self + length run) = Some c →
         c ∉ ["<"; ">"]) ∧
   (q = 0%Z → shift_text q = EmptyString) ∧
   (∀ st',
      Bfi.run (S (length run)) run loop_tags cells st = Bfi.Halted st' →
      Bfi.pointer st' = folded_move q (Bfi.pointer st) ∧
      Bfi.machine st' = Bfi.machine st)) ∧
  (char ∈ ["+"; "-"] →
   let run := mutate_run self in
   let q := net "+" run in
   produce_instruction self =
     inr (Some (mutate_text q, after_run (length run) q self)) ∧
   0 < length run ∧
   (∀ k, cursor self ≤ k < cursor self + length run →
         ∃ c, source self !! k = Some c ∧ c ∈ ["+"; "-"]) ∧
   (∀ c, source self !! (cursor self + length run) = Some c →
         c ∉ ["+"; "-"]) ∧
   (q = 0%Z → mutate_text q = EmptyString) ∧
   (∀ v,
      Bfi.in_bounds cells st →
      Bfi.machine st !! Z.to_nat (Bfi.pointer st) = Some v →
      (0 ≤ v < 256)%Z →
      Bfi.run (S (length run)) run loop_tags cells st =
        Bfi.Halted
          (Bfi.set_cursor (length run)
             (Bfi.set_machine
                (<[Z.to_nat (Bfi.pointer st) := folded_mutation q v]>
                   (Bfi.machine st)) st)))).
Proof.
  intros E Hcur. split.
  - intros Hc run q.
    destruct (leading_run_maximal ["<"; ">"] (source self) (cursor self))
      as [Hin Hout].
    destruct (Folding.leading_run_split ["<"; ">"]
                (drop (cursor self) (source self))) as (rest' & _ & Hall & _).
    split; [by eapply Folding.produce_instruction_shift|].
    split.
    { subst run. unfold shift_run. rewrite (Folding.drop_lookup_cons _ _ _ E).
      by apply Folding.leading_run_head. }
    split; [done|]. split; [done|].
    split; [by intros ->|].
    intros st' Hrun.
    destruct (Tokens.run_moves run loop_tags cells Hall (length run) st st')
      as [Hp Hm]; [lia|done|].
    rewrite Hcur in Hp. by rewrite drop_0 in Hp.
  - intros Hc run q.
    destruct (leading_run_maximal ["+"; "-"] (source self) (cursor self))
      as [Hin Hout].
    destruct (Folding.leading_run_split ["+"; "-"]
                (drop (cursor self) (source self))) as (rest' & _ & Hall & _).
    split; [by eapply Folding.produce_instruction_mutate|].
    split.
    { subst run. unfold mutate_run.
      rewrite (Folding.drop_lookup_cons _ _ _ E).
      by apply Folding.leading_run_head. }
    split; [done|]. split; [done|].
    split; [by intros ->|].
    intros v Hb Hv Hbyte.
    rewrite (Tokens.run_mutations run loop_tags cells Hall (length run) st v)
      by (done || lia).
    rewrite Hcur. by rewrite drop_0.
Qed.

Lemma folding_preserves_state_witness :
  let st := {| Bfi.machine := [0; 7; 0]%Z; Bfi.pointer := 1; Bfi.cursor := 0;
               Bfi.world := Bfi.no_io |} in
  produce_instruction (init ["<"; ">"; ">"; "+"] 30000) =
    inr (Some (shift_text 1,
               after_run 3 1 (init ["<"; ">"; ">"; "+"] 30000))) ∧
  (∃ st',
     Bfi.run 4 ["<"; ">"; ">"] ∅ 3 st = Bfi.Halted st' ∧
     Bfi.pointer st' = 2%Z ∧ Bfi.machine st' = [0; 7; 0]%Z) ∧
  produce_instruction (init ["+"; "-"; "-"; "."] 30000) =
    inr (Some (mutate_text (-1),
               after_run 3 (-1) (init ["+"; "-"; "-"; "."] 30000))) ∧
  Bfi.run 4 ["+"; "-"; "-"] ∅ 3 st =
    Bfi.Halted {| Bfi.machine := [0; 6; 0]%Z; Bfi.pointer := 1;
                  Bfi.cursor := 3; Bfi.world := Bfi.no_io |}.
Proof.
  intros st.
  destruct (folding_preserves_state (init ["<"; ">"; ">"; "+"] 30000) "<" ∅
              3 st eq_refl eq_refl) as [Hshift _].
  destruct (Hshift ltac:(constructor)) as (H1 & _ & _ & _ & _ & H2).
  destruct (folding_preserves_state (init ["+"; "-"; "-"; "."] 30000) "+" ∅
              3 st eq_refl eq_refl) as [_ Hmutate].
  destruct (Hmutate ltac:(constructor)) as (H3 & _ & _ & _ & _ & H4).
  split; [exact H1|]. split; [|split; [exact H3|]].
  - eexists. split; [reflexivity|]. by apply H2.
  - apply (H4 7%Z).
    + split; [simpl; lia|reflexivity].
    + reflexivity.
    + lia.
Defined.



End Generation.

Module Channel.
Import Bfi.

(** C6.  With ",!a" on standard input: the source read is ",", and the
    buffer that is replayed holds the terminator and then "a".  The input
    token of the program takes the first buffered item, the one-character
    text "!", and storing it in the tape raises [TypeError]: the terminator
    is replayed, and a replayed item is not stored as a byte.  Read
    directly from standard input, the same "a" comes as the integer 97. *)
Theorem replayed_input_is_not_stored (fuel : nat) :
  let w := {| iobuf := []; stdin := [","; "!"; "a"]; stdout := [] |} in
  let buffered := {| iobuf := ["!"; "a"]; stdin := []; stdout := [] |} in
  let taken := {| iobuf := ["a"]; stdin := []; stdout := [] |} in
  read_until_char (S fuel) "!" w = Some (inr [","], buffered) ∧
  io_getchar buffered = (inr (PyStr "!"), taken) ∧
  store (PyStr "!") (initial MINIMUM_TARGET_SIZE taken) = inl TypeError ∧
  main_stdin (S fuel) w =
    Some (inr (Raised TypeError (initial MINIMUM_TARGET_SIZE taken))) ∧
  io_getchar {| iobuf := []; stdin := ["a"]; stdout := [] |} =
    (inr (PyInt 97), no_io).
Proof.
  destruct fuel; repeat split; reflexivity.
Qed.

End Channel.

(** ** The replay buffer and standard input *)

Module Replay.
Import Bfi BfiCli.

(** *** The buffer *)

Lemma getchars_buffered (n : nat) :
  ∀ w, n ≤ length (iobuf w) →
    getchars n w =
      ((λ c, inr (PyStr c)) <$> take n (iobuf w),
       set_iobuf (drop n (iobuf w)) w).
Proof.
  induction n as [|n IH]; intros w Hn; simpl.
  - rewrite drop_0. by destruct w.
  - unfold io_getchar. destruct (iobuf w) as [|c rest] eqn:E; [simpl in Hn; lia|].
    rewrite IH by (simpl in *; lia). simpl. reflexivity.
Qed.

(** X1.  The buffer is a queue, and it is served before standard input:
    after [io_rebuffer unused], as many calls of [io_getchar] as there are
    buffered items return the items buffered before and then the
    characters of [unused], in order, each as a one-character text, and
    leave the buffer empty and standard input and output untouched. *)
Theorem buffer_is_replayed_in_order (unused : text) (w : io) :
  getchars (length (iobuf w ++ unused)) (io_rebuffer unused w) =
    ((λ c, inr (PyStr c)) <$> (iobuf w ++ unused), set_iobuf [] w).
Proof.
  rewrite getchars_buffered by done. simpl.
  by rewrite take_ge, drop_ge by done.
Qed.

(** *** Reading from standard input *)

Lemma io_getchar_unbuffered (w : io) :
  iobuf w = [] →
  match stdin w with
  | [] =>
      io_getchar w =
        (inl (InterpreterError "reached eof when scanning for input"),
         set_stdin [] w)
  | c :: rest =>
      let n := Z.of_N (N_of_ascii c) in
      if decide (n < 128)%Z then
        io_getchar w = (inr (PyInt n), set_stdin rest w) ∧ (0 ≤ n < 128)%Z
      else
        io_getchar w =
          (inl (InterpreterError
                  "interpreter does not accept multibyte characters"),
           set_stdin rest w)
  end.
Proof.
  intros Hbuf. unfold io_getchar, stdin_read. rewrite Hbuf.
  destruct (stdin w) as [|c rest]; [reflexivity|].
  simpl. unfold encode_char.
  destruct (decide (Z.of_N (N_of_ascii c) < 128)%Z) as [Hlt|Hge].
  - destruct (Z.ltb_spec (Z.of_N (N_of_ascii c)) 128); [|lia].
    simpl. rewrite drop_0. split; [reflexivity|lia].
  - destruct (Z.ltb_spec (Z.of_N (N_of_ascii c)) 128); [lia|].
    simpl. by rewrite drop_0.
Qed.

End Replay.

(** ** Reading the program from standard input *)

Module Reading.
Import Bfi BfiCli.

Lemma str_index_first (char : ascii) (pre post : text) :
  char ∉ pre → str_index char (pre ++ char :: post) = Some (length pre).
Proof.
  induction pre as [|c pre IH]; intros Hpre; simpl.
  - by destruct (decide (char = char)).
  - apply not_elem_of_cons in Hpre as [Hne Hpre].
    destruct (decide (c = char)); [congruence|]. by rewrite IH.
Qed.

Lemma str_index_None (char : ascii) (s : text) :
  char ∉ s → str_index char s = None.
Proof.
  induction s as [|c s IH]; intros Hs; simpl; [done|].
  apply not_elem_of_cons in Hs as [Hne Hs].
  destruct (decide (c = char)); [congruence|]. by rewrite IH.
Qed.

(** The loop of [read_until_char] ends once the character is in what was
    read, and loses nothing of the input. *)
Lemma read_until_loop_ends (char : ascii) (fuel : nat) :
  ∀ result chunk w,
    char ∈ result ++ chunk ++ stdin w →
    (chunk = [] → stdin w = []) →
    length (chunk ++ stdin w) < fuel →
    ∃ result' chunk' rest,
      read_until_loop fuel char result chunk w =
        Some (result', chunk', set_stdin rest w) ∧
      char ∈ result' ∧
      result' ++ chunk' ++ rest = result ++ chunk ++ stdin w.
Proof.
  induction fuel as [|fuel IH]; intros result chunk w Hin Hchunk Hfuel;
    [lia|].
  simpl. destruct (decide (char ∈ result)) as [Hres|Hres].
  - exists result, chunk, (stdin w). split; [by destruct w|done].
  - assert (chunk ≠ []) as Hne.
    { intros ->. rewrite Hchunk in Hin by done.
      by rewrite !app_nil_r in Hin. }
    unfold stdin_read.
    destruct (IH (result ++ chunk) (take chunk_size (stdin w))
                (set_stdin (drop chunk_size (stdin w)) w))
      as (result' & chunk' & rest & Hloop & Hres' & Heq).
    + simpl. by rewrite take_drop, <- app_assoc.
    + simpl. intros Htake. destruct (stdin w); [done|]. discriminate Htake.
    + simpl. rewrite take_drop. rewrite length_app in Hfuel.
      destruct chunk; [done|]. simpl in Hfuel. lia.
    + exists result', chunk', rest. split; [|split; [done|]].
      * rewrite Hloop. by destruct w.
      * rewrite Heq. simpl. by rewrite take_drop, <- app_assoc.
Qed.

Lemma prefix_with_first (char : ascii) (p rest pre post : text) :
  p ++ rest = pre ++ char :: post → char ∈ p → char ∉ pre →
  ∃ replay, p = pre ++ char :: replay ∧ replay ++ rest = post.
Proof.
  revert p. induction pre as [|c pre IH]; intros p Heq Hin Hpre.
  - destruct p as [|c p]; [by apply elem_of_nil in Hin|].
    simpl in Heq. injection Heq as -> <-. by exists p.
  - apply not_elem_of_cons in Hpre as [Hne Hpre].
    destruct p as [|c' p]; [by apply elem_of_nil in Hin|].
    simpl in Heq. injection Heq as -> Heq.
    apply elem_of_cons in Hin as [?|Hin]; [done|].
    destruct (IH p Heq Hin Hpre) as (replay & -> & <-). by exists replay.
Qed.

(** X3.  When the terminator occurs on standard input, [read_until_char]
    returns, given turns enough for the length of the input: the source is
    the text before the first terminator; what goes to the end of the
    buffer is that terminator itself followed by all that was read after
    it; and the buffered text after the terminator, then what is left on
    standard input, is the input after the terminator: nothing is lost. *)
Theorem read_until_char_splits (fuel : nat) (char : ascii) (w : io)
    (pre post : text) :
  stdin w = pre ++ char :: post → char ∉ pre →
  length (stdin w) < fuel →
  ∃ replay rest,
    read_until_char fuel char w =
      Some (inr pre,
            {| iobuf := iobuf w ++ char :: replay; stdin := rest;
               stdout := stdout w |}) ∧
    replay ++ rest = post.
Proof.
  intros Hstdin Hpre Hfuel. unfold read_until_char, stdin_read.
  destruct (read_until_loop_ends char fuel [] (take chunk_size (stdin w))
              (set_stdin (drop chunk_size (stdin w)) w))
    as (result & chunk & rest & Hloop & Hres & Heq).
  - simpl. rewrite take_drop, Hstdin. apply elem_of_app. right. by left.
  - simpl. intros Htake. destruct (stdin w); [done|]. discriminate Htake.
  - simpl. by rewrite take_drop.
  - rewrite Hloop. simpl in *. rewrite take_drop, Hstdin in Heq.
    rewrite app_assoc in Heq.
    destruct (prefix_with_first char (result ++ chunk) rest pre post)
      as (replay & Hsplit & Hrest); [done| |done|].
    { apply elem_of_app. by left. }
    exists replay, rest. split; [|done].
    rewrite Hsplit, (str_index_first _ _ _ Hpre).
    rewrite take_app_length, drop_app_length. reflexivity.
Qed.

Lemma read_until_char_splits_witness :
  ∃ replay rest,
    read_until_char 6 "!" {| iobuf := []; stdin := [","; "."; "!"; "a"; "!"];
                             stdout := [] |} =
      Some (inr [","; "."],
            {| iobuf := "!" :: replay; stdin := rest; stdout := [] |}) ∧
    replay ++ rest = ["a"; "!"].
Proof.
  apply (read_until_char_splits 6 "!"
           {| iobuf := []; stdin := [","; "."; "!"; "a"; "!"]; stdout := [] |}
           [","; "."] ["a"; "!"]).
  - reflexivity.
  - by apply (bool_decide_unpack _).
  - simpl. lia.
Defined.

Lemma elem_of_take_drop (c : ascii) n (l : text) :
  c ∈ take n l ∨ c ∈ drop n l → c ∈ l.
Proof.
  intros H. rewrite <- (take_drop n l). by apply elem_of_app.
Qed.

Lemma read_until_loop_never (char : ascii) (fuel : nat) :
  ∀ result chunk w,
    char ∉ result → char ∉ chunk → char ∉ stdin w →
    read_until_loop fuel char result chunk w = None.
Proof.
  induction fuel as [|fuel IH]; intros result chunk w Hres Hchunk Hin; simpl.
  - by destruct (decide (char ∈ result)).
  - destruct (decide (char ∈ result)); [done|].
    unfold stdin_read. apply IH; simpl.
    + rewrite elem_of_app. tauto.
    + intros H. apply Hin. eapply elem_of_take_drop; eauto.
    + intros H. apply Hin. eapply elem_of_take_drop; eauto.
Qed.

(** X4.  When the terminator does not occur on standard input,
    [read_until_char] never returns: at the end of input its loop goes on
    reading empty chunks, however many turns it is given. *)
Theorem read_until_char_needs_terminator (fuel : nat) (char : ascii)
    (w : io) :
  char ∉ stdin w → read_until_char fuel char w = None.
Proof.
  intros Hin. unfold read_until_char, stdin_read.
  rewrite read_until_loop_never; [done|..]; simpl.
  - apply not_elem_of_nil.
  - intros H. apply Hin. eapply elem_of_take_drop; eauto.
  - intros H. apply Hin. eapply elem_of_take_drop; eauto.
Qed.

Lemma read_until_char_needs_terminator_witness :
  read_until_char 1000 "!" {| iobuf := []; stdin := ["+"; "."]; stdout := [] |}
    = None.
Proof.
  apply read_until_char_needs_terminator.
  by apply (bool_decide_unpack _).
Defined.

End Reading.

(** ** Executions as a whole *)

Module Runs.
Import Bfi BfiCli.

Ltac case_store H :=
  match goal with
  | |- context [store ?value ?st] =>
      let e := fresh "e" in
      let s := fresh "s" in
      destruct (store value st) as [e|s] eqn:H
  end.

Section Run.
Variables (source : text) (loop_tags : gmap nat nat) (cells : Z).

(** *** Cells are bytes *)

Lemma store_tape_ok n value st st' :
  store value st = inr st' → tape_ok n st → tape_ok n st'.
Proof.
  unfold store. destruct value as [c|v]; [done|].
  destruct (decide _) as [Hv|]; [|done].
  unfold setitem. destruct (py_index _ _) as [k|]; [|done]. simpl.
  intros [= <-] [Hbytes Hlen]. split; simpl.
  - by apply Forall_insert.
  - by rewrite length_insert.
Qed.

Lemma exec_tape_ok n char st :
  tape_ok n st →
  match exec loop_tags cells char st with
  | inr st' => tape_ok n st'
  | inl (_, st') => tape_ok n st'
  end.
Proof.
  intros Hok. unfold exec.
  repeat (destruct (decide (char = _)) as [->|?]); cbn -[store getitem].
  - by destruct (decide _).
  - by destruct (decide _).
  - destruct (getitem _ _); [|done]. case_store Hs; [done|].
    by eapply store_tape_ok.
  - destruct (getitem _ _); [|done]. case_store Hs; [done|].
    by eapply store_tape_ok.
  - destruct (getitem _ _); [|done]. destruct (decide _); [|done].
    by destruct (loop_tags !! cursor st).
  - destruct (getitem _ _); [|done]. destruct (decide _); [|done].
    by destruct (loop_tags !! cursor st).
  - by destruct (getitem _ _).
  - destruct (io_getchar _) as [[e|value] w]; [done|].
    case_store Hs; [done|]. eapply store_tape_ok; [done|]. done.
  - done.
Qed.

Lemma step_tape_ok n st :
  tape_ok n st →
  tape_ok n (outcome_state (step source loop_tags cells st)).
Proof.
  intros Hok. unfold step. destruct (source !! cursor st) as [char|]; [|done].
  pose proof (exec_tape_ok n char st Hok) as H.
  by destruct (exec loop_tags cells char st) as [[e st']|st'].
Qed.

Lemma run_tape_ok n fuel st :
  tape_ok n st →
  tape_ok n (outcome_state (run fuel source loop_tags cells st)).
Proof.
  revert st. induction fuel as [|fuel IH]; intros st Hok; simpl; [done|].
  pose proof (step_tape_ok n st Hok) as H.
  destruct (step source loop_tags cells st) as [s|s|e s]; simpl in *;
    [by apply IH|done|done].
Qed.

(** *** Where an execution fails *)

Lemma io_getchar_empty_buffer w :
  iobuf w = [] →
  iobuf (io_getchar w).2 = [] ∧
  match (io_getchar w).1 with
  | inl e =>
      e = InterpreterError "interpreter does not accept multibyte characters" ∨
      e = InterpreterError "reached eof when scanning for input"
  | inr (PyInt n) => (0 ≤ n < 128)%Z
  | inr (PyStr _) => False
  end.
Proof.
  intros Hbuf. pose proof (Replay.io_getchar_unbuffered w Hbuf) as H.
  destruct (stdin w) as [|c rest].
  - rewrite H. simpl. split; [done|]. by right.
  - simpl in H. destruct (decide _).
    + destruct H as [-> ?]. simpl. by split.
    + rewrite H. simpl. split; [done|]. by left.
Qed.

(** Where an execution fails: on a move refused by its own test, or on an
    input token, with what [io_getchar] raised or, when [io_getchar]
    returned a buffered item, with the [TypeError] of the store.  Tape
    accesses, jumps and the store of a byte read never fail. *)
Lemma exec_failure char st e st' :
  in_bounds cells st → source !! cursor st = Some char →
  covers_brackets source loop_tags →
  exec loop_tags cells char st = inl (e, st') →
  (char = ">" ∧
   e = InterpreterError
         ("pointer out of range (" +:+ format_d cells +:+ ")")) ∨
  (char = "<" ∧ e = InterpreterError "pointer out of range (-1)") ∨
  (char = "," ∧
   ((∃ w', io_getchar (world st) = (inl e, w')) ∨
    (iobuf (world st) ≠ [] ∧ e = TypeError))).
Proof.
  intros Hb Hchar Hcov.
  pose proof (Execution.getitem_in_bounds cells st Hb) as [v Hv].
  assert (∀ n, (0 ≤ n < 256)%Z → ∃ st', store (PyInt n) st = inr st')
    as Hstore.
  { intros n Hn.
    destruct (Execution.store_in_bounds cells st n Hb Hn) as (s & Hs & _).
    eauto. }
  unfold exec.
  repeat (destruct (decide (char = _)) as [->|?]); rewrite ?Hv;
    cbn -[store getitem].
  - destruct (decide _); [|done]. intros [= <- _]. by left.
  - destruct (decide _); [|done]. intros [= <- _]. right. by left.
  - by destruct (Hstore _ (Execution.land_255_byte (v + 1))) as (s & ->).
  - by destruct (Hstore _ (Execution.land_255_byte (v - 1))) as (s & ->).
  - destruct (decide _); [|done].
    by destruct (Hcov (cursor st)) as [target ->]; [by left|].
  - destruct (decide _); [|done].
    by destruct (Hcov (cursor st)) as [target ->]; [by right|].
  - done.
  - intros H. right. right. split; [done|].
    destruct (iobuf (world st)) as [|item rest] eqn:Hbuf.
    + pose proof (io_getchar_empty_buffer (world st) Hbuf) as [_ Hr].
      destruct (io_getchar (world st)) as [[e1|value] w]; cbn [fst] in Hr.
      { injection H as <- _. left. by eexists. }
      destruct value as [c|byte]; [done|].
      destruct (Execution.store_in_bounds cells (set_world w st) byte)
        as (s & Hs & _); [by apply Execution.in_bounds_set_world|lia|].
      by rewrite Hs in H.
    + unfold io_getchar in H. rewrite Hbuf in H. cbn -[store] in H.
      injection H as <- _. by right.
  - done.
Qed.

(** An execution that fails does so on some turn, from a state that the
    turns before have reached. *)
Lemma run_failure_point fuel :
  ∀ st e st',
    run fuel source loop_tags cells st = Raised e st' →
    ∃ n st0,
      n < fuel ∧ run n source loop_tags cells st = Running st0 ∧
      step source loop_tags cells st0 = Raised e st'.
Proof.
  induction fuel as [|fuel IH]; intros st e st'; simpl; [done|].
  destruct (step source loop_tags cells st) as [s|s|e1 s] eqn:Hstep;
    [|done|].
  - intros Hrun. destruct (IH _ _ _ Hrun) as (n & st0 & ? & Hn & ?).
    exists (S n), st0. split; [lia|]. split; [|done]. simpl.
    by rewrite Hstep.
  - intros [= <- <-]. exists 0, st. split; [lia|]. by split.
Qed.

Lemma step_failure st e st' :
  in_bounds cells st → covers_brackets source loop_tags →
  step source loop_tags cells st = Raised e st' →
  ∃ char,
    source !! cursor st = Some char ∧
    ((char = ">" ∧
      e = InterpreterError
            ("pointer out of range (" +:+ format_d cells +:+ ")")) ∨
     (char = "<" ∧ e = InterpreterError "pointer out of range (-1)") ∨
     (char = "," ∧
      ((∃ w', io_getchar (world st) = (inl e, w')) ∨
       (iobuf (world st) ≠ [] ∧ e = TypeError)))).
Proof.
  intros Hb Hcov. unfold step.
  destruct (source !! cursor st) as [char|] eqn:Hchar; [|done].
  destruct (exec loop_tags cells char st) as [[e1 s1]|s1] eqn:Hexec; [|done].
  intros [= <- <-]. exists char. split; [done|]. by eapply exec_failure.
Qed.

End Run.

(** *** The channel only moves forward *)

Section Channel.
Variables (source : text) (loop_tags : gmap nat nat) (cells : Z).

Lemma io_after_refl w : io_after w w.
Proof. by split; [|split]. Qed.

Lemma io_after_trans w1 w2 w3 :
  io_after w1 w2 → io_after w2 w3 → io_after w1 w3.
Proof.
  intros (?&?&?) (?&?&?). split; [|split]; by etrans.
Qed.

Lemma io_getchar_after w : io_after w (io_getchar w).2.
Proof.
  unfold io_getchar. destruct (iobuf w) as [|c rest] eqn:E.
  - assert (io_after w (set_stdin (drop 1 (stdin w)) w)) as H.
    { split; [done|]. split; [|done]. simpl. apply suffix_drop. }
    unfold stdin_read. simpl. destruct (decide _); [done|].
    by destruct (encode _).
  - simpl. split; [done|]. split; [done|]. simpl. rewrite E.
    by apply suffix_cons_r.
Qed.

Lemma store_world value st st' : store value st = inr st' → world st' = world st.
Proof.
  unfold store. destruct value; [done|]. destruct (decide _); [|done].
  destruct (setitem _ _ _); [|done]. by intros [= <-].
Qed.

Lemma exec_io_after char st :
  match exec loop_tags cells char st with
  | inr st' => io_after (world st) (world st')
  | inl (_, st') => io_after (world st) (world st')
  end.
Proof.
  unfold exec.
  repeat (destruct (decide (char = _)) as [->|?]); cbn -[store getitem].
  - destruct (decide _); apply io_after_refl.
  - destruct (decide _); apply io_after_refl.
  - destruct (getitem _ _); [|apply io_after_refl].
    case_store Hs; [apply io_after_refl|].
    rewrite (store_world _ _ _ Hs). apply io_after_refl.
  - destruct (getitem _ _); [|apply io_after_refl].
    case_store Hs; [apply io_after_refl|].
    rewrite (store_world _ _ _ Hs). apply io_after_refl.
  - destruct (getitem _ _); [|apply io_after_refl].
    destruct (decide _); [|apply io_after_refl].
    destruct (loop_tags !! cursor st); apply io_after_refl.
  - destruct (getitem _ _); [|apply io_after_refl].
    destruct (decide _); [|apply io_after_refl].
    destruct (loop_tags !! cursor st); apply io_after_refl.
  - destruct (getitem _ _); [|apply io_after_refl].
    simpl. split; [by apply prefix_app_r|done].
  - pose proof (io_getchar_after (world st)) as H.
    destruct (io_getchar (world st)) as [[e|value] w]; [done|].
    case_store Hs; [done|]. by rewrite (store_world _ _ _ Hs).
  - apply io_after_refl.
Qed.

Lemma run_io_after fuel :
  ∀ st, io_after (world st)
          (world (outcome_state (run fuel source loop_tags cells st))).
Proof.
  induction fuel as [|fuel IH]; intros st; simpl; [apply io_after_refl|].
  unfold step. destruct (source !! cursor st); [|apply io_after_refl].
  pose proof (exec_io_after a st) as H.
  destruct (exec loop_tags cells a st) as [[e st']|st']; [done|].
  eapply io_after_trans; [exact H|]. apply (IH (set_cursor _ st')).
Qed.

End Channel.

(** *** Where the cursor goes *)

Section Cursor.
Variables (source : text) (tags : gmap nat nat) (cells : Z).
Hypothesis Htags : construct_tags source = inr tags.

Lemma tags_matched i j :
  tags !! i = Some j → matched source i j ∨ matched source j i.
Proof.
  intros Hij. pose proof (Resolver.construct_tags_spec source) as H.
  rewrite Htags in H. destruct H as (_ & H1 & _).
  destruct (H1 i j Hij) as [[_ ?]|[_ ?]]; eauto.
Qed.

Lemma step_cursor_range st st' :
  step source tags cells st = Running st' →
  cursor st' ≤ length source ∧
  (jumps source st →
   (source !! cursor st = Some "[" ∧
    ∃ j, matched source (cursor st) j ∧ cursor st' = S j) ∨
   (source !! cursor st = Some "]" ∧
    ∃ i, matched source i (cursor st) ∧ cursor st' = S i)).
Proof.
  intros Hstep.
  assert (cursor st < length source) as Hlt.
  { unfold step in Hstep.
    destruct (source !! cursor st) eqn:E; [|done]. by eapply lookup_lt_Some. }
  destruct (Execution.step_cursor _ _ _ _ _ Hstep)
    as [[Hno ->]|[Hj (target & Htarget & ->)]].
  - split; [lia|]. tauto.
  - destruct (tags_matched _ _ Htarget) as [Hm|Hm].
    + pose proof (lookup_lt_Some _ _ _ (proj1 (proj2 Hm))).
      split; [lia|]. intros _. left. split; [apply Hm|].
      exists target. split; [done|lia].
    + pose proof (lookup_lt_Some _ _ _ (proj1 Hm)).
      split; [lia|]. intros _. right. split; [apply Hm|].
      exists target. split; [done|lia].
Qed.

Lemma run_cursor_range fuel :
  ∀ st, cursor st ≤ length source →
        cursor (outcome_state (run fuel source tags cells st))
          ≤ length source.
Proof.
  induction fuel as [|fuel IH]; intros st Hst; simpl; [done|].
  destruct (step source tags cells st) as [s|s|e s] eqn:Hstep; simpl.
  - apply IH. by destruct (step_cursor_range _ _ Hstep).
  - apply Execution.step_halted in Hstep as [_ ->]. done.
  - unfold step in Hstep. destruct (source !! cursor st); [|done].
    assert (∀ char r, exec tags cells char st = inl r →
                      cursor r.2 = cursor st) as Hexec.
    { intros char [e' s'] H. unfold exec in H.
      repeat (destruct (decide (char = _)) as [->|?]);
        cbn -[store getitem] in H;
        repeat (match type of H with
                | context [decide ?P] => destruct (decide P)
                | context [getitem ?m ?p] => destruct (getitem m p)
                | context [tags !! ?k] => destruct (tags !! k)
                | context [store ?v ?s] => destruct (store v s)
                | context [io_getchar ?w] =>
                    destruct (io_getchar w) as [[?|?] ?]
                end; try discriminate H);
        try discriminate H; try (by injection H as <- <-). }
    destruct (exec tags cells a st) as [[e' s']|s'] eqn:He; [|done].
    injection Hstep as <- <-. specialize (Hexec _ _ He). simpl in Hexec. lia.
Qed.

End Cursor.

(** *** Programs without loops *)

Section Straight.
Variables (source : text) (loop_tags : gmap nat nat) (cells : Z).
Hypothesis Hstraight : ("[" ∉ source) ∧ ("]" ∉ source).

Lemma straight_no_jump st : ¬ jumps source st.
Proof.
  destruct Hstraight as [Ho Hc].
  intros [[H _]|[H _]]; apply list_elem_of_lookup_2 in H; tauto.
Qed.

Lemma run_straight fuel :
  ∀ st, cursor st ≤ length source → length source < cursor st + fuel →
        ∀ st', run fuel source loop_tags cells st ≠ Running st'.
Proof.
  induction fuel as [|fuel IH]; intros st Hst Hfuel st'; simpl; [lia|].
  destruct (step source loop_tags cells st) as [s|s|e s] eqn:Hstep;
    [|done|done].
  assert (cursor st < length source) as Hlt.
  { unfold step in Hstep.
    destruct (source !! cursor st) eqn:E; [|done]. by eapply lookup_lt_Some. }
  destruct (Execution.step_cursor _ _ _ _ _ Hstep) as [[_ Hs]|[Hj _]].
  - apply IH; lia.
  - by apply straight_no_jump in Hj.
Qed.

End Straight.

(** *** While something is buffered *)

Section Buffered.
Variables (source : text) (loop_tags : gmap nat nat) (cells : Z).

Lemma exec_keeps_buffer char st st' :
  iobuf (world st) ≠ [] →
  exec loop_tags cells char st = inr st' →
  iobuf (world st') = iobuf (world st).
Proof.
  intros Hbuf. unfold exec.
  repeat (destruct (decide (char = _)) as [->|?]); cbn -[store getitem].
  - destruct (decide _); [done|]. by intros [= <-].
  - destruct (decide _); [done|]. by intros [= <-].
  - destruct (getitem _ _); [|done]. case_store Hs; [done|].
    intros [= <-]. by rewrite (store_world _ _ _ Hs).
  - destruct (getitem _ _); [|done]. case_store Hs; [done|].
    intros [= <-]. by rewrite (store_world _ _ _ Hs).
  - destruct (getitem _ _); [|done].
    destruct (decide _); [|by intros [= <-]].
    destruct (loop_tags !! cursor st); [|done]. by intros [= <-].
  - destruct (getitem _ _); [|done].
    destruct (decide _); [|by intros [= <-]].
    destruct (loop_tags !! cursor st); [|done]. by intros [= <-].
  - destruct (getitem _ _); [|done]. by intros [= <-].
  - unfold io_getchar. destruct (iobuf (world st)); [done|]. done.
  - by intros [= <-].
Qed.

Lemma run_keeps_buffer fuel :
  ∀ st st',
    iobuf (world st) ≠ [] →
    run fuel source loop_tags cells st = Running st' →
    iobuf (world st') = iobuf (world st).
Proof.
  induction fuel as [|fuel IH]; intros st st' Hbuf; simpl;
    [by intros [= <-]|].
  unfold step. destruct (source !! cursor st) as [char|]; [|done].
  destruct (exec loop_tags cells char st) as [[e s]|s] eqn:Hexec; [done|].
  pose proof (exec_keeps_buffer _ _ _ Hbuf Hexec) as Hs.
  intros Hrun. rewrite <- Hs.
  assert (iobuf (world (set_cursor (cursor s + 1) s)) ≠ []) as Hbuf'
    by (simpl; by rewrite Hs).
  apply (IH _ _ Hbuf' Hrun).
Qed.

End Buffered.

(** *** How [main] ends *)

Lemma io_getchar_raises w e w' :
  io_getchar w = (inl e, w') →
  e = InterpreterError "interpreter does not accept multibyte characters" ∨
  e = InterpreterError "reached eof when scanning for input".
Proof.
  unfold io_getchar. destruct (iobuf w); [|discriminate]. simpl.
  destruct (decide _); [intros [= <- _]; by left|].
  destruct (encode _); [intros [= <- _]; by right|discriminate].
Qed.

Lemma handle_traceback e w e' w' :
  handle e w = Traceback e' w' → ∀ m, e' ≠ InterpreterError m.
Proof. destruct e; simpl; [done|intros [= <- _] m; discriminate..]. Qed.

Lemma handle_exit1 e w s w' :
  handle e w = Exit1 s w' →
  ∃ m, e = InterpreterError m ∧
       s = "fatal: " +:+ m +:+ String "010" EmptyString ∧ w' = w.
Proof. destruct e; simpl; [|done..]. intros [= <- <-]. by eexists. Qed.

Lemma read_until_char_raises fuel char w e w' :
  read_until_char fuel char w = Some (inl e, w') →
  ∀ m, e ≠ InterpreterError m.
Proof.
  unfold read_until_char. destruct (stdin_read chunk_size w) as [chunk w1].
  destruct (read_until_loop _ _ _ _ _) as [[[result chunk'] w2]|]; [|done].
  simpl. destruct (str_index _ _); [done|]. intros [= <- _] m. discriminate.
Qed.

Lemma construct_tags_covers (source : text) (tags : gmap nat nat) :
  construct_tags source = inr tags →
  well_formed source ∧ covers_brackets source tags ∧
  (∀ i j, tags !! i = Some j →
          matched source i j ∨ matched source j i).
Proof.
  intros Htags. pose proof (Resolver.construct_tags_spec source) as H.
  rewrite Htags in H. destruct H as (Hwf & H1 & H2).
  split; [done|]. split.
  - intros i [Hi|Hi].
    + destruct (Brackets.well_formed_open _ _ Hwf Hi) as [j Hm].
      destruct (H2 i j) as [? _]; [by eapply lookup_lt_Some|done|eauto].
    + destruct (Brackets.well_formed_close _ _ Hwf Hi) as [j Hm].
      destruct (H2 j i) as [_ ?]; [|done|eauto].
      eapply lookup_lt_Some. apply Hm.
  - intros i j Hij. destruct (H1 i j Hij) as [[_ ?]|[_ ?]]; eauto.
Qed.

(** X5.  Along every execution, ended or not, failed or not, the tape
    keeps the number of cells it was created with and every cell holds a
    byte, 0..255: no token ever stores anything else. *)
Theorem cells_stay_bytes (source : text) (loop_tags : gmap nat nat)
    (cells : Z) (w : io) (fuel : nat) :
  tape_ok (Z.to_nat cells)
    (outcome_state (run fuel source loop_tags cells (initial cells w))).
Proof.
  apply run_tape_ok. split; simpl.
  - apply Forall_replicate. lia.
  - apply length_replicate.
Qed.



(** X7.  Along every execution the channel only moves forward: what was
    written to standard output stays, as a prefix of the output; input and
    buffer are only consumed from the front.  No token rewinds the input or
    takes back output. *)
Theorem channel_only_moves_forward (source : text) (loop_tags : gmap nat nat)
    (cells : Z) (w : io) (fuel : nat) :
  io_after w
    (world (outcome_state (run fuel source loop_tags cells (initial cells w)))).
Proof. apply (run_io_after source loop_tags cells fuel (initial cells w)). Qed.

(** X8.  With the map that [construct_tags] returned, the cursor never
    goes beyond the end of the program: in every state of an execution it
    is at most the length of the program, also right after a jump. *)
Theorem cursor_never_leaves_program (source : text) (tags : gmap nat nat)
    (cells : Z) (w : io) (fuel : nat) :
  construct_tags source = inr tags →
  cursor (outcome_state (run fuel source tags cells (initial cells w)))
    ≤ length source.
Proof.
  intros Htags. apply run_cursor_range; [done|]. simpl. lia.
Qed.

Lemma cursor_never_leaves_program_witness :
  cursor (outcome_state (run 4 ["+"; "["; "-"; "]"] {[1 := 3; 3 := 1]} 3
                           (initial 3 no_io))) ≤ 4.
Proof.
  apply (cursor_never_leaves_program
           ["+"; "["; "-"; "]"] {[1 := 3; 3 := 1]} 3 no_io 4).
  by vm_compute.
Defined.

(** X9.  With the map that [construct_tags] returned, a turn that jumps
    resumes one past the partner of the bracket it stands on: from a
    loop-start, at the successor of the position of the loop-end that
    matches it, and from a loop-end, at the successor of the position of
    the loop-start that it matches. *)
Theorem jump_resumes_after_partner (source : text) (tags : gmap nat nat)
    (cells : Z) (st st' : state) :
  construct_tags source = inr tags →
  step source tags cells st = Running st' →
  jumps source st →
  (source !! cursor st = Some "[" ∧
   ∃ j, matched source (cursor st) j ∧ cursor st' = S j) ∨
  (source !! cursor st = Some "]" ∧
   ∃ i, matched source i (cursor st) ∧ cursor st' = S i).
Proof.
  intros Htags Hstep Hjump.
  by apply (proj2 (step_cursor_range source tags cells Htags st st' Hstep)).
Qed.

Lemma jump_resumes_after_partner_witness :
  (["+"; "["; "-"; "]"] !! 3 = Some "[" ∧
   ∃ j, matched ["+"; "["; "-"; "]"] 3 j ∧ 2 = S j) ∨
  (["+"; "["; "-"; "]"] !! 3 = Some "]" ∧
   ∃ i, matched ["+"; "["; "-"; "]"] i 3 ∧ 2 = S i).
Proof.
  apply (jump_resumes_after_partner ["+"; "["; "-"; "]"]
           {[1 := 3; 3 := 1]} 3
           {| machine := [1%Z; 0%Z; 0%Z]; pointer := 0; cursor := 3;
              world := no_io |}
           {| machine := [1%Z; 0%Z; 0%Z]; pointer := 0; cursor := 2;
              world := no_io |}).
  - by vm_compute.
  - reflexivity.
  - right. split; [reflexivity|]. exists 1%Z. split; [reflexivity|lia].
Defined.

(** X10.  A program without loop tokens ends within as many turns as it
    has tokens, plus the one that finds the end: after that many turns the
    execution has halted or failed, whatever the tape and the input. *)
Theorem straight_program_ends (source : text) (loop_tags : gmap nat nat)
    (cells : Z) (w : io) (fuel : nat) :
  "[" ∉ source → "]" ∉ source → length source < fuel →
  ∃ st, run fuel source loop_tags cells (initial cells w) = Halted st ∨
        ∃ e, run fuel source loop_tags cells (initial cells w) = Raised e st.
Proof.
  intros Ho Hc Hfuel.
  pose proof (run_straight source loop_tags cells (conj Ho Hc) fuel
                (initial cells w) ltac:(simpl; lia) Hfuel) as H.
  destruct (run fuel source loop_tags cells (initial cells w)) as [s|s|e s];
    [by destruct (H s)|eauto..].
Qed.

Lemma straight_program_ends_witness :
  ∃ st, run 3 ["+"; "."] ∅ 3 (initial 3 no_io) = Halted st ∨
        ∃ e, run 3 ["+"; "."] ∅ 3 (initial 3 no_io) = Raised e st.
Proof.
  apply (straight_program_ends ["+"; "."] ∅ 3 no_io 3).
  - by apply (bool_decide_unpack _).
  - by apply (bool_decide_unpack _).
  - simpl. lia.
Defined.

(** X11.  However [main] ends, no [InterpreterError] escapes it: an
    exception that nothing catches is never an [InterpreterError]; and
    when [main] exits with status 1, it has written one line
    [fatal: <message>] to standard error whose message is one that the
    interpreter raises itself: a mismatched bracket with its index, one of
    the two pointer bounds, multibyte input, or end of input.  Given a
    file whose brackets do not match, that is how it ends, with the
    channel as it was: nothing is executed.  A file that cannot be opened
    or read makes [main] end with the exception of [open] or [fp.read],
    raised before the [try]. *)
Theorem interpreter_errors_end_with_status_1 (fuel : nat)
    (arg : source_argument) (w : io) (result : ending) :
  BfiCli.main fuel arg w = Some result →
  (∀ e w', result = Traceback e w' → ∀ m, e ≠ InterpreterError m) ∧
  (∀ s w',
     result = Exit1 s w' →
     ∃ m,
       s = "fatal: " +:+ m +:+ String "010" EmptyString ∧
       ((∃ index,
           m = "mismatched bracket at index " +:+ format_d (Z.of_nat index))
        ∨ m ∈ RUNTIME_MESSAGES MINIMUM_TARGET_SIZE)) ∧
  (∀ content index,
     arg = Content content →
     construct_tags (clean_source content) = inl (mismatched index) →
     result =
       Exit1 ("fatal: " +:+ "mismatched bracket at index "
              +:+ format_d (Z.of_nat index) +:+ String "010" EmptyString) w) ∧
  (arg = Unreadable → result = ReadFailure w).
Proof.
  assert (∀ source w1,
    match interpret fuel source MINIMUM_TARGET_SIZE w1 with
    | inl e => Some (handle e w1)
    | inr (Running _) => None
    | inr (Halted st) => Some (Exit0 (world st))
    | inr (Raised e st) => Some (handle e (world st))
    end = Some result →
    (∀ e w', result = Traceback e w' → ∀ m, e ≠ InterpreterError m) ∧
    (∀ s w',
       result = Exit1 s w' →
       ∃ m,
         s = "fatal: " +:+ m +:+ String "010" EmptyString ∧
         ((∃ index,
             m = "mismatched bracket at index " +:+ format_d (Z.of_nat index))
          ∨ m ∈ RUNTIME_MESSAGES MINIMUM_TARGET_SIZE))) as Hinterpret.
  { intros source w1. unfold interpret.
    pose proof (Resolver.construct_tags_spec (clean_source source)) as Hspec.
    destruct (construct_tags (clean_source source)) as [e|tags] eqn:Htags.
    { destruct Hspec as (_ & index & _ & -> & _). intros [= <-].
      split; [done|]. intros s w' [= <- <-]. eexists. split; [done|].
      left. by exists index. }
    destruct (decide _) as [Hneg|_]; [done|].
    destruct (run fuel _ _ _ _) as [s0|s0|e s0] eqn:Hrun; [done| |].
    { intros [= <-]. by split. }
    intros [= <-]. split; [intros e' w'; apply handle_traceback|].
    intros s w' (m & -> & -> & _)%handle_exit1.
    exists m. split; [done|]. right.
    destruct (construct_tags_covers _ _ Htags) as (_ & Hcov & _).
    destruct (run_failure_point _ _ _ _ _ _ _ Hrun)
      as (n & st0 & _ & Hst0 & Hstep).
    assert (0 < MINIMUM_TARGET_SIZE)%Z as Hsize by reflexivity.
    assert (in_bounds MINIMUM_TARGET_SIZE st0) as Hb.
    { eapply Execution.run_in_bounds;
        [by apply (Execution.initial_in_bounds _ w1)|by left]. }
    destruct (step_failure _ _ _ _ _ _ Hb Hcov Hstep) as (char & _ & Hcases).
    unfold RUNTIME_MESSAGES. rewrite !elem_of_cons.
    destruct Hcases as [[_ [= ->]]|[[_ [= ->]]|[_ [[w2 Hin]|[_ [=]]]]]];
      [tauto..|].
    destruct (io_getchar_raises _ _ _ Hin) as [[= ->]|[= ->]]; tauto. }
  unfold BfiCli.main. destruct arg as [| |content].
  - destruct (read_until_char fuel "!" w) as [[[e|source] w1]|] eqn:Hread;
      simpl; [| |done].
    + intros [= <-]. split; [|by repeat split].
      intros e' w' [= <- _]. by eapply read_until_char_raises.
    + intros Hresult. destruct (Hinterpret _ _ Hresult). by repeat split.
  - intros [= <-]. by repeat split.
  - simpl. intros Hresult. destruct (Hinterpret _ _ Hresult) as [H1 H2].
    split; [done|]. split; [done|]. split; [|done].
    intros content' index [= <-] Htags. unfold interpret in Hresult.
    rewrite Htags in Hresult. by injection Hresult as <-.
Qed.

Lemma interpreter_errors_end_with_status_1_witness :
  (∀ e w',
     Exit1 ("fatal: " +:+ "mismatched bracket at index " +:+ format_d 0
            +:+ String "010" EmptyString) no_io = Traceback e w' →
     ∀ m, e ≠ InterpreterError m) ∧
  (∀ s w',
     Exit1 ("fatal: " +:+ "mismatched bracket at index " +:+ format_d 0
            +:+ String "010" EmptyString) no_io = Exit1 s w' →
     ∃ m,
       s = "fatal: " +:+ m +:+ String "010" EmptyString ∧
       ((∃ index,
           m = "mismatched bracket at index " +:+ format_d (Z.of_nat index))
        ∨ m ∈ RUNTIME_MESSAGES MINIMUM_TARGET_SIZE)) ∧
  (∀ content index,
     Content ["]"] = Content content →
     construct_tags (clean_source content) = inl (mismatched index) →
     Exit1 ("fatal: " +:+ "mismatched bracket at index " +:+ format_d 0
            +:+ String "010" EmptyString) no_io =
       Exit1 ("fatal: " +:+ "mismatched bracket at index "
              +:+ format_d (Z.of_nat index) +:+ String "010" EmptyString)
         no_io) ∧
  (Content ["]"] = Unreadable →
   Exit1 ("fatal: " +:+ "mismatched bracket at index " +:+ format_d 0
          +:+ String "010" EmptyString) no_io = ReadFailure no_io).
Proof.
  apply (interpreter_errors_end_with_status_1 1 (Content ["]"]) no_io).
  by vm_compute.
Defined.

(** X12.  While the buffer holds anything, no input token stores a byte:
    the buffer is untouched up to the first input token that is reached,
    and that token takes the first buffered item off the buffer and fails
    with [TypeError], standard input not being read. *)
Theorem buffered_input_is_never_stored (source : text)
    (loop_tags : gmap nat nat) (cells : Z) (w : io) (fuel : nat)
    (st : state) (item : ascii) (rest : text) :
  iobuf w = item :: rest →
  run fuel source loop_tags cells (initial cells w) = Running st →
  source !! cursor st = Some "," →
  iobuf (world st) = item :: rest ∧
  step source loop_tags cells st =
    Raised TypeError (set_world (set_iobuf rest (world st)) st).
Proof.
  intros Hbuf Hrun Hchar.
  assert (iobuf (world st) = item :: rest) as Hst.
  { rewrite <- Hbuf.
    apply (run_keeps_buffer source loop_tags cells fuel (initial cells w));
      [|done].
    simpl. by rewrite Hbuf. }
  split; [done|]. unfold step. rewrite Hchar. unfold exec.
  repeat (destruct (decide _) as [?|?]; [discriminate|]).
  destruct (decide _); [|done]. unfold io_getchar. by rewrite Hst.
Qed.

Lemma buffered_input_is_never_stored_witness :
  let w := {| iobuf := ["!"; "a"]; stdin := ["b"]; stdout := [] |} in
  iobuf (world (initial 3 w)) = ["!"; "a"] ∧
  step [","] ∅ 3 (initial 3 w) =
    Raised TypeError
      (set_world (set_iobuf ["a"] (world (initial 3 w))) (initial 3 w)).
Proof.
  apply (buffered_input_is_never_stored [","] ∅ 3
           {| iobuf := ["!"; "a"]; stdin := ["b"]; stdout := [] |} 0
           (initial 3 {| iobuf := ["!"; "a"]; stdin := ["b"]; stdout := [] |})
           "!" ["a"]).
  - reflexivity.
  - reflexivity.
  - reflexivity.
Defined.

(** X2.  With nothing buffered, an input token that does not fail has
    taken exactly one character from standard input, a character below
    128, and has stored its code in the cell at the pointer; nothing else
    of the tape, the pointer and standard output change, and the cursor
    moves on by one.  So input never stores a value from 128 on. *)
Theorem input_token_stores_seven_bit_code (source : text)
    (loop_tags : gmap nat nat) (cells : Z) (st st' : state) :
  in_bounds cells st → iobuf (world st) = [] →
  source !! cursor st = Some "," →
  step source loop_tags cells st = Running st' →
  ∃ c rest,
    stdin (world st) = c :: rest ∧
    (Z.of_N (N_of_ascii c) < 128)%Z ∧
    st' =
      {| machine :=
           <[Z.to_nat (pointer st) := Z.of_N (N_of_ascii c)]> (machine st);
         pointer := pointer st;
         cursor := cursor st + 1;
         world := set_stdin rest (world st) |}.
Proof.
  intros Hb Hbuf Hchar. unfold step. rewrite Hchar. unfold exec.
  repeat (destruct (decide _) as [?|?]; [discriminate|]).
  destruct (decide _); [|done].
  pose proof (Replay.io_getchar_unbuffered (world st) Hbuf) as Hget.
  destruct (stdin (world st)) as [|c rest]; [by rewrite Hget|].
  simpl in Hget. destruct (decide _) as [Hlt|Hge]; [|by rewrite Hget].
  destruct Hget as [-> Hc]. cbn -[store].
  unfold store, setitem.
  destruct (decide _); [|lia].
  rewrite (Tokens.py_index_in_bounds cells (set_world _ st))
    by (by apply Execution.in_bounds_set_world).
  simpl. intros [= <-]. by exists c, rest.
Qed.

Lemma input_token_stores_seven_bit_code_witness :
  ∃ c rest,
    stdin (world (initial 3 {| iobuf := []; stdin := ["a"; "b"];
                                stdout := [] |})) = c :: rest ∧
    (Z.of_N (N_of_ascii c) < 128)%Z ∧
    {| machine := [97%Z; 0%Z; 0%Z]; pointer := 0; cursor := 1;
       world := {| iobuf := []; stdin := ["b"]; stdout := [] |} |} =
      {| machine :=
           <[Z.to_nat 0 := Z.of_N (N_of_ascii c)]> [0%Z; 0%Z; 0%Z];
         pointer := 0;
         cursor := 0 + 1;
         world := set_stdin rest {| iobuf := []; stdin := ["a"; "b"];
                                    stdout := [] |} |}.
Proof.
  apply (input_token_stores_seven_bit_code [","] ∅ 3
           (initial 3 {| iobuf := []; stdin := ["a"; "b"]; stdout := [] |})
           {| machine := [97%Z; 0%Z; 0%Z]; pointer := 0; cursor := 1;
              world := {| iobuf := []; stdin := ["b"]; stdout := [] |} |}).
  - split; [simpl; lia|reflexivity].
  - reflexivity.
  - reflexivity.
  - reflexivity.
Defined.

End Runs.

(** ** The generated program as a whole *)

Module Assembly.
Import Bfc BfcCli.

(** *** The number of cells *)

Lemma produce_instruction_cells size self :
  produce_instruction (set_num_cells size self) =
    match produce_instruction self with
    | inl e => inl e
    | inr None => inr None
    | inr (Some (instruction, self')) =>
        inr (Some (instruction, set_num_cells size self'))
    end.
Proof.
  destruct (decide (cursor self = length (source self))) as [Hend|Hend].
  { unfold produce_instruction. simpl.
    by repeat (destruct (decide _); [|done]). }
  destruct (source self !! cursor self) as [char|] eqn:Hchar.
  - assert (source (set_num_cells size self) !! cursor (set_num_cells size self)
            = Some char) as Hchar' by done.
    destruct (decide (char ∈ ["<"; ">"])) as [Hs|Hs].
    { by rewrite (Folding.produce_instruction_shift _ _ Hchar' Hs),
        (Folding.produce_instruction_shift _ _ Hchar Hs). }
    destruct (decide (char ∈ ["+"; "-"])) as [Hm|Hm].
    { by rewrite (Folding.produce_instruction_mutate _ _ Hchar' Hm),
        (Folding.produce_instruction_mutate _ _ Hchar Hm). }
    rewrite (Folding.produce_instruction_other _ _ Hchar' Hs Hm),
      (Folding.produce_instruction_other _ _ Hchar Hs Hm).
    change (produce_loop_start (reset (set_num_cells size self)))
      with (produce_loop_start (reset self)).
    change (produce_loop_end (reset (set_num_cells size self)))
      with (produce_loop_end (reset self)).
    by destruct (if decide (char = "[") then _ else _).
  - unfold produce_instruction. simpl.
    destruct (decide _); [done|].
    unfold produce_shift_instruction. simpl. by rewrite Hchar.
Qed.

Lemma compile_loop_cells size fuel :
  ∀ self output,
    compile_loop fuel (set_num_cells size self) output =
      compile_loop fuel self output.
Proof.
  induction fuel as [|fuel IH]; intros self output; simpl; [done|].
  rewrite produce_instruction_cells.
  destruct (produce_instruction self) as [e|[[instruction self']|]];
    [done| |done].
  apply IH.
Qed.

Lemma compile_loop_output fuel :
  ∀ self output,
    compile_loop fuel self output =
      match compile_loop fuel self EmptyString with
      | Some (inr body) => Some (inr (output +:+ body))
      | r => r
      end.
Proof.
  induction fuel as [|fuel IH]; intros self output; simpl; [done|].
  destruct (produce_instruction self) as [e|[[instruction self']|]];
    [done| |done].
  rewrite (IH self' (output +:+ instruction)).
  change (EmptyString +:+ instruction) with instruction.
  rewrite (IH self' instruction).
  destruct (compile_loop fuel self' EmptyString) as [[e|body]|]; [done| |done].
  by rewrite Emission.append_assoc.
Qed.

(** X13.  [compile] always returns, whatever the source and the number of
    cells: it raises "missing matching bracket", for every number of
    cells, or it returns the header for that number of cells followed by
    a text that does not depend on it and ends with [call cleanup].  The
    number of cells shows in the header only. *)
Theorem tape_size_shows_in_header_only (source_code : text) :
  (∀ size, compile (init source_code size) = Some (inl missing)) ∨
  (∃ body, ∀ size,
     compile (init source_code size) =
       Some (inr (produce_header (init source_code size) +:+ body
                  +:+ "call cleanup"))).
Proof.
  assert (∀ size,
    compile (init source_code size) =
      match compile_loop (S (length (normalize source_code)))
              (init source_code 0) EmptyString with
      | Some (inr body) =>
          Some (inr (produce_header (init source_code size) +:+ body))
      | r => r
      end) as Hsize.
  { intros size. unfold compile.
    change (init source_code size)
      with (set_num_cells size (init source_code 0)) at 2.
    rewrite compile_loop_cells. apply compile_loop_output. }
  destruct (Emission.compile_loop_spec 0 (S (length (normalize source_code)))
              (init source_code 0) EmptyString) as [[H _]|(ls & H & _)];
    [simpl; lia|simpl; lia| |].
  - left. intros size. by rewrite Hsize, H.
  - right. exists (unlines ls). intros size. by rewrite Hsize, H.
Qed.

(** X14.  [compile] returns a text exactly for the sources whose program
    is well-formed and does not start with a loop-start; every other source
    makes it raise.  The second condition is the compiler's own: the
    backward scan of a loop-end stops before position 0. *)
Theorem compile_accepts_exactly (source_code : text) (size : Z) :
  (∃ out, compile (init source_code size) = Some (inr out)) ↔
  well_formed (normalize source_code) ∧
  normalize source_code !! 0 ≠ Some "[".
Proof. apply Scans.compile_accepts_iff. Qed.

(** *** The scans *)

(** X15.  The forward scan of the compiler and the forward scan of the
    interpreter are the same function of the program and the position:
    where [tag_lookahead] returns a position, [__lookahead] finds that
    position, and where one raises, so does the other. *)
Theorem forward_scans_agree (self : BFCompiler) :
  lookahead_index self =
    match Bfi.tag_lookahead (source self) (cursor self) with
    | inr j => inr (Z.of_nat j)
    | inl _ => inl missing
    end.
Proof. apply Brackets.lookahead_index_agrees. Qed.

(** X16.  From a loop-end at position [k], the backward scan of the
    compiler returns a position exactly when the loop-end has a partner
    that is not at position 0, and then it returns the partner; in every
    other case it raises "missing matching bracket". *)
Theorem backward_scan_finds_partner_unless_first (program : text) (k : nat) :
  program !! k = Some "]" →
  (∀ i, lookbehind_index (at_cursor program k) = inr i ↔
        ∃ i', i = Z.of_nat i' ∧ 1 ≤ i' ∧ matched program i' k) ∧
  (∀ e, lookbehind_index (at_cursor program k) = inl e → e = missing).
Proof.
  intros Hk. pose proof (lookup_lt_Some _ _ _ Hk) as Hlt. split.
  - intros i. split.
    + intros H.
      destruct (Brackets.lookbehind_index_sound _ _ _ Hlt H)
        as (i' & -> & ? & ? & ? & ?).
      exists i'. by repeat split.
    + intros (i' & -> & Hi & Hm).
      by apply Scans.lookbehind_index_complete.
  - intros e. apply Emission.lookbehind_index_error. simpl. lia.
Qed.

Lemma backward_scan_finds_partner_unless_first_witness :
  (∀ i, lookbehind_index (at_cursor ["+"; "["; "]"] 2) = inr i ↔
        ∃ i', i = Z.of_nat i' ∧ 1 ≤ i' ∧ matched ["+"; "["; "]"] i' 2) ∧
  (∀ e, lookbehind_index (at_cursor ["+"; "["; "]"] 2) = inl e → e = missing).
Proof.
  apply (backward_scan_finds_partner_unless_first ["+"; "["; "]"] 2).
  reflexivity.
Defined.

(** *** Labels and loop groups *)

Lemma produce_loop_start_matched self i j :
  cursor self = i → matched (source self) i j →
  produce_loop_start self = inr (loop_group "je" i j).
Proof.
  intros <- Hm. unfold produce_loop_start, lookahead.
  rewrite Brackets.lookahead_index_agrees.
  apply (Brackets.tag_lookahead_matched _ _ _ (proj1 Hm)) in Hm.
  by rewrite Hm.
Qed.

Lemma produce_loop_end_matched self i j :
  cursor self = j → matched (source self) i j → 1 ≤ i →
  produce_loop_end self = inr (loop_group "jne" j i).
Proof.
  intros <- Hm Hi. unfold produce_loop_end, lookbehind.
  change (lookbehind_index self)
    with (lookbehind_index (at_cursor (source self) (cursor self))).
  by rewrite (Scans.lookbehind_index_complete _ _ _ Hm Hi).
Qed.

(** X17.  For a loop-start at [i] matched by a loop-end at [j], [i] not
    being position 0: the group of the loop-start defines the label of [i]
    and jumps, on a zero cell, to the label of [j]; the group of the
    loop-end defines the label of [j] and jumps, on a nonzero cell, to the
    label of [i].  Each of the two jumps to the label that the other
    defines. *)
Theorem loop_groups_name_each_other (self : BFCompiler) (i j : nat) :
  matched (source self) i j → 1 ≤ i →
  produce_loop_start (set_cursor i self) = inr (loop_group "je" i j) ∧
  produce_loop_end (set_cursor j self) = inr (loop_group "jne" j i).
Proof.
  intros Hm Hi. split.
  - by apply produce_loop_start_matched.
  - by apply produce_loop_end_matched.
Qed.

Lemma loop_groups_name_each_other_witness :
  produce_loop_start (set_cursor 1 (init ["+"; "["; "-"; "]"] 30000)) =
    inr (loop_group "je" 1 3) ∧
  produce_loop_end (set_cursor 3 (init ["+"; "["; "-"; "]"] 30000)) =
    inr (loop_group "jne" 3 1).
Proof.
  apply (loop_groups_name_each_other (init ["+"; "["; "-"; "]"] 30000) 1 3).
  - repeat split. lia.
  - lia.
Defined.

(** X18.  Two positions never share a label. *)
Theorem labels_are_distinct (i j : Z) :
  i ≠ j → get_label i ≠ get_label j.
Proof.
  intros Hij H. apply Hij. unfold get_label in H.
  change (String "t" (String "a" (String "g" (String "_" (format_d i)))) =
          String "t" (String "a" (String "g" (String "_" (format_d j)))))
    in H.
  injection H as H. by apply pretty_Z_inj in H.
Qed.

Lemma labels_are_distinct_witness : get_label 1 ≠ get_label 2.
Proof. apply (labels_are_distinct 1 2). lia. Defined.

(** *** The two backends *)

(** X19.  Every source that the compiler accepts, the interpreter accepts
    too: when [compile] returns a text, [construct_tags] returns a map for
    the same source, and [interpret] starts the execution for any number of
    cells that is not negative. *)
Theorem compiler_accepts_no_more_than_interpreter (source_code : text)
    (size : Z) (out : string) :
  compile (init source_code size) = Some (inr out) →
  ∃ tags,
    Bfi.construct_tags (Bfi.clean_source source_code) = inr tags ∧
    ∀ fuel cells w,
      (0 ≤ cells)%Z →
      Bfi.interpret fuel source_code cells w =
        inr (Bfi.run fuel (Bfi.clean_source source_code) tags cells
               (Bfi.initial cells w)).
Proof.
  intros Hc.
  destruct (proj1 (Scans.compile_accepts_iff source_code size)) as [Hwf _];
    [by exists out|].
  change (normalize source_code) with (Bfi.clean_source source_code) in Hwf.
  pose proof (Resolver.construct_tags_spec (Bfi.clean_source source_code))
    as Hspec.
  destruct (Bfi.construct_tags (Bfi.clean_source source_code))
    as [e|tags] eqn:Htags; [by destruct Hspec|].
  exists tags. split; [done|]. intros fuel cells w Hcells.
  unfold Bfi.interpret. rewrite Htags.
  destruct (decide (cells < 0)%Z); [lia|done].
Qed.

Lemma compiler_accepts_no_more_than_interpreter_witness :
  ∃ tags,
    Bfi.construct_tags (Bfi.clean_source ["+"; "x"]) = inr tags ∧
    ∀ fuel cells w,
      (0 ≤ cells)%Z →
      Bfi.interpret fuel ["+"; "x"] cells w =
        inr (Bfi.run fuel (Bfi.clean_source ["+"; "x"]) tags cells
               (Bfi.initial cells w)).
Proof.
  apply (compiler_accepts_no_more_than_interpreter ["+"; "x"] 30000
           (compiled ["+"; "x"] 30000)).
  by vm_compute.
Defined.

End Assembly.

(** ** Which bracket the interpreter reports *)

Module Diagnosis.
Import Bfi Brackets Resolver.

Section First.
Variable source : text.

Lemma matched_not_unmatched i j :
  matched source i j → ¬ unmatched source i ∧ ¬ unmatched source j.
Proof.
  intros Hm. split.
  - intros [[_ Hno]|[Hclose _]]; [by apply (Hno j)|].
    destruct Hm as [Hopen _]. congruence.
  - intros [[Hopen _]|[_ Hno]]; [|by apply (Hno i)].
    destruct Hm as (_ & Hclose & _). congruence.
Qed.

Lemma construct_tags_loop_first n :
  ∀ k tags e,
    k + n = length source → tags_upto source k tags →
    construct_tags_loop source (seq k n) tags = inl e →
    ∃ index, k ≤ index < length source ∧ e = mismatched index ∧
             unmatched source index ∧
             ∀ i, k ≤ i < index → ¬ unmatched source i.
Proof.
  induction n as [|n IH]; intros k tags e Hlen Hinv; simpl; [done|].
  destruct (lookup_lt_is_Some_2 source k) as [char Hchar]; [lia|].
  rewrite Hchar.
  assert (∀ tags',
    ¬ unmatched source k → tags_upto source (S k) tags' →
    construct_tags_loop source (seq (S k) n) tags' = inl e →
    ∃ index, k ≤ index < length source ∧ e = mismatched index ∧
             unmatched source index ∧
             ∀ i, k ≤ i < index → ¬ unmatched source i) as Hnext.
  { intros tags' Hk Hinv' Hrun.
    destruct (IH (S k) tags' e ltac:(lia) Hinv' Hrun)
      as (index & ? & ? & ? & Hbefore).
    exists index. repeat split; [lia|lia|done|done|].
    intros i Hi. destruct (decide (i = k)) as [->|]; [done|].
    apply Hbefore. lia. }
  destruct (decide (char = "[")) as [->|Hopen].
  { destruct (tag_lookahead source k) as [e'|j] eqn:Hj.
    - intros [= ->]. exists k. repeat split; [lia|lia| | |intros i; lia].
      + by eapply tag_lookahead_error.
      + left. split; [done|]. intros j Hm.
        apply (tag_lookahead_matched _ _ _ Hchar) in Hm. congruence.
    - apply (tag_lookahead_matched _ _ _ Hchar) in Hj.
      apply Hnext; [by apply (matched_not_unmatched _ _ Hj)|].
      by apply tags_upto_insert. }
  assert (tags_upto source (S k) tags) as Hinv' by by eapply tags_upto_skip.
  destruct (decide (char = "]")) as [->|Hclose].
  { destruct (decide (is_Some (tags !! k))) as [[i Hi]|Hnone].
    - apply Hnext; [|done].
      destruct Hinv as [H1 _].
      destruct (H1 _ _ Hi) as [[? Hm]|[? Hm]].
      + by apply (matched_not_unmatched _ _ Hm).
      + by apply (matched_not_unmatched _ _ Hm).
    - intros [= <-]. exists k. repeat split; [lia|lia| |intros i; lia].
      right. split; [done|]. intros i Hm. apply Hnone.
      destruct Hinv as [_ H2].
      destruct (H2 i k) as [_ Hk]; [|done|eauto].
      destruct Hm as (_ & _ & ? & _). lia. }
  apply Hnext; [|done].
  intros [[? _]|[? _]]; congruence.
Qed.

End First.

(** X20.  When [construct_tags] raises, the position in its message is
    the first bracket of the program that has no partner: that bracket is
    unmatched, and every bracket before it has one. *)
Theorem error_names_first_unmatched_bracket (source : text) (e : exn) :
  construct_tags source = inl e →
  ∃ index, index < length source ∧ e = mismatched index ∧
           unmatched source index ∧
           ∀ i, i < index → ¬ unmatched source i.
Proof.
  intros H.
  destruct (construct_tags_loop_first source (length source) 0 ∅ e eq_refl
              (tags_upto_empty source) H) as (index & ? & ? & ? & Hbefore).
  exists index. repeat split; [lia|done|done|].
  intros i Hi. apply Hbefore. lia.
Qed.

Lemma error_names_first_unmatched_bracket_witness :
  ∃ index, index < length ["["; "]"; "]"; "["] ∧
           mismatched 2 = mismatched index ∧
           unmatched ["["; "]"; "]"; "["] index ∧
           ∀ i, i < index → ¬ unmatched ["["; "]"; "]"; "["] i.
Proof.
  apply (error_names_first_unmatched_bracket ["["; "]"; "]"; "["]
           (mismatched 2)).
  reflexivity.
Defined.

End Diagnosis.

(** ** The compiler's [main] *)

Module Driver.
Import Bfc BfcCli.

Lemma compile_returns (source_code : text) (size : Z) :
  compile (init source_code size) = Some (inl missing) ∨
  ∃ out, compile (init source_code size) = Some (inr out).
Proof.
  destruct (Emission.compile_spec source_code size) as [[H _]|(ls & H & _)];
    eauto.
Qed.

Lemma assemble_and_link_ends env code path :
  (assemble_and_link env code path).2 = Return ∨
  (assemble_and_link env code path).2 = Exit 1 ∧
  ∃ ev, ev ∈ (assemble_and_link env code path).1 ∧ is_message ev.
Proof.
  unfold assemble_and_link.
  destruct (which_as env) as [assembler|]; simpl.
  - destruct (which_ld env) as [linker|]; simpl.
    + destruct (run_as env assembler code) as [returncode stderr].
      destruct (decide _); simpl.
      * right. split; [done|]. eexists (StderrWrite _). split; [|exact I].
        rewrite !elem_of_cons. eauto 10.
      * destruct (run_ld env linker path) as [returncode' stderr'].
        destruct (decide _); simpl; [|by left].
        right. split; [done|]. eexists (StderrWrite _). split; [|exact I].
        rewrite !elem_of_cons. eauto 10.
    + right. split; [done|]. eexists (StderrWrite _). split; [|exact I].
      rewrite !elem_of_cons. eauto 10.
  - right. split; [done|]. eexists (StderrWrite _). split; [|exact I].
    rewrite !elem_of_cons. eauto 10.
Qed.

Local Ltac tools_done Eas :=
  first
    [ solve [repeat split; eauto]
    | repeat split; try done;
      eexists; repeat split; try done; [by rewrite Eas|by eexists] ].

Lemma assemble_and_link_tools env code path :
  let events := (assemble_and_link env code path).1 in
  (∀ a c, Assemble a c ∈ events →
     which_as env = Some a ∧ is_Some (which_ld env) ∧ c = code) ∧
  (∀ l p, Link l p ∈ events →
     which_ld env = Some l ∧ p = path ∧
     ∃ a, which_as env = Some a ∧ (run_as env a code).1 = 0%Z ∧
          ∃ rest, events = Assemble a code :: Link l p :: rest).
Proof.
  unfold assemble_and_link.
  destruct (which_as env) as [assembler|]; simpl.
  - destruct (which_ld env) as [linker|]; simpl.
    + destruct (run_as env assembler code) as [returncode stderr] eqn:Eas.
      destruct (decide (returncode ≠ 0%Z)) as [Hne|Heq]; simpl.
      * split; intros x y; rewrite !elem_of_cons, elem_of_nil;
          intros [H|[H|[H|[]]]]; try discriminate H.
        injection H as -> ->. eauto.
      * assert (returncode = 0%Z) as -> by lia.
        destruct (run_ld env linker path) as [returncode' stderr'].
        destruct (decide _); simpl.
        -- split; intros x y; rewrite !elem_of_cons, elem_of_nil;
             intros [H|[H|[H|[H|[]]]]]; try discriminate H;
             injection H as -> ->; tools_done Eas.
        -- split; intros x y; rewrite !elem_of_cons, elem_of_nil;
             intros [H|[H|[]]]; try discriminate H;
             injection H as -> ->; tools_done Eas.
    + split; intros x y; rewrite !elem_of_cons, elem_of_nil;
        intros [H|[]]; discriminate H.
  - split; intros x y; rewrite !elem_of_cons, elem_of_nil;
      intros [H|[]]; discriminate H.
Qed.

Lemma assemble_and_link_writes_nothing env code path :
  ∀ ev, ev ∈ (assemble_and_link env code path).1 →
        match ev with
        | StdoutWrite _ | FileWrite _ _ | Print _ => False
        | _ => True
        end.
Proof.
  intros ev. unfold assemble_and_link.
  destruct (which_as env) as [assembler|]; simpl.
  - destruct (which_ld env) as [linker|]; simpl.
    + destruct (run_as env assembler code) as [returncode stderr].
      destruct (decide _); simpl.
      * rewrite !elem_of_cons, elem_of_nil. by intros [->|[->|[->|[]]]].
      * destruct (run_ld env linker path) as [returncode' stderr'].
        destruct (decide _); simpl; rewrite !elem_of_cons, elem_of_nil.
        -- by intros [->|[->|[->|[->|[]]]]].
        -- by intros [->|[->|[]]].
    + rewrite !elem_of_cons, elem_of_nil. by intros [->|[]].
  - rewrite !elem_of_cons, elem_of_nil. by intros [->|[]].
Qed.

(** X21.  The "missing matching bracket" failure of [compile] escapes
    [main], caught by nothing, exactly when the size is accepted and the
    program is not one that [compile] accepts; nothing has been written
    then and no tool has run.  Whenever [main] exits with status 1, it
    has first told why, on standard error or on standard output.  And a
    size below 30000 is refused before the program is looked at: the one
    line is printed and [main] exits, whatever the program. *)
Theorem bracket_failure_escapes_main (env : environment) (opts : options)
    (events : list event) (ending : ending) :
  main env opts = Some (events, ending) →
  (ending = Uncaught missing ↔
     (MINIMUM_TARGET_SIZE ≤ opt_target_size opts)%Z ∧
     ¬ (well_formed (normalize (opt_source opts)) ∧
        normalize (opt_source opts) !! 0 ≠ Some "[")) ∧
  (ending = Uncaught missing → events = []) ∧
  (ending = Exit 1 → ∃ ev, ev ∈ events ∧ is_message ev) ∧
  ((opt_target_size opts < MINIMUM_TARGET_SIZE)%Z →
   events = [Print SIZE_MESSAGE] ∧ ending = Exit 1).
Proof.
  unfold main.
  destruct (decide (opt_target_size opts < MINIMUM_TARGET_SIZE)%Z)
    as [Hsmall|Hsize].
  { intros [= <- <-]. split; [|split; [done|split; [|done]]].
    - split; [done|]. intros [? _]. lia.
    - intros _. eexists. split; [apply list_elem_of_here|exact I]. }
  pose proof (Scans.compile_accepts_iff (opt_source opts)
                (opt_target_size opts)) as Hacc.
  destruct (compile_returns (opt_source opts) (opt_target_size opts))
    as [H|[out H]]; rewrite H; simpl.
  { intros [= <- <-]. split; [|split; [done|split; [done|lia]]].
    split; [|done]. intros _. split; [lia|].
    intros Hok. apply Hacc in Hok as [out' Hout]. congruence. }
  assert (¬ ((MINIMUM_TARGET_SIZE ≤ opt_target_size opts)%Z ∧
             ¬ (well_formed (normalize (opt_source opts)) ∧
                normalize (opt_source opts) !! 0 ≠ Some "["))) as Hno.
  { intros [_ Hrej]. apply Hrej, Hacc. eauto. }
  assert (∀ evs e,
    e ≠ Uncaught missing →
    (e = Exit 1 → ∃ ev, ev ∈ evs ∧ is_message ev) →
    (e = Uncaught missing ↔
       (MINIMUM_TARGET_SIZE ≤ opt_target_size opts)%Z ∧
       ¬ (well_formed (normalize (opt_source opts)) ∧
          normalize (opt_source opts) !! 0 ≠ Some "[")) ∧
    (e = Uncaught missing → evs = []) ∧
    (e = Exit 1 → ∃ ev, ev ∈ evs ∧ is_message ev) ∧
    ((opt_target_size opts < MINIMUM_TARGET_SIZE)%Z →
     evs = [Print SIZE_MESSAGE] ∧ e = Exit 1)) as Hrest.
  { intros evs e Hne Hmsg. split; [by split|]. split; [done|].
    split; [done|lia]. }
  destruct (opt_assemble_only opts).
  - destruct (opt_output opts) as [output|].
    + destruct (can_write env output); intros [= <- <-]; apply Hrest;
        try done.
      intros _. eexists. split; [apply list_elem_of_here|exact I].
    + intros [= <- <-]. by apply Hrest.
  - destruct (opt_output opts) as [output|].
    + intros [= Hev].
      pose proof (assemble_and_link_ends env out output) as Hends.
      rewrite Hev in Hends. simpl in Hends.
      destruct Hends as [->|[-> Hmsg]]; by apply Hrest.
    + intros [= <- <-]. apply Hrest; [done|].
      intros _. eexists. split; [apply list_elem_of_here|exact I].
Qed.

Lemma bracket_failure_escapes_main_witness :
  (Uncaught missing = Uncaught missing ↔
     (MINIMUM_TARGET_SIZE ≤ 30000)%Z ∧
     ¬ (well_formed (normalize ["["; "]"]) ∧
        normalize ["["; "]"] !! 0 ≠ Some "[")) ∧
  (Uncaught missing = Uncaught missing → @nil event = []) ∧
  (Uncaught missing = Exit 1 → ∃ ev, ev ∈ @nil event ∧ is_message ev) ∧
  ((30000 < MINIMUM_TARGET_SIZE)%Z →
   @nil event = [Print SIZE_MESSAGE] ∧ Uncaught missing = Exit 1).
Proof.
  apply (bracket_failure_escapes_main working_environment
           {| opt_source := ["["; "]"]; opt_output := None;
              opt_target_size := 30000; opt_assemble_only := true |}
           [] (Uncaught missing)).
  by vm_compute.
Defined.

(** X22.  [main] runs the assembler only on the text that [compile]
    returned, for an accepted size, without [-S], with an output path and
    with both tools found; and it runs the linker only after the assembler
    has run and returned 0, on the output path that was asked for. *)
Theorem toolchain_runs_on_compiled_text_only (env : environment)
    (opts : options) (events : list event) (ending : ending) :
  main env opts = Some (events, ending) →
  (∀ a c, Assemble a c ∈ events →
     (MINIMUM_TARGET_SIZE ≤ opt_target_size opts)%Z ∧
     compile (init (opt_source opts) (opt_target_size opts)) = Some (inr c) ∧
     opt_assemble_only opts = false ∧ is_Some (opt_output opts) ∧
     which_as env = Some a ∧ is_Some (which_ld env)) ∧
  (∀ l p, Link l p ∈ events →
     opt_output opts = Some p ∧ which_ld env = Some l ∧
     ∃ a c, which_as env = Some a ∧ (run_as env a c).1 = 0%Z ∧
            ∃ rest, events = Assemble a c :: Link l p :: rest).
Proof.
  unfold main.
  assert (∀ ev : event, ev ∈ @nil event → False) as Hnil
    by (intros ev; apply not_elem_of_nil).
  assert (∀ ev ev' : event, ev ∈ [ev'] → ev = ev') as Hone
    by (intros ev ev'; rewrite list_elem_of_singleton; tauto).
  destruct (decide (opt_target_size opts < MINIMUM_TARGET_SIZE)%Z)
    as [Hsmall|Hsize].
  { intros [= <- <-]. split; intros x y H; by apply Hone in H. }
  destruct (compile _) as [[e|out]|] eqn:Hc; simpl; [| |done].
  { intros [= <- <-]. split; intros x y H; by apply Hnil in H. }
  destruct (opt_assemble_only opts).
  { destruct (opt_output opts) as [output|];
      [destruct (can_write env output)|];
      intros [= <- <-]; split; intros x y H; by apply Hone in H. }
  destruct (opt_output opts) as [output|].
  - intros [= Hev]. pose proof (assemble_and_link_tools env out output) as Ht.
    simpl in Ht. rewrite Hev in Ht. simpl in Ht. destruct Ht as [Ha Hl].
    split.
    + intros a c Hin. destruct (Ha a c Hin) as (? & ? & ->).
      split; [lia|]. split; [done|]. split; [done|]. split; [by eexists|].
      done.
    + intros l p Hin. destruct (Hl l p Hin) as (? & -> & a & ? & ? & ?).
      split; [done|]. split; [done|]. by exists a, out.
  - intros [= <- <-]. split; intros x y H; by apply Hone in H.
Qed.

Lemma toolchain_runs_on_compiled_text_only_witness :
  (∀ a c,
     Assemble a c ∈ [Assemble "/usr/bin/as" (compiled ["+"] 30000);
                     Link "/usr/bin/ld" "a.out"] →
     (MINIMUM_TARGET_SIZE ≤ opt_target_size link_options)%Z ∧
     compile (init (opt_source link_options) (opt_target_size link_options))
       = Some (inr c) ∧
     opt_assemble_only link_options = false ∧
     is_Some (opt_output link_options) ∧
     which_as working_environment = Some a ∧
     is_Some (which_ld working_environment)) ∧
  (∀ l p,
     Link l p ∈ [Assemble "/usr/bin/as" (compiled ["+"] 30000);
                 Link "/usr/bin/ld" "a.out"] →
     opt_output link_options = Some p ∧
     which_ld working_environment = Some l ∧
     ∃ a c, which_as working_environment = Some a ∧
            (run_as working_environment a c).1 = 0%Z ∧
            ∃ rest,
              [Assemble "/usr/bin/as" (compiled ["+"] 30000);
               Link "/usr/bin/ld" "a.out"] =
                Assemble a c :: Link l p :: rest).
Proof.
  apply (toolchain_runs_on_compiled_text_only working_environment
           link_options
           [Assemble "/usr/bin/as" (compiled ["+"] 30000);
            Link "/usr/bin/ld" "a.out"] Return).
  by vm_compute.
Defined.

(** X23.  [main] writes the assembly text, to standard output or to a
    file, only with [-S], and then it writes exactly what [compile]
    returned, once, where it was asked to, and returns. *)
Theorem assembly_text_is_written_on_request_only (env : environment)
    (opts : options) (events : list event) (ending : ending) :
  main env opts = Some (events, ending) →
  (∀ s, StdoutWrite s ∈ events →
     opt_assemble_only opts = true ∧ opt_output opts = None ∧
     compile (init (opt_source opts) (opt_target_size opts)) = Some (inr s) ∧
     events = [StdoutWrite s] ∧ ending = Return) ∧
  (∀ path content, FileWrite path content ∈ events →
     opt_assemble_only opts = true ∧ opt_output opts = Some path ∧
     can_write env path = true ∧
     compile (init (opt_source opts) (opt_target_size opts))
       = Some (inr content) ∧
     events = [FileWrite path content] ∧ ending = Return).
Proof.
  unfold main.
  assert (∀ ev : event, ev ∈ @nil event → False) as Hnil
    by (intros ev; apply not_elem_of_nil).
  assert (∀ ev ev' : event, ev ∈ [ev'] → ev = ev') as Hone
    by (intros ev ev'; rewrite list_elem_of_singleton; tauto).
  destruct (decide (opt_target_size opts < MINIMUM_TARGET_SIZE)%Z)
    as [Hsmall|Hsize].
  { intros [= <- <-]. split; intros; by match goal with
      | H : _ ∈ [_] |- _ => apply Hone in H end. }
  destruct (compile _) as [[e|out]|] eqn:Hc; simpl; [| |done].
  { intros [= <- <-]. split; intros; by match goal with
      | H : _ ∈ [] |- _ => apply Hnil in H end. }
  destruct (opt_assemble_only opts).
  { destruct (opt_output opts) as [output|];
      [destruct (can_write env output) eqn:Hw|];
      intros [= <- <-]; split; intros;
      match goal with H : _ ∈ [_] |- _ => apply Hone in H end;
      try discriminate; simplify_eq; done. }
  destruct (opt_output opts) as [output|].
  - intros [= Hev].
    pose proof (assemble_and_link_writes_nothing env out output) as Hw.
    rewrite Hev in Hw. simpl in Hw.
    split; intros; by match goal with
      | H : _ ∈ events |- _ => apply Hw in H end.
  - intros [= <- <-]. split; intros; by match goal with
      | H : _ ∈ [_] |- _ => apply Hone in H end.
Qed.

Lemma assembly_text_is_written_on_request_only_witness :
  (∀ s, StdoutWrite s ∈ [StdoutWrite (compiled ["+"] 30000)] →
     opt_assemble_only assembly_options = true ∧
     opt_output assembly_options = None ∧
     compile (init (opt_source assembly_options)
                (opt_target_size assembly_options)) = Some (inr s) ∧
     [StdoutWrite (compiled ["+"] 30000)] = [StdoutWrite s] ∧
     Return = Return) ∧
  (∀ path content,
     FileWrite path content ∈ [StdoutWrite (compiled ["+"] 30000)] →
     opt_assemble_only assembly_options = true ∧
     opt_output assembly_options = Some path ∧
     can_write working_environment path = true ∧
     compile (init (opt_source assembly_options)
                (opt_target_size assembly_options)) = Some (inr content) ∧
     [StdoutWrite (compiled ["+"] 30000)] = [FileWrite path content] ∧
     Return = Return).
Proof.
  apply (assembly_text_is_written_on_request_only working_environment
           assembly_options [StdoutWrite (compiled ["+"] 30000)] Return).
  by vm_compute.
Defined.

End Driver.

